(** * Fiber packing, mirror building, cell classification and node pairing
      of the 3D RVE script (3D_RVE_Model.py)

    The algorithmic core of the script is embedded as executable Rocq
    functions.  Conventions of the embedding:

    - Python floats are exact rationals ([Q]); rounding errors, NaN and
      infinities other than the [float('inf')] sentinels are outside the
      model.  [float('inf')] as the initial value of a running minimum is
      the [None] of an [option Q].
    - Python integers are [Z]; [range(n)] is [seq 0 (Z.to_nat n)].
    - [math.sqrt] and the random source behind [rd.uniform] are library
      functions: they are parameters ([math_sqrt], [rand]) of the functions
      that call them, and statements assume about them only what they say.
    - Exceptions are the [Raise] results of a small error monad; the index
      and division errors of the interpreter are written out.
    - [print] output is dropped, except where a message is the only trace
      of which exit a loop took. *)

From Stdlib Require Import QArith Qround Qabs Lqa ZArith Lia Sorted.
From stdpp Require Import base option list gmap strings pretty.

Local Open Scope Q_scope.

(** * Part I: the embedding *)

(** ** Numbers *)

Definition Qltb (a b : Q) : bool := negb (Qle_bool b a).
Definition Qleb (a b : Q) : bool := Qle_bool a b.
Definition Qeqb (a b : Q) : bool := Qeq_bool a b.

(** The binary64 value of [math.pi], 0x1.921fb54442d18p+1. *)
Definition math_pi : Q := 884279719003555 # 281474976710656.

(** [int(x)] on a float: truncation toward zero. *)
Definition py_int (x : Q) : Z := Z.quot (Qnum x) (Z.pos (Qden x)).

(** [round(x)] of Python 2.7: nearest integer, halves away from zero. *)
Definition py_round (x : Q) : Z :=
  if Qltb x 0 then Z.opp (Qfloor (- x + (1 # 2))) else Qfloor (x + (1 # 2)).

(** [x ** 2]. *)
Definition sq (x : Q) : Q := x * x.

(** [float('inf')] as a running minimum: [x < m] and [m >= x]. *)
Definition lt_inf (x : Q) (m : option Q) : bool :=
  match m with None => true | Some m => Qltb x m end.

Definition inf_ge (m : option Q) (x : Q) : bool :=
  match m with None => true | Some m => Qleb x m end.

Definition inf_lt (m : option Q) (x : Q) : bool :=
  match m with None => false | Some m => Qltb m x end.

(** ** Exceptions *)

Inductive exn : Type :=
| IndexError
| ZeroDivisionError
  (** the message of [_final_check_and_enforce]: iterations, final minimum
      distance, target, violating pairs, involved fibers *)
| MinDistanceError (iterations : Z) (final_min_dist target : option Q)
    (violating_pairs violating_fibers : nat)
  (** the two fatal errors of [classifyCellsImproved] *)
| CellCountAnomaly (potential total : nat)
| CellCenterUnavailable (idx : nat) (volume : Q).

Inductive result (A : Type) : Type :=
| Ok (a : A)
| Raise (e : exn).
Arguments Ok {A} a.
Arguments Raise {A} e.

#[global] Instance result_ret : MRet result := fun A a => Ok a.
#[global] Instance result_bind : MBind result := fun A B f m =>
  match m with Ok a => f a | Raise e => Raise e end.

Definition is_Ok {A} (r : result A) : Prop := exists a, r = Ok a.

(** A [for] loop over a list whose body may raise. *)
Fixpoint foldlM {A S : Type} (f : S -> A -> result S) (s : S) (l : list A)
  : result S :=
  match l with
  | [] => Ok s
  | a :: l => s' ← f s a; foldlM f s' l
  end.

(** Float division and float modulo; both raise on a zero divisor.  The
    result of [%] has the sign of the divisor. *)
Definition py_div (a b : Q) : result Q :=
  if Qeqb b 0 then Raise ZeroDivisionError else Ok (a / b).

Definition py_mod (a b : Q) : result Q :=
  if Qeqb b 0 then Raise ZeroDivisionError
  else Ok (a - b * inject_Z (Qfloor (a / b))).

(** ** Domain and points *)

Abbreviation Point := (Q * Q)%type.

(** [rveSize = [width, height, depth]]. *)
Record RveSize : Type := mkRve { rve_w : Q; rve_h : Q; rve_d : Q }.

(** [coords[i]], raising [IndexError] out of range (indices are never
    negative in the loops below). *)
Definition get_item {A} (l : list A) (i : nat) : result A :=
  match l !! i with Some a => Ok a | None => Raise IndexError end.

(** [l[i] = f(l[i])], the read-modify-write of an augmented assignment. *)
Definition modify_item {A} (l : list A) (i : nat) (f : A -> result A)
  : result (list A) :=
  a ← get_item l i; a' ← f a; mret (<[i := a']> l).

(** The pairs [(i, j)] of
    [for i in range(n): for j in range(i + 1, n)], in scan order. *)
Definition index_pairs (n : nat) : list (nat * nat) :=
  flat_map (fun i => map (pair i) (seq (S i) (n - S i))) (seq 0 n).

(** The periodic correction of one component of a difference vector:
    [if d > L / 2: d -= L] then [if d < -L / 2: d += L]. *)
Definition min_image (L d : Q) : Q :=
  let d1 := if Qltb (L / 2) d then d - L else d in
  if Qltb d1 (- L / 2) then d1 + L else d1.

(** [dx, dy] of the pair [(i, j)] after the periodic correction. *)
Definition pair_delta (rveSize : RveSize) (coords : list Point) (i j : nat)
  : result (Q * Q) :=
  pj ← get_item coords j;
  pi ← get_item coords i;
  mret (min_image (rve_w rveSize) (pj.1 - pi.1),
        min_image (rve_h rveSize) (pj.2 - pi.2)).

Definition dist_sq_of (d : Q * Q) : Q := d.1 * d.1 + d.2 * d.2.

(** [worst_offenders = (i, j, dx, dy)] *)
Abbreviation Offenders := (nat * nat * Q * Q)%type.

(** ** Relaxer and Corrector *)

(** Which [print] the Relaxer ended with: "System stable" (in the scan of
    iteration [iter_num], counted from 0), "Converged after n iterations",
    or "Max relaxation iterations reached". *)
Inductive relax_exit : Type :=
| SystemStable (iter_num : nat)
| Converged (iterations : nat)
| MaxIterationsReached.

Definition max_iterations : nat := Z.to_nat 2000.
Definition movement_factor : Q := 0.5.
Definition anchor_damping_factor : Q := 0.05.
Definition max_correction_iter : Z := 50000.

Section Packing.

Variable math_sqrt : Q -> Q.

(** [math.sqrt(dist_sq) if dist_sq > 0 else 1e-9]. *)
Definition safe_dist (dist_sq : Q) : Q :=
  if Qltb 0 dist_sq then math_sqrt dist_sq else 1e-9.

(** *** [_relax_coords_anchored] *)

(** The body of the pair loop: the repulsion of one pair [(i, j)] added to
    [net_forces]. *)
Definition accumulate_force (rveSize : RveSize) (minDistance : Q)
    (coords : list Point) (net_forces : list (Q * Q)) (ij : nat * nat)
  : result (list (Q * Q)) :=
  let '(i, j) := ij in
  d ← pair_delta rveSize coords i j;
  let dist_sq := dist_sq_of d in
  if Qltb dist_sq (sq minDistance) then
    let dist := safe_dist dist_sq in
    let overlap := minDistance - dist in
    let force_magnitude := overlap in
    ux ← py_div d.1 dist;
    let force_x := force_magnitude * ux in
    uy ← py_div d.2 dist;
    let force_y := force_magnitude * uy in
    f1 ← modify_item net_forces i (fun f => mret (f.1 - force_x, f.2));
    f2 ← modify_item f1 i (fun f => mret (f.1, f.2 - force_y));
    f3 ← modify_item f2 j (fun f => mret (f.1 + force_x, f.2));
    modify_item f3 j (fun f => mret (f.1, f.2 + force_y))
  else mret net_forces.

Definition compute_net_forces (rveSize : RveSize) (minDistance : Q)
    (fiberCount : nat) (coords : list Point) : result (list (Q * Q)) :=
  foldlM (accumulate_force rveSize minDistance coords)
         (replicate fiberCount (0, 0)) (index_pairs fiberCount).

(** [any(any(f) for f in net_forces)]: a float is true when non-zero. *)
Definition any_force (net_forces : list (Q * Q)) : bool :=
  existsb (fun f => negb (Qeqb f.1 0) || negb (Qeqb f.2 0)) net_forces.

(** The body of the movement loop for fiber [i]; the state is the
    coordinate list and [max_movement_sq]. *)
Definition move_fiber (rveSize : RveSize) (seeding_count : Z)
    (net_forces : list (Q * Q)) (st : list Point * Q) (i : nat)
  : result (list Point * Q) :=
  let '(coords, max_movement_sq) := st in
  f ← get_item net_forces i;
  let move_x := f.1 * movement_factor in
  let move_y := f.2 * movement_factor in
  let damped := (Z.of_nat i <? seeding_count)%Z in
  let move_x := if damped then move_x * anchor_damping_factor else move_x in
  let move_y := if damped then move_y * anchor_damping_factor else move_y in
  c1 ← modify_item coords i (fun p => mret (p.1 + move_x, p.2));
  c2 ← modify_item c1 i (fun p => mret (p.1, p.2 + move_y));
  c3 ← modify_item c2 i (fun p => x ← py_mod p.1 (rve_w rveSize); mret (x, p.2));
  c4 ← modify_item c3 i (fun p => y ← py_mod p.2 (rve_h rveSize); mret (p.1, y));
  let current_movement_sq := sq move_x + sq move_y in
  mret (c4, if Qltb max_movement_sq current_movement_sq
            then current_movement_sq else max_movement_sq).

(** One pass of the [for iter_num] loop: [inl] is a [return], [inr] the
    coordinates the next pass starts from. *)
Definition relax_iteration (seeding_count : Z) (fiberCount : nat)
    (rveSize : RveSize) (fiberRadius minDistance : Q) (iter_num : nat)
    (coords : list Point)
  : result (list Point * relax_exit + list Point) :=
  net_forces ← compute_net_forces rveSize minDistance fiberCount coords;
  if negb (any_force net_forces) then mret (inl (coords, SystemStable iter_num))
  else
    st ← foldlM (move_fiber rveSize seeding_count net_forces) (coords, 0)
                (seq 0 fiberCount);
    let '(coords', max_movement_sq) := st in
    if Qltb max_movement_sq (sq (1e-6 * fiberRadius))
    then mret (inl (coords', Converged (S iter_num)))
    else mret (inr coords').

(** The passes [iter_num], [iter_num + 1], ... while [fuel] lasts. *)
Fixpoint relax_loop (fuel : nat) (seeding_count : Z) (fiberCount : nat)
    (rveSize : RveSize) (fiberRadius minDistance : Q) (iter_num : nat)
    (coords : list Point) : result (list Point * relax_exit) :=
  match fuel with
  | O => mret (coords, MaxIterationsReached)
  | S fuel =>
      r ← relax_iteration seeding_count fiberCount rveSize fiberRadius
            minDistance iter_num coords;
      match r with
      | inl done => mret done
      | inr coords' =>
          relax_loop fuel seeding_count fiberCount rveSize fiberRadius
            minDistance (S iter_num) coords'
      end
  end.

(** The function with the message it printed last. *)
Definition _relax_coords_anchored_trace (initial_coords : list Point)
    (seeding_count fiberCount : Z) (rveSize : RveSize)
    (fiberRadius minDistance : Q) : result (list Point * relax_exit) :=
  relax_loop max_iterations seeding_count (Z.to_nat fiberCount) rveSize
    fiberRadius minDistance 0 initial_coords.

Definition _relax_coords_anchored (initial_coords : list Point)
    (seeding_count fiberCount : Z) (rveSize : RveSize)
    (fiberRadius minDistance : Q) : result (list Point) :=
  r ← _relax_coords_anchored_trace initial_coords seeding_count fiberCount
        rveSize fiberRadius minDistance;
  mret r.1.

(** *** [_final_check_and_enforce] *)

(** The body of the scan: the running [min_dist_sq_found] and
    [worst_offenders]. *)
Definition scan_pair (rveSize : RveSize) (coords : list Point)
    (st : option Q * option Offenders) (ij : nat * nat)
  : result (option Q * option Offenders) :=
  let '(i, j) := ij in
  d ← pair_delta rveSize coords i j;
  let dist_sq := dist_sq_of d in
  if lt_inf dist_sq st.1 then mret (Some dist_sq, Some (i, j, d.1, d.2))
  else mret st.

Definition find_worst (rveSize : RveSize) (fiberCount : nat)
    (coords : list Point) : result (option Q * option Offenders) :=
  foldlM (scan_pair rveSize coords) (None, None) (index_pairs fiberCount).

(** The [if worst_offenders:] block: the pair is pushed apart and wrapped. *)
Definition push_apart (rveSize : RveSize) (minDistance : Q)
    (coords : list Point) (min_dist_sq_found : Q) (worst : Offenders)
  : result (list Point) :=
  let '(i, j, dx, dy) := worst in
  let dist := safe_dist min_dist_sq_found in
  let overlap := minDistance - dist in
  let move_dist := overlap / 2 + 1e-8 in
  ux ← py_div dx dist;
  let move_x := move_dist * ux in
  uy ← py_div dy dist;
  let move_y := move_dist * uy in
  c1 ← modify_item coords i (fun p => mret (p.1 - move_x, p.2));
  c2 ← modify_item c1 i (fun p => mret (p.1, p.2 - move_y));
  c3 ← modify_item c2 j (fun p => mret (p.1 + move_x, p.2));
  c4 ← modify_item c3 j (fun p => mret (p.1, p.2 + move_y));
  c5 ← modify_item c4 i (fun p => x ← py_mod p.1 (rve_w rveSize); mret (x, p.2));
  c6 ← modify_item c5 i (fun p => y ← py_mod p.2 (rve_h rveSize); mret (p.1, y));
  c7 ← modify_item c6 j (fun p => x ← py_mod p.1 (rve_w rveSize); mret (x, p.2));
  modify_item c7 j (fun p => y ← py_mod p.2 (rve_h rveSize); mret (p.1, y)).

(** One pass of the correction loop: [inl] is the [return coords] of a
    passed check, [inr] the coordinates the next pass starts from. *)
Definition enforce_iteration (rveSize : RveSize) (minDistance : Q)
    (fiberCount : nat) (coords : list Point)
  : result (list Point + list Point) :=
  st ← find_worst rveSize fiberCount coords;
  let '(min_dist_sq_found, worst_offenders) := st in
  if inf_ge min_dist_sq_found (sq minDistance) then mret (inl coords)
  else
    match worst_offenders, min_dist_sq_found with
    | Some worst, Some m =>
        c ← push_apart rveSize minDistance coords m worst; mret (inr c)
    | _, _ => mret (inr coords)
    end.

Fixpoint enforce_loop (fuel : nat) (rveSize : RveSize) (minDistance : Q)
    (fiberCount : nat) (coords : list Point)
  : result (list Point + list Point) :=
  match fuel with
  | O => mret (inr coords)
  | S fuel =>
      r ← enforce_iteration rveSize minDistance fiberCount coords;
      match r with
      | inl done => mret (inl done)
      | inr coords' => enforce_loop fuel rveSize minDistance fiberCount coords'
      end
  end.

(** The body of the final scan: [final_min_dist_sq], [violating_pairs] and
    [violating_fibers]. *)
Definition final_scan_pair (rveSize : RveSize) (minDistance : Q)
    (coords : list Point) (st : option Q * nat * gset nat) (ij : nat * nat)
  : result (option Q * nat * gset nat) :=
  let '(final_min_dist_sq, violating_pairs, violating_fibers) := st in
  let '(i, j) := ij in
  d ← pair_delta rveSize coords i j;
  let dist_sq := dist_sq_of d in
  let final_min_dist_sq :=
    if lt_inf dist_sq final_min_dist_sq then Some dist_sq
    else final_min_dist_sq in
  if Qltb dist_sq (sq minDistance)
  then mret (final_min_dist_sq, S violating_pairs,
             {[ j ]} ∪ ({[ i ]} ∪ violating_fibers))
  else mret (final_min_dist_sq, violating_pairs, violating_fibers).

Definition final_verification (rveSize : RveSize) (minDistance : Q)
    (fiberCount : nat) (coords : list Point) : result (list Point) :=
  st ← foldlM (final_scan_pair rveSize minDistance coords) (None, O, ∅)
       (index_pairs fiberCount);
  let '(final_min_dist_sq, violating_pairs, violating_fibers) := st in
  if inf_lt final_min_dist_sq (sq minDistance)
  then Raise (MinDistanceError max_correction_iter
                (math_sqrt <$> final_min_dist_sq) (Some minDistance)
                violating_pairs (size violating_fibers))
  else mret coords.

Definition _final_check_and_enforce (coords_in : list Point) (fiberCount : Z)
    (rveSize : RveSize) (minDistance : Q) : result (list Point) :=
  let n := Z.to_nat fiberCount in
  r ← enforce_loop (Z.to_nat max_correction_iter) rveSize minDistance n
        coords_in;
  match r with
  | inl coords => mret coords
  | inr coords => final_verification rveSize minDistance n coords
  end.

End Packing.

(** ** Step 1 of [create3DRVEModel]: parameters, Seeder, Filler, Relaxer,
       Corrector *)

Definition rsa_max_attempts : nat := Z.to_nat 500.

(** How Step 1 leaves: the [return] after "Single fiber area >= RVE area",
    the [return] of the [except] around the Corrector, or [fiber_centers]. *)
Inductive outcome : Type :=
| InvalidConfiguration
| CorrectionFailed (e : exn)
| FiberCenters (fiber_centers : list Point).

(** [rveArea], [fiberArea], [fiberCount] and [minDistance]. *)
Definition fiber_parameters (rveSize : RveSize)
    (fiberRadius target_Vf minDistanceFactor : Q) : result (Q * Q * Z * Q) :=
  let rveArea := rve_w rveSize * rve_h rveSize in
  let fiberArea := math_pi * sq fiberRadius in
  x ← py_div (target_Vf * rveArea) fiberArea;
  let fiberCount := py_round x in
  let minDistance := minDistanceFactor * fiberRadius in
  mret (rveArea, fiberArea, fiberCount, minDistance).

Section Pipeline.

Variable math_sqrt : Q -> Q.

(** [rand n] is the value of the [n]-th call of the generator's [random()];
    the state threaded through the placement is the number of calls made. *)
Variable rand : nat -> Q.

(** [rd.uniform(a, b)], which is [a + (b - a) * random()]. *)
Definition uniform (a b : Q) (calls : nat) : Q * nat :=
  (a + (b - a) * rand calls, S calls).

(** The inner [for xc, yc in seeded_coords] loop with its [break]. *)
Definition is_too_close (rveSize : RveSize) (minDistance xt yt : Q)
    (seeded_coords : list Point) : bool :=
  existsb (fun c =>
    let dx := Qabs (xt - c.1) in
    let dy := Qabs (yt - c.2) in
    let dx := if Qltb (rve_w rveSize / 2) dx then rve_w rveSize - dx else dx in
    let dy := if Qltb (rve_h rveSize / 2) dy then rve_h rveSize - dy else dy in
    Qltb (dx * dx + dy * dy) (sq minDistance)) seeded_coords.

(** [for _ in range(rsa_max_attempts)]: the placed point, if any. *)
Fixpoint rsa_attempts (attempts : nat) (rveSize : RveSize) (minDistance : Q)
    (seeded_coords : list Point) (calls : nat) : option Point * nat :=
  match attempts with
  | O => (None, calls)
  | S attempts =>
      let '(xt, calls) := uniform 0 (rve_w rveSize) calls in
      let '(yt, calls) := uniform 0 (rve_h rveSize) calls in
      if is_too_close rveSize minDistance xt yt seeded_coords
      then rsa_attempts attempts rveSize minDistance seeded_coords calls
      else (Some (xt, yt), calls)
  end.

(** [for i in range(seeding_count)], left by [break] when a fiber could
    not be placed. *)
Fixpoint rsa_seeding (seeding_count : nat) (rveSize : RveSize)
    (minDistance : Q) (seeded_coords : list Point) (calls : nat)
  : list Point * nat :=
  match seeding_count with
  | O => (seeded_coords, calls)
  | S seeding_count =>
      match rsa_attempts rsa_max_attempts rveSize minDistance seeded_coords
              calls with
      | (Some p, calls) =>
          rsa_seeding seeding_count rveSize minDistance
            (seeded_coords ++ [p]) calls
      | (None, calls) => (seeded_coords, calls)
      end
  end.

(** [for _ in range(remaining)]: the fluid fibers. *)
Fixpoint random_placement (remaining : nat) (rveSize : RveSize)
    (initial_coords : list Point) (calls : nat) : list Point * nat :=
  match remaining with
  | O => (initial_coords, calls)
  | S remaining =>
      let '(x, calls) := uniform 0 (rve_w rveSize) calls in
      let '(y, calls) := uniform 0 (rve_h rveSize) calls in
      random_placement remaining rveSize (initial_coords ++ [(x, y)]) calls
  end.

(** Step 1 up to the assignment of [fiber_centers], from a generator that
    has been called [calls] times; the result carries the number of calls
    made when Step 1 leaves. *)
Definition create3DRVEModel_step1 (rveSize : RveSize)
    (fiberRadius target_Vf minDistanceFactor rsa_seeding_ratio : Q)
    (calls : nat) : result (outcome * nat) :=
  params ← fiber_parameters rveSize fiberRadius target_Vf minDistanceFactor;
  let '(rveArea, fiberArea, fiberCount, minDistance) := params in
  if (fiberCount =? 0)%Z then mret (FiberCenters [], calls)
  else if Qleb rveArea fiberArea then mret (InvalidConfiguration, calls)
  else
    let seeding_count := py_int (inject_Z fiberCount * rsa_seeding_ratio) in
    let '(seeded_coords, calls) :=
      rsa_seeding (Z.to_nat seeding_count) rveSize minDistance [] calls in
    let seeding_count_actual := Z.of_nat (length seeded_coords) in
    let remaining := (fiberCount - seeding_count_actual)%Z in
    let '(initial_coords, calls) :=
      random_placement (Z.to_nat remaining) rveSize seeded_coords calls in
    relaxed_coords ← _relax_coords_anchored math_sqrt initial_coords
                       seeding_count_actual fiberCount rveSize fiberRadius
                       minDistance;
    match _final_check_and_enforce math_sqrt relaxed_coords fiberCount
            rveSize minDistance with
    | Ok fiber_centers => mret (FiberCenters fiber_centers, calls)
    | Raise e => mret (CorrectionFailed e, calls)
    end.

End Pipeline.

(** ** Mirror builders *)

Section Mirrors.

Variable math_sqrt : Q -> Q.

(** The four corner blocks of [buildAllFiberCenters3D] for one center. *)
Definition corner_mirror (near_x near_y : bool) (cx cy : Q) (fiberRadius : Q)
    (image : Point) : list Point :=
  if near_x && near_y then
    let dist_to_corner := math_sqrt (sq cx + sq cy) in
    if Qltb dist_to_corner fiberRadius then [image] else []
  else [].

(** What the body of [for xt, yt in fiber_centers] appends. *)
Definition center_images (rveSize : RveSize) (fiberRadius : Q) (c : Point)
  : list Point :=
  let '(xt, yt) := c in
  let W := rve_w rveSize in
  let H := rve_h rveSize in
  let left := Qltb xt fiberRadius in
  let right := Qltb (W - fiberRadius) xt in
  let bottom := Qltb yt fiberRadius in
  let top := Qltb (H - fiberRadius) yt in
  [(xt, yt)]
  ++ (if left then [(xt + W, yt)] else [])
  ++ (if right then [(xt - W, yt)] else [])
  ++ (if bottom then [(xt, yt + H)] else [])
  ++ (if top then [(xt, yt - H)] else [])
  ++ corner_mirror left bottom xt yt fiberRadius (xt + W, yt + H)
  ++ corner_mirror left top xt (H - yt) fiberRadius (xt + W, yt - H)
  ++ corner_mirror right top (W - xt) (H - yt) fiberRadius (xt - W, yt - H)
  ++ corner_mirror right bottom (W - xt) yt fiberRadius (xt - W, yt + H).

Definition dedup_tolerance : Q := 1e-6.

Definition is_duplicate (center : Point) (unique_centers : list Point) : bool :=
  existsb (fun existing =>
    Qltb (Qabs (center.1 - existing.1)) dedup_tolerance
    && Qltb (Qabs (center.2 - existing.2)) dedup_tolerance) unique_centers.

Definition unique_within_tolerance (all_fiber_centers : list Point)
  : list Point :=
  foldl (fun unique_centers center =>
           if is_duplicate center unique_centers then unique_centers
           else unique_centers ++ [center]) [] all_fiber_centers.

Definition buildAllFiberCenters3D (fiber_centers : list Point)
    (rveSize : RveSize) (fiberRadius : Q) : list Point :=
  unique_within_tolerance
    (flat_map (center_images rveSize fiberRadius) fiber_centers).

End Mirrors.

(** Step 2 of [create3DRVEModel]: the mirror generation written inline. *)

(** [points_to_add] for one center. *)
Definition points_to_add (rveSize : RveSize) (fiberRadius : Q) (c : Point)
  : list Point :=
  let '(xt, yt) := c in
  let W := rve_w rveSize in
  let H := rve_h rveSize in
  let left := Qltb xt fiberRadius in
  let right := Qltb (W - fiberRadius) xt in
  let bottom := Qltb yt fiberRadius in
  let top := Qltb (H - fiberRadius) yt in
  [(xt, yt)]
  ++ (if left then [(xt + W, yt)] else [])
  ++ (if right then [(xt - W, yt)] else [])
  ++ (if bottom then [(xt, yt + H)] else [])
  ++ (if top then [(xt, yt - H)] else [])
  ++ (if left && top then [(xt + W, yt - H)] else [])
  ++ (if left && bottom then [(xt + W, yt + H)] else [])
  ++ (if right && top then [(xt - W, yt - H)] else [])
  ++ (if right && bottom then [(xt - W, yt + H)] else []).

(** Equality and order of tuples of floats. *)
Definition point_eqb (p q : Point) : bool := Qeqb p.1 q.1 && Qeqb p.2 q.2.
Definition point_ltb (p q : Point) : bool :=
  Qltb p.1 q.1 || (Qeqb p.1 q.1 && Qltb p.2 q.2).

(** [set(points)]: one representative of each class of equal tuples. *)
Fixpoint set_of_points (points : list Point) : list Point :=
  match points with
  | [] => []
  | p :: points =>
      p :: List.filter (fun q => negb (point_eqb p q)) (set_of_points points)
  end.

Fixpoint insert_point (p : Point) (sorted : list Point) : list Point :=
  match sorted with
  | [] => [p]
  | q :: sorted' =>
      if point_ltb q p then q :: insert_point p sorted' else p :: sorted
  end.

(** [sorted(list(set(points_to_add)))] *)
Definition unique_points (points : list Point) : list Point :=
  foldr insert_point [] (set_of_points points).

(** The points [(xCoords[k], yCoords[k])] after the loop of Step 2. *)
Definition create3DRVEModel_step2 (fiber_centers : list Point)
    (rveSize : RveSize) (fiberRadius : Q) : list Point :=
  flat_map (fun c => unique_points (points_to_add rveSize fiberRadius c))
           fiber_centers.

(** ** Classifier *)

(** A cell of the external geometry kernel, as far as the Classifier
    queries it: its volume, the centroid query ([None] when it raises or
    returns fewer than three numbers), and the points of its vertices
    ([None] when [getVertices] raises; a vertex without a usable [pointOn]
    is a [None] entry). *)
Record Cell : Type := mkCell {
  getSize : Q;
  getCentroid : option (Q * Q * Q);
  getVertices : option (list (option (Q * Q * Q)))
}.

Definition Qsum (l : list Q) : Q := foldr Qplus 0 l.

Definition getCellCenterFromVertices (cell : Cell) : option (Q * Q * Q) :=
  match getVertices cell with
  | None => None
  | Some vertices =>
      let coords := omap id vertices in
      match coords with
      | [] => None
      | _ =>
          let n := inject_Z (Z.of_nat (length coords)) in
          Some (Qsum (map (fun c => c.1.1) coords) / n,
                Qsum (map (fun c => c.1.2) coords) / n,
                Qsum (map (fun c => c.2) coords) / n)
      end
  end.

(** [sorted(all_cells, key=lambda c: c.getSize(), reverse=True)]: stable,
    largest volume first. *)
Fixpoint insert_by_size (c : Cell) (sorted : list Cell) : list Cell :=
  match sorted with
  | [] => [c]
  | d :: sorted' =>
      if Qltb (getSize c) (getSize d) then d :: insert_by_size c sorted'
      else c :: sorted
  end.

Definition sorted_by_size (all_cells : list Cell) : list Cell :=
  foldr insert_by_size [] all_cells.

(** What the Classifier hands back, together with the number of cells whose
    center was queried and whether the volume-fraction warning was printed. *)
Record Classification : Type := mkClassification {
  fiber_cells_list : list Cell;
  matrix_cells_list : list Cell;
  center_queries : nat;
  vf_warning : bool
}.

Section Classifier.

Variable math_sqrt : Q -> Q.

(** The minimum XY distance from a cell center to the fiber centers. *)
Definition min_center_dist (cell_x cell_y : Q) (all_fiber_centers : list Point)
  : option Q :=
  foldl (fun min_dist fc =>
           let dist := math_sqrt (sq (cell_x - fc.1) + sq (cell_y - fc.2)) in
           if lt_inf dist min_dist then Some dist else min_dist)
        None all_fiber_centers.

(** The body of [for idx, cell in enumerate(potential_cells)]; the state is
    [fiber_cells_list], [matrix_cells_list] and the number of center
    queries made. *)
Definition classify_cell (all_fiber_centers : list Point) (fiberRadius : Q)
    (st : list Cell * list Cell * nat) (ic : nat * Cell)
  : result (list Cell * list Cell * nat) :=
  let '(fibers, matrix, queries) := st in
  let '(idx, cell) := ic in
  let cell_center :=
    match getCentroid cell with
    | Some c => Some c
    | None => getCellCenterFromVertices cell
    end in
  match cell_center with
  | None => Raise (CellCenterUnavailable idx (getSize cell))
  | Some (cell_x, cell_y, cell_z) =>
      let min_dist := min_center_dist cell_x cell_y all_fiber_centers in
      if inf_lt min_dist fiberRadius
      then mret (fibers ++ [cell], matrix, S queries)
      else mret (fibers, matrix ++ [cell], S queries)
  end.

(** Steps 1 to 4: the two lists and the number of center queries. *)
Definition classify_step4 (all_cells : list Cell) (fiber_centers : list Point)
    (rveSize : RveSize) (fiberRadius : Q)
  : result (list Cell * list Cell * nat) :=
  let sorted_cells := sorted_by_size all_cells in
  largest ← get_item sorted_cells 0;
  let all_fiber_centers :=
    buildAllFiberCenters3D math_sqrt fiber_centers rveSize fiberRadius in
  let matrix_cells_list := [largest] in
  let potential_cells := drop 1 sorted_cells in
  if (length potential_cells <? length all_fiber_centers)%nat then
    Raise (CellCountAnomaly (length potential_cells)
                            (length all_fiber_centers))
  else if (length potential_cells =? length all_fiber_centers)%nat then
    mret (potential_cells, matrix_cells_list, O)
  else
    foldlM (classify_cell all_fiber_centers fiberRadius)
           ([], matrix_cells_list, O)
           (zip (seq 0 (length potential_cells)) potential_cells).

(** Step 6: the volume-fraction check; [true] when the warning is printed. *)
Definition validate_Vf (fibers : list Cell) (fiber_centers : list Point)
    (rveSize : RveSize) (fiberRadius rveVolume : Q) : result bool :=
  let fiber_total_volume := Qsum (map getSize fibers) in
  actual_Vf ← py_div fiber_total_volume rveVolume;
  target_Vf_from_count ←
    py_div (inject_Z (Z.of_nat (length fiber_centers)) * math_pi
            * sq fiberRadius)
           (rve_w rveSize * rve_h rveSize);
  ratio ← py_div (Qabs (actual_Vf - target_Vf_from_count))
                 target_Vf_from_count;
  let deviation := ratio * 100 in
  mret (Qltb 5 deviation).

Definition classifyCellsImproved (all_cells : list Cell)
    (fiber_centers : list Point) (rveSize : RveSize)
    (fiberRadius rveVolume : Q) : result Classification :=
  st ← classify_step4 all_cells fiber_centers rveSize fiberRadius;
  let '(fibers, matrix, queries) := st in
  warning ← validate_Vf fibers fiber_centers rveSize fiberRadius rveVolume;
  mret (mkClassification fibers matrix queries warning).

End Classifier.

(** ** Pairing Engine *)

(** A mesh node: its label and its coordinates. *)
Record Node : Type := mkNode { label : Z; coordinates : Q * Q * Q }.

#[global] Instance Q_eq_dec : EqDecision Q.
Proof. solve_decision. Defined.
#[global] Instance Node_eq_dec : EqDecision Node.
Proof. solve_decision. Defined.

(** [coord[idx]] on a triple. *)
Definition coord_at (coord : Q * Q * Q) (idx : nat) : result Q :=
  match idx with
  | O => Ok coord.1.1
  | S O => Ok coord.1.2
  | S (S O) => Ok coord.2
  | _ => Raise IndexError
  end.

(** [pool.remove(x)]: the first element equal to [x] is dropped. *)
Fixpoint list_remove_first (x : Node) (pool : list Node) : list Node :=
  match pool with
  | [] => []
  | y :: pool' => if decide (y = x) then pool' else y :: list_remove_first x pool'
  end.

Section Pairing.

Variable math_sqrt : Q -> Q.

Definition planar_dist (coord_indices : nat * nat) (s_node m_node : Node)
  : result Q :=
  let '(idx1, idx2) := coord_indices in
  s1 ← coord_at (coordinates s_node) idx1;
  m1 ← coord_at (coordinates m_node) idx1;
  let delta1 := Qabs (s1 - m1) in
  s2 ← coord_at (coordinates s_node) idx2;
  m2 ← coord_at (coordinates m_node) idx2;
  let delta2 := Qabs (s2 - m2) in
  mret (math_sqrt (sq delta1 + sq delta2)).

(** The body of [for m_node in master_pool]; the state is
    [best_match_node] and [min_dist]. *)
Definition match_candidate (tolerance : Q) (coord_indices : nat * nat)
    (s_node : Node) (st : option Node * option Q) (m_node : Node)
  : result (option Node * option Q) :=
  d ← planar_dist coord_indices s_node m_node;
  if Qltb d tolerance && lt_inf d st.2 then mret (Some m_node, Some d)
  else mret st.

(** The body of [for s_node in slave_pool]; the state is [paired_nodes]
    and [master_pool]. *)
Definition pair_slave (tolerance : Q) (coord_indices : nat * nat)
    (st : list (Node * Node) * list Node) (s_node : Node)
  : result (list (Node * Node) * list Node) :=
  let '(paired_nodes, master_pool) := st in
  best ← foldlM (match_candidate tolerance coord_indices s_node)
                (None, None) master_pool;
  match best.1 with
  | Some best_match_node =>
      mret (paired_nodes ++ [(s_node, best_match_node)],
            list_remove_first best_match_node master_pool)
  | None => mret st
  end.

Definition pairBoundaryNodes3D (slave_nodes master_nodes : list Node)
    (tolerance : Q) (coord_indices : nat * nat)
  : result (list (Node * Node)) :=
  st ← foldlM (pair_slave tolerance coord_indices) ([], master_nodes)
              slave_nodes;
  mret st.1.

End Pairing.

(** ** Predicates of the statements *)

(** Every pair [i < j < n] of [coords] is at least [minDistance] apart
    (squared minimum-image distance, as the scans compute it). *)
Definition min_distance_satisfied (rveSize : RveSize) (minDistance : Q)
    (n : nat) (coords : list Point) : Prop :=
  forall i j, (i < j < n)%nat ->
    exists d, pair_delta rveSize coords i j = Ok d
              /\ sq minDistance <= dist_sq_of d.


(** [0 <= x < W] and [0 <= y < H]. *)
Definition in_domain (rveSize : RveSize) (p : Point) : Prop :=
  (0 <= p.1 /\ p.1 < rve_w rveSize) /\ (0 <= p.2 /\ p.2 < rve_h rveSize).

(** Equality of two points as tuples of floats. *)
Definition point_eq (p q : Point) : Prop := p.1 == q.1 /\ p.2 == q.2.

(** Two points that the de-duplication of the Mirror Builder identifies. *)
Definition within_tolerance (p q : Point) : Prop :=
  Qabs (p.1 - q.1) < dedup_tolerance /\ Qabs (p.2 - q.2) < dedup_tolerance.


(** Every center within [fiberRadius] of both edges of a corner is also
    within [fiberRadius] of the corner vertex. *)
Definition corners_within_radius (math_sqrt : Q -> Q) (rveSize : RveSize)
    (fiberRadius : Q) (fiber_centers : list Point) : Prop :=
  forall xt yt, In (xt, yt) fiber_centers ->
    let W := rve_w rveSize in
    let H := rve_h rveSize in
    (xt < fiberRadius -> yt < fiberRadius ->
       math_sqrt (sq xt + sq yt) < fiberRadius)
    /\ (xt < fiberRadius -> H - fiberRadius < yt ->
       math_sqrt (sq xt + sq (H - yt)) < fiberRadius)
    /\ (W - fiberRadius < xt -> H - fiberRadius < yt ->
       math_sqrt (sq (W - xt) + sq (H - yt)) < fiberRadius)
    /\ (W - fiberRadius < xt -> yt < fiberRadius ->
       math_sqrt (sq (W - xt) + sq yt) < fiberRadius).

(** [m <= x] for a running minimum [m] that has been assigned. *)
Definition le_inf (m : option Q) (x : Q) : Prop :=
  match m with Some v => v <= x | None => False end.

(** The state of the scan of the Corrector after the pairs [pre]: the
    minimum squared distance over [pre] and the first pair that has it. *)
Definition worst_inv (rveSize : RveSize) (coords : list Point)
    (pre : list (nat * nat)) (st : option Q * option Offenders) : Prop :=
  (forall ij, ij ∈ pre ->
     exists d, pair_delta rveSize coords ij.1 ij.2 = Ok d
               /\ le_inf st.1 (dist_sq_of d))
  /\ match st with
     | (None, None) => pre = []
     | (Some m, Some (i, j, dx, dy)) =>
         (i, j) ∈ pre /\ pair_delta rveSize coords i j = Ok (dx, dy)
         /\ m = dist_sq_of (dx, dy)
     | _ => False
     end.

(** The state of the final scan of the Corrector after the pairs [pre]. *)
Definition final_inv (rveSize : RveSize) (coords : list Point)
    (pre : list (nat * nat)) (st : option Q * nat * gset nat) : Prop :=
  forall ij, ij ∈ pre ->
    exists d, pair_delta rveSize coords ij.1 ij.2 = Ok d
              /\ le_inf st.1.1 (dist_sq_of d).


(** Where a point [q] appended for the center [c] by the Mirror Builder
    comes from: the center itself, an edge mirror of a center within
    [fiberRadius] of that edge, or a diagonal mirror of a center within
    [fiberRadius] of both edges of a corner and of the corner vertex. *)
Definition mirror_provenance (math_sqrt : Q -> Q) (rveSize : RveSize)
    (fiberRadius : Q) (c q : Point) : Prop :=
  let xt := c.1 in
  let yt := c.2 in
  let W := rve_w rveSize in
  let H := rve_h rveSize in
  q = (xt, yt)
  \/ (xt < fiberRadius /\ q = (xt + W, yt))
  \/ (W - fiberRadius < xt /\ q = (xt - W, yt))
  \/ (yt < fiberRadius /\ q = (xt, yt + H))
  \/ (H - fiberRadius < yt /\ q = (xt, yt - H))
  \/ (xt < fiberRadius /\ yt < fiberRadius
      /\ math_sqrt (sq xt + sq yt) < fiberRadius
      /\ q = (xt + W, yt + H))
  \/ (xt < fiberRadius /\ H - fiberRadius < yt
      /\ math_sqrt (sq xt + sq (H - yt)) < fiberRadius
      /\ q = (xt + W, yt - H))
  \/ (W - fiberRadius < xt /\ H - fiberRadius < yt
      /\ math_sqrt (sq (W - xt) + sq (H - yt)) < fiberRadius
      /\ q = (xt - W, yt - H))
  \/ (W - fiberRadius < xt /\ yt < fiberRadius
      /\ math_sqrt (sq (W - xt) + sq yt) < fiberRadius
      /\ q = (xt - W, yt + H)).

(** A produced pair is closer than the tolerance in the plane of the
    given coordinate indices. *)
Definition pair_within_tolerance (math_sqrt : Q -> Q) (tolerance : Q)
    (coord_indices : nat * nat) (p : Node * Node) : Prop :=
  exists d, planar_dist math_sqrt coord_indices p.1 p.2 = Ok d
            /\ d < tolerance.

(** The state of the master scan for [s_node] after the candidates [pre]. *)
Definition best_inv (math_sqrt : Q -> Q) (tolerance : Q)
    (coord_indices : nat * nat) (s_node : Node) (pre : list Node)
    (st : option Node * option Q) : Prop :=
  match st with
  | (None, None) => True
  | (Some m, Some d) =>
      m ∈ pre /\ planar_dist math_sqrt coord_indices s_node m = Ok d
      /\ d < tolerance
  | _ => False
  end.

(** The state of the slave loop after the slaves [pre]. *)
Definition pairing_inv (math_sqrt : Q -> Q) (tolerance : Q)
    (coord_indices : nat * nat) (master_nodes : list Node) (pre : list Node)
    (st : list (Node * Node) * list Node) : Prop :=
  st.1.*2 ++ st.2 ≡ₚ master_nodes
  /\ sublist st.1.*1 pre
  /\ Forall (pair_within_tolerance math_sqrt tolerance coord_indices) st.1.

(** ** Sample instances of the library parameters

    Used to run the functions on concrete inputs. *)

(** An upper approximation of the square root, less than [1e-9] above the
    integer square root of [x * 1e18] scaled back; positive everywhere. *)
Definition sqrt_upper (x : Q) : Q :=
  inject_Z (Z.sqrt (Qfloor (x * 1000000000000000000)) + 1) / 1000000000.

(** A periodic sequence of values in [[0, 1)]. *)
Definition rand_sample (n : nat) : Q :=
  inject_Z (Z.of_nat (n * 37 mod 101)) / 101.

(** * Part I, continued: further functions of the script *)

(** ** Verifier *)

(** One entry of [violating_pairs]; [fiber_i] and [fiber_j] count from 1. *)
Record Violation : Type := mkViolation {
  fiber_i : nat;
  fiber_j : nat;
  distance : Q;
  violation : Q;
  center_i : Point;
  center_j : Point
}.

(** The dictionary [stats] of the full run.  [min_distance] and
    [distance_ratio] are [None] for an infinite value. *)
Record DistanceStats : Type := mkDistanceStats {
  fiber_count : nat;
  total_pairs : nat;
  min_distance : option Q;
  max_distance : Q;
  avg_distance : Q;
  median_distance : Q;
  required_distance : Q;
  distance_ratio : option Q;
  violations_count : nat;
  violations : list Violation
}.

(** The three shapes of the returned [stats]: [{}], [{'fiber_count': 1}]
    and the full dictionary. *)
Inductive VerifierStats : Type :=
| NoFibers
| OneFiber
| FullStats (stats : DistanceStats).

(** [sum(l)]: from 0, left to right. *)
Definition py_sum (l : list Q) : Q := foldl Qplus 0 l.

(** [l.sort()] on floats. *)
Fixpoint insert_Q (x : Q) (sorted : list Q) : list Q :=
  match sorted with
  | [] => [x]
  | y :: sorted' => if Qltb y x then y :: insert_Q x sorted' else x :: sorted
  end.

Definition sort_Q (l : list Q) : list Q := foldr insert_Q [] l.

(** [violating_pairs.sort(key=lambda x: x['violation'], reverse=True)]:
    stable, largest violation first. *)
Fixpoint insert_violation (v : Violation) (sorted : list Violation)
  : list Violation :=
  match sorted with
  | [] => [v]
  | w :: sorted' =>
      if Qltb (violation v) (violation w) then w :: insert_violation v sorted'
      else v :: sorted
  end.

Definition sort_violations (l : list Violation) : list Violation :=
  foldr insert_violation [] l.

(** [inf / x] and [m / x] for a running minimum. *)
Definition inf_div (m : option Q) (x : Q) : result (option Q) :=
  match m with
  | Some m => q ← py_div m x; mret (Some q)
  | None => if Qeqb x 0 then Raise ZeroDivisionError else mret None
  end.

(** The state of the pair loop of the Verifier: [min_distance_found],
    [max_distance_found], [total_pairs], [violating_pairs] and
    [all_distances]. *)
Record VerifierScan : Type := mkVerifierScan {
  min_distance_found : option Q;
  max_distance_found : Q;
  scan_total_pairs : nat;
  violating_pairs : list Violation;
  all_distances : list Q
}.

Section Verifier.

Variable math_sqrt : Q -> Q.

(** The body of the pair loop. *)
Definition verify_pair (fiber_centers : list Point) (rveSize : RveSize)
    (minDistance : Q) (st : VerifierScan) (ij : nat * nat)
  : result VerifierScan :=
  let '(i, j) := ij in
  d ← pair_delta rveSize fiber_centers i j;
  let distance := math_sqrt (d.1 * d.1 + d.2 * d.2) in
  let all_distances := all_distances st ++ [distance] in
  let total_pairs := S (scan_total_pairs st) in
  let min_distance_found :=
    if lt_inf distance (min_distance_found st) then Some distance
    else min_distance_found st in
  let max_distance_found :=
    if Qltb (max_distance_found st) distance then distance
    else max_distance_found st in
  if Qltb distance minDistance then
    ci ← get_item fiber_centers i;
    cj ← get_item fiber_centers j;
    mret (mkVerifierScan min_distance_found max_distance_found total_pairs
            (violating_pairs st
             ++ [mkViolation (S i) (S j) distance (minDistance - distance)
                   ci cj])
            all_distances)
  else
    mret (mkVerifierScan min_distance_found max_distance_found total_pairs
            (violating_pairs st) all_distances).

Definition verify_scan (fiber_centers : list Point) (rveSize : RveSize)
    (minDistance : Q) : result VerifierScan :=
  foldlM (verify_pair fiber_centers rveSize minDistance)
         (mkVerifierScan None 0 O [] [])
         (index_pairs (length fiber_centers)).

Definition verifyMinimumFiberDistance3D (fiber_centers : list Point)
    (rveSize : RveSize) (fiberRadius minDistanceFactor : Q)
  : result (bool * VerifierStats) :=
  match fiber_centers with
  | [] => mret (true, NoFibers)
  | [_] => mret (true, OneFiber)
  | _ =>
      let fiberCount := length fiber_centers in
      let minDistance := minDistanceFactor * fiberRadius in
      st ← verify_scan fiber_centers rveSize minDistance;
      avg_distance ←
        py_div (py_sum (all_distances st))
               (inject_Z (Z.of_nat (length (all_distances st))));
      let sorted_distances := sort_Q (all_distances st) in
      median_distance ←
        get_item sorted_distances (length sorted_distances / 2);
      distance_ratio ← inf_div (min_distance_found st) minDistance;
      let verification_passed :=
        match violating_pairs st with [] => true | _ => false end in
      mret (verification_passed,
            FullStats
              (mkDistanceStats fiberCount (scan_total_pairs st)
                 (min_distance_found st) (max_distance_found st) avg_distance
                 median_distance minDistance distance_ratio
                 (length (violating_pairs st))
                 (sort_violations (violating_pairs st))))
  end.

End Verifier.

(** ** Boundary nodes of the mesh *)

(** [(xMin, xMax, yMin, yMax, zMin, zMax)] *)
Record Dimensions : Type := mkDimensions {
  xMin : Q; xMax : Q; yMin : Q; yMax : Q; zMin : Q; zMax : Q
}.

(** [min(...)] and [max(...)] of a sequence of floats; [None] is the
    [ValueError] for an empty sequence.  The first of several equal
    extremes is kept. *)
Definition py_min (l : list Q) : option Q :=
  match l with
  | [] => None
  | x :: l => Some (foldl (fun m y => if Qltb y m then y else m) x l)
  end.

Definition py_max (l : list Q) : option Q :=
  match l with
  | [] => None
  | x :: l => Some (foldl (fun m y => if Qltb m y then y else m) x l)
  end.

Definition node_x (n : Node) : Q := (coordinates n).1.1.
Definition node_y (n : Node) : Q := (coordinates n).1.2.
Definition node_z (n : Node) : Q := (coordinates n).2.

(** [None] when the instance has no nodes ([min] raises [ValueError]). *)
Definition getRVEDimensions3D (nodes : list Node) : option Dimensions :=
  x0 ← py_min (map node_x nodes);
  x1 ← py_max (map node_x nodes);
  y0 ← py_min (map node_y nodes);
  y1 ← py_max (map node_y nodes);
  z0 ← py_min (map node_z nodes);
  z1 ← py_max (map node_z nodes);
  Some (mkDimensions x0 x1 y0 y1 z0 z1).

Definition face_tolerance : Q := 1e-6.

(** [abs(c - bound) < tol] *)
Definition on_face (c bound : Q) : bool :=
  Qltb (Qabs (c - bound)) face_tolerance.

(** Order of the sort keys [(k1, k2)]. *)
Definition key_ltb (k1 k2 : Node -> Q) (a b : Node) : bool :=
  Qltb (k1 a) (k1 b) || (Qeqb (k1 a) (k1 b) && Qltb (k2 a) (k2 b)).

(** [l.sort(key=lambda n: (k1(n), k2(n)))]: stable, ascending. *)
Fixpoint insert_node (k1 k2 : Node -> Q) (n : Node) (sorted : list Node)
  : list Node :=
  match sorted with
  | [] => [n]
  | m :: sorted' =>
      if key_ltb k1 k2 m n then m :: insert_node k1 k2 n sorted'
      else n :: sorted
  end.

Definition sort_nodes (k1 k2 : Node -> Q) (l : list Node) : list Node :=
  foldr (insert_node k1 k2) [] l.

(** The nodes of one face, in the order of the sort. *)
Definition face_nodes (coord : Node -> Q) (bound : Q) (k1 k2 : Node -> Q)
    (nodes : list Node) : list Node :=
  sort_nodes k1 k2 (List.filter (fun n => on_face (coord n) bound) nodes).

(** [(nodes_left, nodes_right, nodes_front, nodes_back, nodes_bottom,
    nodes_top)] *)
Record BoundaryNodes : Type := mkBoundaryNodes {
  nodes_left : list Node;
  nodes_right : list Node;
  nodes_front : list Node;
  nodes_back : list Node;
  nodes_bottom : list Node;
  nodes_top : list Node
}.

Definition getBoundaryNodes3D (nodes : list Node) (dimensions : Dimensions)
  : BoundaryNodes :=
  mkBoundaryNodes
    (face_nodes node_x (xMin dimensions) node_y node_z nodes)
    (face_nodes node_x (xMax dimensions) node_y node_z nodes)
    (face_nodes node_y (yMin dimensions) node_x node_z nodes)
    (face_nodes node_y (yMax dimensions) node_x node_z nodes)
    (face_nodes node_z (zMin dimensions) node_x node_y nodes)
    (face_nodes node_z (zMax dimensions) node_x node_y nodes).

(** ** Step 10 of [create3DRVEModel]: pairing of opposite faces *)

Section FacePairing.

Variable math_sqrt : Q -> Q.

(** The [if len(a) <= len(b)] block for one pair of faces: the shorter
    list is the slave list, and the pairs are turned back when the lists
    were exchanged. *)
Definition pair_faces (nodes_a nodes_b : list Node) (pairing_tolerance : Q)
    (coord_indices : nat * nat) : result (list (Node * Node)) :=
  if (length nodes_a <=? length nodes_b)%nat then
    pairBoundaryNodes3D math_sqrt nodes_a nodes_b pairing_tolerance
      coord_indices
  else
    ps ← pairBoundaryNodes3D math_sqrt nodes_b nodes_a pairing_tolerance
           coord_indices;
    mret (map (fun p => (p.2, p.1)) ps).

(** [unpaired_a + unpaired_b] for one pair of faces. *)
Definition total_unpaired (nodes_a nodes_b : list Node)
    (pairs : list (Node * Node)) : Z :=
  (Z.of_nat (length nodes_a) - Z.of_nat (length pairs)
   + (Z.of_nat (length nodes_b) - Z.of_nat (length pairs)))%Z.

End FacePairing.

(** ** Periodic constraints *)

(** The calls that [applyPeriodicConstraints3D] makes on the assembly and
    the model, in order: [r_assy.Set(nodes=<the node with this label>,
    name=...)] and [model.Equation(name=..., terms=...)], a term being
    [(coefficient, set name, degree of freedom)]. *)
Inductive api_call : Type :=
| SetCall (name : string) (node_label : Z)
| EquationCall (name : string) (terms : list (Q * string * Z)).

(** ['%d' % n] for a non-negative [n]. *)
Definition fmt_d (n : nat) : string := pretty n.

(** [ref_point_name, tag1, tag2] of a pair type, [None] for the [else:
    return]. *)
Definition pair_type_tags (pair_type : string)
  : option (string * string * string) :=
  if decide (pair_type = "Left-Right") then Some ("set_RefPoint_X", "L", "R")
  else if decide (pair_type = "Front-Back")
       then Some ("set_RefPoint_Y", "F", "B")
  else if decide (pair_type = "Bottom-Top")
       then Some ("set_RefPoint_Z", "Bo", "T")
  else None.

(** ['set_Node-%s-%d' % (tag, i + 1)] *)
Definition set_name (tag : string) (i : nat) : string :=
  "set_Node-" +:+ tag +:+ "-" +:+ fmt_d (i + 1).

(** ['Eq-%s%s-X-%d' % (tag1, tag2, i + 1)], and the same with [Y] and [Z]. *)
Definition equation_name (tag1 tag2 axis : string) (i : nat) : string :=
  "Eq-" +:+ tag1 +:+ tag2 +:+ "-" +:+ axis +:+ "-" +:+ fmt_d (i + 1).

(** The body of [for i, (node1, node2) in enumerate(node_pairs)]. *)
Definition constrain_pair (ref_point_name tag1 tag2 : string) (i : nat)
    (pair : Node * Node) : list api_call :=
  let set1_name := set_name tag1 i in
  let set2_name := set_name tag2 i in
  let equation axis dof :=
    EquationCall
      (equation_name tag1 tag2 axis i)
      [(1, set1_name, dof); (-1, set2_name, dof); (1, ref_point_name, dof)] in
  [SetCall set1_name (label pair.1);
   SetCall set2_name (label pair.2);
   equation "X" 1%Z;
   equation "Y" 2%Z;
   equation "Z" 3%Z].

Definition applyPeriodicConstraints3D (node_pairs : list (Node * Node))
    (pair_type : string) : list api_call :=
  match pair_type_tags pair_type with
  | None => []
  | Some (ref_point_name, tag1, tag2) =>
      flat_map (fun ip => constrain_pair ref_point_name tag1 tag2 ip.1 ip.2)
               (zip (seq 0 (length node_pairs)) node_pairs)
  end.

(** The name under which a call stores its object; sets and equations
    live in separate repositories. *)
Definition set_names (calls : list api_call) : list string :=
  flat_map (fun c => match c with SetCall n _ => [n] | _ => [] end) calls.

Definition equation_names (calls : list api_call) : list string :=
  flat_map (fun c => match c with EquationCall n _ => [n] | _ => [] end) calls.

(** The names of the sets that [createReferencePoints3D] creates. *)
Definition reference_point_sets : list string :=
  ["set_RefPoint_X"; "set_RefPoint_Y"; "set_RefPoint_Z"].

(** The three calls of [applyPeriodicConstraints3D] that end Step 10. *)
Definition step10_constraints (lr_pairs fb_pairs bt_pairs : list (Node * Node))
  : list api_call :=
  applyPeriodicConstraints3D lr_pairs "Left-Right"
  ++ applyPeriodicConstraints3D fb_pairs "Front-Back"
  ++ applyPeriodicConstraints3D bt_pairs "Bottom-Top".

(** The set names that the terms of a call refer to. *)
Definition referenced_sets (c : api_call) : list string :=
  match c with
  | SetCall _ _ => []
  | EquationCall _ terms => map (fun t => t.1.2) terms
  end.

(** ** Predicates of the further statements *)


(** [d] is the distance the Verifier computes for the pair [ij]. *)
Definition pair_distance (math_sqrt : Q -> Q) (rveSize : RveSize)
    (coords : list Point) (ij : nat * nat) (d : Q) : Prop :=
  exists dl, pair_delta rveSize coords ij.1 ij.2 = Ok dl
             /\ d = math_sqrt (dist_sq_of dl).

(** [v] is the entry the Verifier records for the violating pair [ij]. *)
Definition violation_recorded (math_sqrt : Q -> Q) (rveSize : RveSize)
    (minDistance : Q) (coords : list Point) (ij : nat * nat) (v : Violation)
  : Prop :=
  fiber_i v = S ij.1 /\ fiber_j v = S ij.2
  /\ coords !! ij.1 = Some (center_i v) /\ coords !! ij.2 = Some (center_j v)
  /\ pair_distance math_sqrt rveSize coords ij (distance v)
  /\ distance v < minDistance
  /\ violation v = minDistance - distance v.

(** The state of the pair loop of the Verifier after the pairs [pre]. *)
Definition verifier_scan_inv (math_sqrt : Q -> Q) (rveSize : RveSize)
    (minDistance : Q) (coords : list Point) (pre : list (nat * nat))
    (st : VerifierScan) : Prop :=
  scan_total_pairs st = length pre
  /\ Forall2 (pair_distance math_sqrt rveSize coords) pre (all_distances st)
  /\ (exists vp, sublist vp pre
        /\ Forall2 (violation_recorded math_sqrt rveSize minDistance coords)
             vp (violating_pairs st)
        /\ forall ij d, ij ∈ pre ->
             pair_distance math_sqrt rveSize coords ij d ->
             d < minDistance -> ij ∈ vp)
  /\ match min_distance_found st with
     | None => pre = []
     | Some m => m ∈ all_distances st /\ Forall (Qle m) (all_distances st)
     end
  /\ 0 <= max_distance_found st
  /\ Forall (fun d => d <= max_distance_found st) (all_distances st)
  /\ (max_distance_found st = 0 \/ max_distance_found st ∈ all_distances st).

(** No master of [pool] is within the tolerance of the slave [s]. *)
Definition out_of_reach (math_sqrt : Q -> Q) (tolerance : Q)
    (coord_indices : nat * nat) (s : Node) (pool : list Node) : Prop :=
  forall m d, m ∈ pool ->
    planar_dist math_sqrt coord_indices s m = Ok d -> tolerance <= d.

(** The master of the pair [p] is at least as near to its slave as any
    master of [pool]. *)
Definition nearest_in (math_sqrt : Q -> Q) (coord_indices : nat * nat)
    (p : Node * Node) (pool : list Node) : Prop :=
  forall m d d', m ∈ pool ->
    planar_dist math_sqrt coord_indices p.1 p.2 = Ok d ->
    planar_dist math_sqrt coord_indices p.1 m = Ok d' -> d <= d'.

(** The state of the master scan for [s_node] after the candidates [pre]:
    the best match is the nearest candidate, and without a best match no
    candidate is within the tolerance. *)
Definition nearest_inv (math_sqrt : Q -> Q) (tolerance : Q)
    (coord_indices : nat * nat) (s_node : Node) (pre : list Node)
    (st : option Node * option Q) : Prop :=
  match st with
  | (None, None) => out_of_reach math_sqrt tolerance coord_indices s_node pre
  | (Some m, Some d) =>
      planar_dist math_sqrt coord_indices s_node m = Ok d
      /\ d < tolerance
      /\ nearest_in math_sqrt coord_indices (s_node, m) pre
  | _ => False
  end.

(** The state of the slave loop after the slaves [pre]: the slaves without
    a pair have no master left in reach, and no master left is nearer to a
    paired slave than its master. *)
Definition greedy_inv (math_sqrt : Q -> Q) (tolerance : Q)
    (coord_indices : nat * nat) (pre : list Node)
    (st : list (Node * Node) * list Node) : Prop :=
  exists unmatched,
    pre ≡ₚ st.1.*1 ++ unmatched
    /\ Forall (fun s => out_of_reach math_sqrt tolerance coord_indices s st.2)
         unmatched
    /\ Forall (fun p => nearest_in math_sqrt coord_indices p st.2) st.1.

(** Every equation of [calls] has three terms, with the coefficients 1, -1
    and 1 on one degree of freedom from 1 to 3: two different node sets
    that earlier calls created, and the set of a reference point. *)
Definition equations_well_formed (calls : list api_call) : Prop :=
  forall pre name terms post,
    calls = pre ++ EquationCall name terms :: post ->
    exists s1 s2 ref dof,
      terms = [(1, s1, dof); (-1, s2, dof); (1, ref, dof)]
      /\ s1 ∈ set_names pre /\ s2 ∈ set_names pre /\ s1 <> s2
      /\ ref ∈ reference_point_sets /\ (1 <= dof <= 3)%Z.

(** [n] lies in the box of [d]. *)
Definition in_box (d : Dimensions) (n : Node) : Prop :=
  (xMin d <= node_x n /\ node_x n <= xMax d)
  /\ (yMin d <= node_y n /\ node_y n <= yMax d)
  /\ (zMin d <= node_z n /\ node_z n <= zMax d).

(** The six faces as a list, each with the coordinate that selects it, the
    bound it lies on and its two sort keys. *)
Definition faces_of (d : Dimensions) (b : BoundaryNodes)
  : list (list Node * (Node -> Q) * Q * (Node -> Q) * (Node -> Q)) :=
  [(nodes_left b, node_x, xMin d, node_y, node_z);
   (nodes_right b, node_x, xMax d, node_y, node_z);
   (nodes_front b, node_y, yMin d, node_x, node_z);
   (nodes_back b, node_y, yMax d, node_x, node_z);
   (nodes_bottom b, node_z, zMin d, node_x, node_y);
   (nodes_top b, node_z, zMax d, node_x, node_y)].

(** The center the Classifier uses for a cell: the centroid, and the mean
    of the vertices when the cell has no centroid. *)
Definition cell_center_of (cell : Cell) : option (Q * Q * Q) :=
  match getCentroid cell with
  | Some c => Some c
  | None => getCellCenterFromVertices cell
  end.

(** The center of [cell] is less than [fiberRadius] from one of [centers]
    in the XY plane. *)
Definition near_a_fiber (math_sqrt : Q -> Q) (centers : list Point)
    (fiberRadius : Q) (cell : Cell) : Prop :=
  exists cx cy cz fc,
    cell_center_of cell = Some (cx, cy, cz) /\ fc ∈ centers
    /\ math_sqrt (sq (cx - fc.1) + sq (cy - fc.2)) < fiberRadius.

(** The state of the loop over [potential_cells] after the cells [pre]. *)
Definition classify_inv (math_sqrt : Q -> Q) (centers : list Point)
    (fiberRadius : Q) (largest : Cell) (pre : list (nat * Cell))
    (st : list Cell * list Cell * nat) : Prop :=
  exists fragments,
    st.1.2 = largest :: fragments
    /\ st.2 = length pre
    /\ st.1.1 ++ fragments ≡ₚ pre.*2
    /\ sublist st.1.1 pre.*2 /\ sublist fragments pre.*2
    /\ Forall (near_a_fiber math_sqrt centers fiberRadius) st.1.1
    /\ Forall (fun c => is_Some (cell_center_of c)
                        /\ ~ near_a_fiber math_sqrt centers fiberRadius c)
         fragments.

(** An exception of the interpreter rather than a fatal error of the
    script. *)
Definition low_level (e : exn) : Prop :=
  e = IndexError \/ e = ZeroDivisionError.




(** Step 10 up to the pairing: the dimensions, the six faces and the three
    lists of pairs [(lr_pairs, fb_pairs, bt_pairs)].  [None] is the
    [ValueError] of [min] for an instance without nodes. *)
Definition step10_pairing (math_sqrt : Q -> Q) (nodes : list Node)
    (pairing_tolerance : Q)
  : option (result (list (Node * Node) * list (Node * Node)
                    * list (Node * Node))) :=
  match getRVEDimensions3D nodes with
  | None => None
  | Some dimensions =>
      let b := getBoundaryNodes3D nodes dimensions in
      Some (lr_pairs ← pair_faces math_sqrt (nodes_left b) (nodes_right b)
                         pairing_tolerance (1%nat, 2%nat);
            fb_pairs ← pair_faces math_sqrt (nodes_front b) (nodes_back b)
                         pairing_tolerance (0%nat, 2%nat);
            bt_pairs ← pair_faces math_sqrt (nodes_bottom b) (nodes_top b)
                         pairing_tolerance (0%nat, 1%nat);
            mret (lr_pairs, fb_pairs, bt_pairs))
  end.

(** The pairs join the face where [coord] is [lo] with the face where it
    is [hi], and use no node twice on either side. *)
Definition joins_faces (nodes : list Node) (coord : Node -> Q) (lo hi : Q)
    (pairs : list (Node * Node)) : Prop :=
  Forall (fun p => (p.1 ∈ nodes /\ Qabs (coord p.1 - lo) < face_tolerance)
                   /\ (p.2 ∈ nodes /\ Qabs (coord p.2 - hi) < face_tolerance))
    pairs
  /\ (NoDup nodes -> NoDup pairs.*1 /\ NoDup pairs.*2).

(** * Part II: properties *)

(** ** Comparisons *)

Lemma Qltb_lt a b : Qltb a b = true <-> a < b.
Proof.
  unfold Qltb. rewrite negb_true_iff, <- not_true_iff_false, Qle_bool_iff.
  split; [apply Qnot_le_lt | apply Qlt_not_le].
Qed.

Lemma Qltb_ge a b : Qltb a b = false <-> b <= a.
Proof. unfold Qltb. rewrite negb_false_iff. apply Qle_bool_iff. Qed.

Lemma Qleb_le a b : Qleb a b = true <-> a <= b.
Proof. apply Qle_bool_iff. Qed.

Lemma Qleb_gt a b : Qleb a b = false <-> b < a.
Proof.
  unfold Qleb. rewrite <- not_true_iff_false, Qle_bool_iff.
  split; [apply Qnot_le_lt | apply Qlt_not_le].
Qed.

Lemma Qeqb_eq a b : Qeqb a b = true <-> a == b.
Proof. apply Qeq_bool_iff. Qed.

Lemma Qeqb_neq a b : Qeqb a b = false <-> ~ a == b.
Proof. unfold Qeqb. rewrite <- not_true_iff_false, Qeq_bool_iff. tauto. Qed.

(** Boolean tests in hypotheses and goal become order facts. *)
Ltac Qbool :=
  repeat match goal with
  | H : Qltb _ _ = true |- _ => apply Qltb_lt in H
  | H : Qltb _ _ = false |- _ => apply Qltb_ge in H
  | H : Qleb _ _ = true |- _ => apply Qleb_le in H
  | H : Qleb _ _ = false |- _ => apply Qleb_gt in H
  | H : Qeqb _ _ = true |- _ => apply Qeqb_eq in H
  | H : Qeqb _ _ = false |- _ => apply Qeqb_neq in H
  | |- Qltb _ _ = true => apply Qltb_lt
  | |- Qltb _ _ = false => apply Qltb_ge
  | |- Qleb _ _ = true => apply Qleb_le
  | |- Qleb _ _ = false => apply Qleb_gt
  | |- Qeqb _ _ = true => apply Qeqb_eq
  | |- Qeqb _ _ = false => apply Qeqb_neq
  end.


(** ** The error monad *)

Lemma bind_Ok_inv {A B} (m : result A) (f : A -> result B) b :
  m ≫= f = Ok b -> exists a, m = Ok a /\ f a = Ok b.
Proof. destruct m as [a|e]; cbn; [eauto | discriminate]. Qed.

(** [H : m ≫= f = Ok b] is split into the result of [m] and the rest. *)
Ltac bind_inv H :=
  let a := fresh "a" in
  let E := fresh "E" in
  apply bind_Ok_inv in H as (a & E & H).

Ltac ok_inv H := cbn [mret result_ret] in H; injection H as H.

(** Induction over a loop that ran to its end: [P] relates the elements
    processed so far to the state. *)
Lemma foldlM_ind {A S} (P : list A -> S -> Prop) (f : S -> A -> result S)
    s0 l s :
  P [] s0 ->
  (forall pre a s1 s2, P pre s1 -> f s1 a = Ok s2 -> P (pre ++ [a]) s2) ->
  foldlM f s0 l = Ok s -> P l s.
Proof.
  intros H0 Hstep. 
  assert (G : forall pre s1, P pre s1 -> foldlM f s1 l = Ok s -> P (pre ++ l) s).
  { induction l as [|a l IH]; intros pre s1 Hp Hf; cbn in Hf.
    - injection Hf as <-. by rewrite app_nil_r.
    - bind_inv Hf. rewrite (cons_middle a pre l), app_assoc. 
      eapply IH; [|exact Hf]. eapply Hstep; eauto. }
  intros Hf. apply (G [] s0 H0 Hf).
Qed.

(** A loop whose body cannot raise while [P] holds runs to its end. *)
Lemma foldlM_total {A S} (P : S -> Prop) (Q : A -> Prop)
    (f : S -> A -> result S) s0 l :
  P s0 -> Forall Q l ->
  (forall a s1, Q a -> P s1 -> exists s2, f s1 a = Ok s2 /\ P s2) ->
  exists s, foldlM f s0 l = Ok s /\ P s.
Proof.
  intros H0 Hl Hstep. revert s0 H0.
  induction Hl as [|a l Ha Hl IH]; intros s0 H0; cbn; [eauto|].
  destruct (Hstep a s0 Ha H0) as (s2 & -> & H2). cbn. by apply IH.
Qed.

(** ** Lists as arrays *)

Lemma get_item_Ok {A} (l : list A) i a : get_item l i = Ok a <-> l !! i = Some a.
Proof.
  unfold get_item. destruct (l !! i); split; intros H; congruence.
Qed.

Lemma get_item_lt {A} (l : list A) i :
  (i < length l)%nat -> exists a, get_item l i = Ok a.
Proof.
  intros H. destruct (lookup_lt_is_Some_2 l i H) as [a Ha].
  exists a. by apply get_item_Ok.
Qed.

Lemma modify_item_Ok {A} (l : list A) i f l' :
  modify_item l i f = Ok l' ->
  exists a a', l !! i = Some a /\ f a = Ok a' /\ l' = <[i := a']> l.
Proof.
  unfold modify_item. intros H. bind_inv H. bind_inv H. ok_inv H.
  apply get_item_Ok in E. eauto.
Qed.

Lemma modify_item_total {A} (l : list A) i f :
  (i < length l)%nat -> (forall a, l !! i = Some a -> is_Ok (f a)) ->
  exists a a', l !! i = Some a /\ f a = Ok a'
               /\ modify_item l i f = Ok (<[i := a']> l).
Proof.
  intros Hi Hf. destruct (lookup_lt_is_Some_2 l i Hi) as [a Ha].
  destruct (Hf a Ha) as [a' Ha']. exists a, a'. repeat split; try done.
  unfold modify_item, get_item. rewrite Ha. cbn. rewrite Ha'. reflexivity.
Qed.

Lemma elem_of_index_pairs n i j :
  (i, j) ∈ index_pairs n <-> (i < j < n)%nat.
Proof.
  unfold index_pairs. rewrite list_elem_of_In, in_flat_map. split.
  - intros (i' & Hi' & Hin). apply in_map_iff in Hin as (j' & [= <- <-] & Hj').
    apply in_seq in Hi', Hj'. lia.
  - intros H. exists i. split; [apply in_seq; lia|].
    apply in_map_iff. exists j. split; [done|]. apply in_seq. lia.
Qed.

(** ** Parameters of the packing (C3) *)

Lemma fiber_parameters_eq rveSize fiberRadius target_Vf minDistanceFactor :
  fiber_parameters rveSize fiberRadius target_Vf minDistanceFactor =
  if Qeqb (math_pi * sq fiberRadius) 0 then Raise ZeroDivisionError
  else Ok (rve_w rveSize * rve_h rveSize, math_pi * sq fiberRadius,
           py_round (target_Vf * (rve_w rveSize * rve_h rveSize)
                     / (math_pi * sq fiberRadius)),
           minDistanceFactor * fiberRadius).
Proof.
  unfold fiber_parameters, py_div.
  destruct (Qeqb (math_pi * sq fiberRadius) 0); reflexivity.
Qed.


(** ** The configuration check of Step 1 (C2) *)

Section ConfigurationCheck.

Variable math_sqrt : Q -> Q.
Variable rand : nat -> Q.

Lemma step1_invalid_inv rveSize fiberRadius target_Vf minDistanceFactor
    rsa_seeding_ratio calls calls' :
  create3DRVEModel_step1 math_sqrt rand rveSize fiberRadius target_Vf
    minDistanceFactor rsa_seeding_ratio calls
  = Ok (InvalidConfiguration, calls') ->
  exists rveArea fiberArea fiberCount minDistance,
    fiber_parameters rveSize fiberRadius target_Vf minDistanceFactor
    = Ok (rveArea, fiberArea, fiberCount, minDistance)
    /\ fiberCount <> 0%Z /\ rveArea <= fiberArea /\ calls' = calls.
Proof.
  unfold create3DRVEModel_step1. intros H. bind_inv H.
  destruct a as [[[rveArea fiberArea] fiberCount] minDistance].
  exists rveArea, fiberArea, fiberCount, minDistance. split; [done|].
  destruct (fiberCount =? 0)%Z eqn:E0; [ok_inv H; discriminate|].
  destruct (Qleb rveArea fiberArea) eqn:Ea.
  - ok_inv H. subst calls'. apply Z.eqb_neq in E0. Qbool. done.
  - exfalso.
    destruct (rsa_seeding _ _ _ _ _ _) as [seeded c1].
    destruct (random_placement _ _ _ _ _) as [initial c2].
    bind_inv H.
    destruct (_final_check_and_enforce _ _ _ _ _); ok_inv H; discriminate.
Qed.

(** C2, amended.  When the computed fiber count is not zero and the area
    of a single fiber is at least the area of the domain, Step 1 leaves
    with the invalid-configuration error before any placement: the random
    generator has not been called. *)
Theorem invalid_configuration_before_placement
    rveSize fiberRadius target_Vf minDistanceFactor rsa_seeding_ratio calls
    rveArea fiberArea fiberCount minDistance :
  fiber_parameters rveSize fiberRadius target_Vf minDistanceFactor
  = Ok (rveArea, fiberArea, fiberCount, minDistance) ->
  fiberCount <> 0%Z ->
  rveArea <= fiberArea ->
  create3DRVEModel_step1 math_sqrt rand rveSize fiberRadius target_Vf
    minDistanceFactor rsa_seeding_ratio calls
  = Ok (InvalidConfiguration, calls).
Proof.
  intros Hp Hc Ha. unfold create3DRVEModel_step1. rewrite Hp. cbn.
  apply Z.eqb_neq in Hc. rewrite Hc.
  apply Qleb_le in Ha. rewrite Ha. reflexivity.
Qed.

End ConfigurationCheck.

Lemma invalid_configuration_before_placement_witness :
  create3DRVEModel_step1 sqrt_upper rand_sample (mkRve 1.6 1.6 1) 1 0.9 2.1
    0.9 0
  = Ok (InvalidConfiguration, 0%nat).
Proof.
  eapply (invalid_configuration_before_placement sqrt_upper rand_sample
            (mkRve 1.6 1.6 1) 1 0.9 2.1 0.9 0%nat).
  - vm_compute. reflexivity.
  - discriminate.
  - vm_compute. discriminate.
Defined.

(** C2 as stated fails: with [W = H = 10], radius 1 and [target_Vf = 1]
    the 32 fibers cover more than the domain area, yet Step 1 does not
    leave with the invalid-configuration error. *)
Lemma invalid_configuration_counterexample :
  exists rveArea fiberArea fiberCount minDistance,
    fiber_parameters (mkRve 10 10 1) 1 1 2.1
    = Ok (rveArea, fiberArea, fiberCount, minDistance)
    /\ rveArea <= fiberArea * inject_Z fiberCount
    /\ forall calls',
         create3DRVEModel_step1 sqrt_upper rand_sample (mkRve 10 10 1) 1 1
           2.1 0.9 0
         <> Ok (InvalidConfiguration, calls').
Proof.
  exists 100, (math_pi * sq 1), 32%Z, 2.1.
  split; [vm_compute; reflexivity|]. split; [vm_compute; discriminate|].
  intros calls' H. apply step1_invalid_inv in H
    as (rveArea & fiberArea & fiberCount & minDistance & Hp & _ & Ha & _).
  vm_compute in Hp. injection Hp as <- <- _ _. vm_compute in Ha. by apply Ha.
Qed.

(** ** The Corrector (C1, C7) *)


(** Two assignments to the same item, one after the other. *)
Lemma modify_item_twice {A} (l l1 l2 : list A) i f g :
  modify_item l i f = Ok l1 -> modify_item l1 i g = Ok l2 ->
  exists a a1 a2, l !! i = Some a /\ f a = Ok a1 /\ g a1 = Ok a2
                  /\ l2 = <[i := a2]> l.
Proof.
  intros H1 H2.
  apply modify_item_Ok in H1 as (a & a1 & Ha & Hf & ->).
  apply modify_item_Ok in H2 as (b & a2 & Hb & Hg & ->).
  rewrite list_lookup_insert_eq in Hb by (by eapply lookup_lt_Some).
  injection Hb as <-. exists a, a1, a2.
  by rewrite list_insert_insert_eq.
Qed.

Lemma pair_delta_Ok rveSize coords i j d :
  pair_delta rveSize coords i j = Ok d <->
  exists pi pj, coords !! i = Some pi /\ coords !! j = Some pj
    /\ d = (min_image (rve_w rveSize) (pj.1 - pi.1),
            min_image (rve_h rveSize) (pj.2 - pi.2)).
Proof.
  unfold pair_delta. split.
  - intros H. bind_inv H. bind_inv H. ok_inv H.
    apply get_item_Ok in E, E0. exists a0, a. by subst.
  - intros (pi & pj & Hi & Hj & ->).
    apply get_item_Ok in Hi, Hj. rewrite Hj. cbn. rewrite Hi. reflexivity.
Qed.

Lemma pair_delta_total rveSize coords i j :
  (i < length coords)%nat -> (j < length coords)%nat ->
  exists d, pair_delta rveSize coords i j = Ok d.
Proof.
  intros Hi Hj.
  destruct (lookup_lt_is_Some_2 coords i Hi) as [pi Hpi].
  destruct (lookup_lt_is_Some_2 coords j Hj) as [pj Hpj].
  eexists. apply pair_delta_Ok. eauto.
Qed.

Lemma find_worst_inv rveSize n coords st :
  find_worst rveSize n coords = Ok st ->
  worst_inv rveSize coords (index_pairs n) st.
Proof.
  unfold find_worst. apply foldlM_ind.
  - split; [intros ij Hij; by apply elem_of_nil in Hij | done].
  - intros pre [i j] [m w] st2 [Hall Hw] Hstep.
    unfold scan_pair in Hstep. bind_inv Hstep. destruct a as [dx dy].
    cbn [fst snd] in Hstep.
    destruct (lt_inf (dist_sq_of (dx, dy)) m) eqn:Hlt; ok_inv Hstep; subst st2.
    + split.
      * intros ij Hij. apply elem_of_app in Hij as [Hij|Hij].
        -- destruct (Hall ij Hij) as (d & Hd & Hle). exists d. split; [done|].
           destruct m as [m|]; [|done]. cbn in *. Qbool. lra.
        -- apply list_elem_of_singleton in Hij as ->. exists (dx, dy).
           split; [done|]. cbn. lra.
      * split; [|done]. apply elem_of_app. right. by apply list_elem_of_singleton.
    + destruct m as [m|]; [|done]. cbn in Hlt. Qbool. split.
      * intros ij Hij. apply elem_of_app in Hij as [Hij|Hij]; [by apply Hall|].
        apply list_elem_of_singleton in Hij as ->. exists (dx, dy). by split.
      * destruct w as [[[[i' j'] dx'] dy']|]; [|done].
        destruct Hw as (Hin & Hw). split; [|done]. apply elem_of_app. by left.
Qed.

Section Corrector.

Variable math_sqrt : Q -> Q.

Lemma push_apart_Ok rveSize minDistance coords m i j dx dy coords' :
  i <> j ->
  push_apart math_sqrt rveSize minDistance coords m (i, j, dx, dy)
  = Ok coords' ->
  let dist := safe_dist math_sqrt m in
  let move_dist := (minDistance - dist) / 2 + 1e-8 in
  exists pi pj ux uy xi yi xj yj,
    coords !! i = Some pi /\ coords !! j = Some pj
    /\ py_div dx dist = Ok ux /\ py_div dy dist = Ok uy
    /\ py_mod (pi.1 - move_dist * ux) (rve_w rveSize) = Ok xi
    /\ py_mod (pi.2 - move_dist * uy) (rve_h rveSize) = Ok yi
    /\ py_mod (pj.1 + move_dist * ux) (rve_w rveSize) = Ok xj
    /\ py_mod (pj.2 + move_dist * uy) (rve_h rveSize) = Ok yj
    /\ coords' = <[j := (xj, yj)]> (<[i := (xi, yi)]> coords).
Proof.
  intros Hij H dist move_dist. unfold push_apart in H.
  fold dist in H. fold move_dist in H.
  apply bind_Ok_inv in H as (ux & Hux & H).
  apply bind_Ok_inv in H as (uy & Huy & H).
  apply bind_Ok_inv in H as (c1 & H1 & H).
  apply bind_Ok_inv in H as (c2 & H2 & H).
  apply bind_Ok_inv in H as (c3 & H3 & H).
  apply bind_Ok_inv in H as (c4 & H4 & H).
  apply bind_Ok_inv in H as (c5 & H5 & H).
  apply bind_Ok_inv in H as (c6 & H6 & H).
  apply bind_Ok_inv in H as (c7 & H7 & H8).
  destruct (modify_item_twice _ _ _ _ _ _ H1 H2)
    as (pi & a1 & a2 & Hpi & Ha1 & Ha2 & ->).
  ok_inv Ha1. subst a1. ok_inv Ha2. subst a2. cbn [fst snd] in *.
  destruct (modify_item_twice _ _ _ _ _ _ H3 H4)
    as (pj & b1 & b2 & Hpj & Hb1 & Hb2 & ->).
  ok_inv Hb1. subst b1. ok_inv Hb2. subst b2. cbn [fst snd] in *.
  rewrite list_lookup_insert_ne in Hpj by done.
  destruct (modify_item_twice _ _ _ _ _ _ H5 H6)
    as (qi & a3 & a4 & Hqi & Ha3 & Ha4 & ->).
  rewrite list_lookup_insert_ne in Hqi by done.
  rewrite list_lookup_insert_eq in Hqi by (by eapply lookup_lt_Some).
  injection Hqi as <-. cbn [fst snd] in *.
  apply bind_Ok_inv in Ha3 as (xi & Hxi & Ha3). ok_inv Ha3. subst a3.
  apply bind_Ok_inv in Ha4 as (yi & Hyi & Ha4). ok_inv Ha4. subst a4.
  cbn [fst snd] in *.
  destruct (modify_item_twice _ _ _ _ _ _ H7 H8)
    as (qj & b3 & b4 & Hqj & Hb3 & Hb4 & ->).
  rewrite list_lookup_insert_ne in Hqj by done.
  rewrite list_lookup_insert_eq in Hqj
    by (rewrite length_insert; by eapply lookup_lt_Some).
  injection Hqj as <-. cbn [fst snd] in *.
  apply bind_Ok_inv in Hb3 as (xj & Hxj & Hb3). ok_inv Hb3. subst b3.
  apply bind_Ok_inv in Hb4 as (yj & Hyj & Hb4). ok_inv Hb4. subst b4.
  cbn [fst snd] in *.
  exists pi, pj, ux, uy, xi, yi, xj, yj. repeat (split; [done|]).
  rewrite (list_insert_insert_ne _ i j) by done.
  by rewrite !list_insert_insert_eq.
Qed.

Lemma enforce_iteration_inl rveSize minDistance n coords c :
  enforce_iteration math_sqrt rveSize minDistance n coords = Ok (inl c) ->
  c = coords /\ min_distance_satisfied rveSize minDistance n coords.
Proof.
  unfold enforce_iteration. intros H. bind_inv H. destruct a as [m w].
  apply find_worst_inv in E as [Hall _].
  destruct (inf_ge m (sq minDistance)) eqn:Hge.
  - ok_inv H. split; [done|]. intros i j Hij.
    apply elem_of_index_pairs in Hij. destruct (Hall _ Hij) as (d & Hd & Hle).
    exists d. split; [done|]. destruct m as [m|]; [|done]. cbn in *. Qbool. lra.
  - destruct w as [[[[i j] dx] dy]|], m as [m|]; try (ok_inv H; discriminate).
    bind_inv H. ok_inv H. discriminate.
Qed.

Lemma enforce_iteration_inr rveSize minDistance n coords coords' :
  enforce_iteration math_sqrt rveSize minDistance n coords = Ok (inr coords') ->
  exists i j dx dy,
    find_worst rveSize n coords
    = Ok (Some (dist_sq_of (dx, dy)), Some (i, j, dx, dy))
    /\ (i < j < n)%nat
    /\ pair_delta rveSize coords i j = Ok (dx, dy)
    /\ dist_sq_of (dx, dy) < sq minDistance
    /\ (forall i' j', (i' < j' < n)%nat ->
          exists d, pair_delta rveSize coords i' j' = Ok d
                    /\ dist_sq_of (dx, dy) <= dist_sq_of d)
    /\ push_apart math_sqrt rveSize minDistance coords (dist_sq_of (dx, dy))
         (i, j, dx, dy) = Ok coords'.
Proof.
  unfold enforce_iteration. intros H. bind_inv H. destruct a as [m w].
  pose proof (find_worst_inv _ _ _ _ E) as [Hall Hw].
  destruct (inf_ge m (sq minDistance)) eqn:Hge; [ok_inv H; discriminate|].
  destruct m as [m|]; [|discriminate]. cbn in Hge. Qbool.
  destruct w as [[[[i j] dx] dy]|]; [|done].
  destruct Hw as (Hin & Hd & ->). bind_inv H. ok_inv H. subst a.
  exists i, j, dx, dy. split; [done|].
  split; [by apply elem_of_index_pairs|]. repeat (split; [done|]).
  split; [|done]. intros i' j' Hij'. apply elem_of_index_pairs in Hij'.
  destruct (Hall _ Hij') as (d & Hd' & Hle). by exists d.
Qed.

Lemma enforce_iteration_length rveSize minDistance n coords r :
  enforce_iteration math_sqrt rveSize minDistance n coords = Ok r ->
  match r with inl c | inr c => length c = length coords end.
Proof.
  destruct r as [c|c]; intros H.
  - by apply enforce_iteration_inl in H as [-> _].
  - apply enforce_iteration_inr in H
      as (i & j & dx & dy & _ & Hij & _ & _ & _ & Hp).
    apply push_apart_Ok in Hp; [|lia]. cbn zeta in Hp.
    destruct Hp as (? & ? & ? & ? & ? & ? & ? & ? & Hp).
    destruct Hp as (_ & _ & _ & _ & _ & _ & _ & _ & ->).
    by rewrite !length_insert.
Qed.

(** When a pass of the correction loop did not raise, every scanned pair
    lies inside the list. *)
Lemma enforce_iteration_in_range rveSize minDistance n coords r :
  enforce_iteration math_sqrt rveSize minDistance n coords = Ok r ->
  forall i j, (i < j < n)%nat -> (j < length coords)%nat.
Proof.
  unfold enforce_iteration. intros H i j Hij. bind_inv H.
  apply find_worst_inv in E as [Hall _].
  apply elem_of_index_pairs in Hij. destruct (Hall _ Hij) as (d & Hd & _).
  apply pair_delta_Ok in Hd as (pi & pj & _ & Hj & _).
  by eapply lookup_lt_Some.
Qed.

Lemma enforce_loop_inl fuel rveSize minDistance n coords c :
  enforce_loop math_sqrt fuel rveSize minDistance n coords = Ok (inl c) ->
  length c = length coords /\ min_distance_satisfied rveSize minDistance n c.
Proof.
  revert coords. induction fuel as [|fuel IH]; intros coords H; cbn in H.
  - discriminate.
  - bind_inv H. pose proof (enforce_iteration_length _ _ _ _ _ E) as Hlen.
    destruct a as [done|coords1].
    + ok_inv H. subst c. by apply enforce_iteration_inl in E as [-> ?].
    + apply IH in H as [Hl ?]. split; [congruence|done].
Qed.

Lemma enforce_loop_inr fuel rveSize minDistance n coords c :
  enforce_loop math_sqrt fuel rveSize minDistance n coords = Ok (inr c) ->
  length c = length coords
  /\ (fuel <> O -> forall i j, (i < j < n)%nat -> (j < length c)%nat).
Proof.
  revert coords. induction fuel as [|fuel IH]; intros coords H; cbn in H.
  - ok_inv H. by subst c.
  - bind_inv H. pose proof (enforce_iteration_length _ _ _ _ _ E) as Hlen.
    pose proof (enforce_iteration_in_range _ _ _ _ _ E) as Hrange.
    destruct a as [done|coords1]; [ok_inv H; discriminate|].
    apply IH in H as [Hl _]. split; [congruence|].
    intros _ i j Hij. rewrite Hl, Hlen. by eapply Hrange.
Qed.

Lemma final_scan_inv rveSize minDistance n coords st :
  foldlM (final_scan_pair rveSize minDistance coords) (None, O, ∅)
         (index_pairs n) = Ok st ->
  final_inv rveSize coords (index_pairs n) st.
Proof.
  apply foldlM_ind.
  - intros ij Hij. by apply elem_of_nil in Hij.
  - intros pre [i j] [[fm vp] vf] st2 Hall Hstep.
    unfold final_scan_pair in Hstep. bind_inv Hstep.
    assert (Hfm : st2.1.1 = if lt_inf (dist_sq_of a) fm
                            then Some (dist_sq_of a) else fm).
    { destruct (Qltb (dist_sq_of a) (sq minDistance));
        ok_inv Hstep; by subst st2. }
    clear Hstep. intros ij Hij. rewrite Hfm.
    apply elem_of_app in Hij as [Hij|Hij].
    + destruct (Hall ij Hij) as (d & Hd & Hle). exists d. split; [done|].
      cbn in Hle. destruct fm as [m|]; [|done].
      cbn in *. destruct (Qltb (dist_sq_of a) m) eqn:Hlt; cbn; Qbool; lra.
    + apply list_elem_of_singleton in Hij as ->. exists a. split; [done|].
      destruct (lt_inf (dist_sq_of a) fm) eqn:Hlt; cbn; [lra|].
      destruct fm as [m|]; [|done]. cbn in *. by Qbool.
Qed.

Lemma final_verification_Ok rveSize minDistance n coords out :
  final_verification math_sqrt rveSize minDistance n coords = Ok out ->
  out = coords /\ min_distance_satisfied rveSize minDistance n coords.
Proof.
  unfold final_verification. intros H. bind_inv H.
  apply final_scan_inv in E. destruct a as [[fm vp] vf].
  destruct (inf_lt fm (sq minDistance)) eqn:Hlt; [discriminate|].
  ok_inv H. split; [done|]. intros i j Hij.
  apply elem_of_index_pairs in Hij. destruct (E _ Hij) as (d & Hd & Hle).
  exists d. split; [done|]. cbn in Hle.
  destruct fm as [m|]; [|done]. cbn in *. Qbool. lra.
Qed.



Lemma final_check_Ok_inv coords_in fiberCount rveSize minDistance out :
  _final_check_and_enforce math_sqrt coords_in fiberCount rveSize minDistance
  = Ok out ->
  length out = length coords_in
  /\ min_distance_satisfied rveSize minDistance (Z.to_nat fiberCount) out.
Proof.
  unfold _final_check_and_enforce. intros H. bind_inv H.
  destruct a as [c|c].
  - ok_inv H. subst c. by apply enforce_loop_inl in E.
  - apply enforce_loop_inr in E as [Hlen _].
    apply final_verification_Ok in H as [-> Hs]. by split.
Qed.


End Corrector.




(** ** The Relaxer (C8) *)

Lemma modify_item_is_Ok {A} (l : list A) i f :
  (i < length l)%nat -> (forall a, is_Ok (f a)) ->
  exists l', modify_item l i f = Ok l' /\ length l' = length l.
Proof.
  intros Hi Hf.
  destruct (modify_item_total l i f Hi) as (a & a' & _ & _ & ->); [done|].
  eexists. split; [done|]. apply length_insert.
Qed.

Lemma py_div_is_Ok a b : ~ b == 0 -> py_div a b = Ok (a / b).
Proof. intros H. unfold py_div. apply Qeqb_neq in H. by rewrite H. Qed.

Lemma py_mod_is_Ok a b : ~ b == 0 -> is_Ok (py_mod a b).
Proof. intros H. unfold py_mod. apply Qeqb_neq in H. rewrite H. by eexists. Qed.

Section Relaxer.

Variable math_sqrt : Q -> Q.

(** [math.sqrt] of a positive number is not zero. *)
Hypothesis math_sqrt_nonzero : forall x, 0 < x -> ~ math_sqrt x == 0.

Lemma safe_dist_nonzero m : ~ safe_dist math_sqrt m == 0.
Proof.
  unfold safe_dist. destruct (Qltb 0 m) eqn:E.
  - Qbool. by apply math_sqrt_nonzero.
  - intros H. vm_compute in H. discriminate.
Qed.

Lemma accumulate_force_total rveSize minDistance coords net_forces i j :
  (i < length coords)%nat -> (j < length coords)%nat ->
  (i < length net_forces)%nat -> (j < length net_forces)%nat ->
  exists f', accumulate_force math_sqrt rveSize minDistance coords net_forces
               (i, j) = Ok f'
             /\ length f' = length net_forces.
Proof.
  intros Hi Hj Hfi Hfj. unfold accumulate_force.
  destruct (pair_delta_total rveSize coords i j Hi Hj) as [d ->].
  cbn [mbind result_bind].
  destruct (Qltb (dist_sq_of d) (sq minDistance)); [|by eexists].
  rewrite !py_div_is_Ok by apply safe_dist_nonzero. cbn [mbind result_bind].
  edestruct (modify_item_is_Ok net_forces i) as (f1 & -> & L1);
    [done|by eexists|]. cbn [mbind result_bind].
  edestruct (modify_item_is_Ok f1 i) as (f2 & -> & L2);
    [lia|by eexists|]. cbn [mbind result_bind].
  edestruct (modify_item_is_Ok f2 j) as (f3 & -> & L3);
    [lia|by eexists|]. cbn [mbind result_bind].
  edestruct (modify_item_is_Ok f3 j) as (f4 & -> & L4);
    [lia|by eexists|].
  exists f4. split; [done|lia].
Qed.

Lemma compute_net_forces_total rveSize minDistance n coords :
  (n <= length coords)%nat ->
  exists net_forces,
    compute_net_forces math_sqrt rveSize minDistance n coords = Ok net_forces
    /\ length net_forces = n.
Proof.
  intros Hn. unfold compute_net_forces.
  apply (foldlM_total (fun f => length f = n)
           (fun ij : nat * nat => (ij.1 < ij.2 < n)%nat)).
  - apply length_replicate.
  - apply Forall_forall. intros [i j] Hin. by apply elem_of_index_pairs.
  - intros [i j] f Hij Hf. cbn in Hij.
    destruct (accumulate_force_total rveSize minDistance coords f i j)
      as (f' & Hf' & L); try lia.
    exists f'. split; [done|lia].
Qed.

Lemma move_fiber_total rveSize seeding_count net_forces coords mx i :
  ~ rve_w rveSize == 0 -> ~ rve_h rveSize == 0 ->
  (i < length net_forces)%nat -> (i < length coords)%nat ->
  exists coords' mx',
    move_fiber rveSize seeding_count net_forces (coords, mx) i
    = Ok (coords', mx')
    /\ length coords' = length coords.
Proof.
  intros HW HH Hf Hc. unfold move_fiber.
  destruct (get_item_lt net_forces i Hf) as [f ->]. cbn [mbind result_bind].
  edestruct (modify_item_is_Ok coords i) as (c1 & -> & L1);
    [done|by eexists|]. cbn [mbind result_bind].
  edestruct (modify_item_is_Ok c1 i) as (c2 & -> & L2);
    [lia|by eexists|]. cbn [mbind result_bind].
  edestruct (modify_item_is_Ok c2 i
               (fun p => x ← py_mod p.1 (rve_w rveSize); mret (x, p.2)))
    as (c3 & -> & L3); [lia| |].
  { intros p. destruct (py_mod_is_Ok p.1 _ HW) as [x ->]. by eexists. }
  cbn [mbind result_bind].
  edestruct (modify_item_is_Ok c3 i
               (fun p => y ← py_mod p.2 (rve_h rveSize); mret (p.1, y)))
    as (c4 & -> & L4); [lia| |].
  { intros p. destruct (py_mod_is_Ok p.2 _ HH) as [x ->]. by eexists. }
  cbn [mbind result_bind]. eexists _, _. split; [reflexivity|lia].
Qed.

Lemma relax_iteration_total seeding_count n rveSize fiberRadius minDistance
    iter_num coords :
  ~ rve_w rveSize == 0 -> ~ rve_h rveSize == 0 ->
  (n <= length coords)%nat ->
  exists r,
    relax_iteration math_sqrt seeding_count n rveSize fiberRadius minDistance
      iter_num coords = Ok r
    /\ match r with
       | inl (c, e) =>
           length c = length coords
           /\ (e = SystemStable iter_num \/ e = Converged (S iter_num))
       | inr c => length c = length coords
       end.
Proof.
  intros HW HH Hn. unfold relax_iteration.
  destruct (compute_net_forces_total rveSize minDistance n coords Hn)
    as (net_forces & -> & Lf). cbn [mbind result_bind].
  destruct (any_force net_forces); cbn [negb].
  - destruct (foldlM_total
                (fun st : list Point * Q => length st.1 = length coords)
                (fun i => (i < n)%nat)
                (move_fiber rveSize seeding_count net_forces) (coords, 0)
                (seq 0 n)) as ([c mx] & -> & L); [done| |..].
    + apply Forall_forall. intros i Hi. apply elem_of_seq in Hi. lia.
    + intros i [c mx] Hi L. cbn in L.
      destruct (move_fiber_total rveSize seeding_count net_forces c mx i)
        as (c' & mx' & Hm & L'); try done; try lia.
      exists (c', mx'). split; [done|]. cbn. lia.
    + cbn [mbind result_bind]. cbn in L.
      destruct (Qltb mx (sq (1e-6 * fiberRadius))); eexists; (split; [done|]);
        cbn; eauto.
  - eexists. split; [done|]. cbn. eauto.
Qed.

Lemma relax_loop_total fuel seeding_count n rveSize fiberRadius minDistance
    iter_num coords :
  ~ rve_w rveSize == 0 -> ~ rve_h rveSize == 0 ->
  (n <= length coords)%nat ->
  exists out e,
    relax_loop math_sqrt fuel seeding_count n rveSize fiberRadius minDistance
      iter_num coords = Ok (out, e)
    /\ length out = length coords
    /\ match e with
       | SystemStable k => (iter_num <= k < iter_num + fuel)%nat
       | Converged k => (iter_num < k <= iter_num + fuel)%nat
       | MaxIterationsReached => True
       end.
Proof.
  intros HW HH. revert iter_num coords.
  induction fuel as [|fuel IH]; intros iter_num coords Hn; cbn [relax_loop].
  - by eexists _, _.
  - destruct (relax_iteration_total seeding_count n rveSize fiberRadius
                minDistance iter_num coords HW HH Hn) as (r & -> & Hr).
    cbn [mbind result_bind]. destruct r as [[c e]|c].
    + destruct Hr as [L [-> | ->]]; eexists _, _; (split; [done|]);
        (split; [done|]); lia.
    + destruct (IH (S iter_num) c) as (out & e & -> & L & He); [lia|].
      eexists _, _. split; [done|]. split; [lia|].
      destruct e; [lia|lia|done].
Qed.

Lemma relaxer_returns_without_raising_aux
    initial_coords seeding_count fiberCount rveSize fiberRadius minDistance :
  (Z.to_nat fiberCount <= length initial_coords)%nat ->
  ~ rve_w rveSize == 0 -> ~ rve_h rveSize == 0 ->
  exists out,
    _relax_coords_anchored math_sqrt initial_coords seeding_count fiberCount
      rveSize fiberRadius minDistance = Ok out.
Proof.
  intros Hn HW HH. unfold _relax_coords_anchored, _relax_coords_anchored_trace.
  destruct (relax_loop_total max_iterations seeding_count
              (Z.to_nat fiberCount) rveSize fiberRadius minDistance 0
              initial_coords HW HH Hn) as (out & e & -> & _).
  by exists out.
Qed.


End Relaxer.




(** ** Accepted centers lie in the domain (C4) *)




Section InDomain.

Variable math_sqrt : Q -> Q.
Variable rand : nat -> Q.
Variable rveSize : RveSize.

Hypothesis width_pos : 0 < rve_w rveSize.
Hypothesis height_pos : 0 < rve_h rveSize.

(** [random()] returns a value in [[0, 1)]. *)
Hypothesis rand_range : forall n, 0 <= rand n /\ rand n < 1.









End InDomain.



(** ** The Mirror Builder (C9) *)

Lemma Qltb_reflect a b : reflect (a < b) (Qltb a b).
Proof.
  destruct (Qltb a b) eqn:E; constructor; Qbool; [done|]. by apply Qle_not_lt.
Qed.

Section MirrorBuilder.

Variable math_sqrt : Q -> Q.

Lemma corner_mirror_In near_x near_y cx cy fiberRadius image q :
  In q (corner_mirror math_sqrt near_x near_y cx cy fiberRadius image) <->
  near_x = true /\ near_y = true
  /\ math_sqrt (sq cx + sq cy) < fiberRadius /\ q = image.
Proof.
  unfold corner_mirror.
  destruct near_x, near_y; cbn [andb];
    try (split; [intros [] | intros (? & ? & _); discriminate]).
  destruct (Qltb_reflect (math_sqrt (sq cx + sq cy)) fiberRadius) as [Hlt|Hge].
  - cbn. split; [intros [<-|[]]; done | intros (_ & _ & _ & ->); by left].
  - split; [intros [] | intros (_ & _ & Hlt & _); done].
Qed.

Lemma edge_mirror_In (near : bool) (image q : Point) :
  In q (if near then [image] else []) <-> near = true /\ q = image.
Proof.
  destruct near; cbn.
  - split; [intros [<-|[]]; done | intros [_ ->]; by left].
  - split; [intros [] | intros [? _]; discriminate].
Qed.

Lemma center_images_In rveSize fiberRadius c q :
  In q (center_images math_sqrt rveSize fiberRadius c) <->
  mirror_provenance math_sqrt rveSize fiberRadius c q.
Proof.
  destruct c as [xt yt]. unfold center_images, mirror_provenance.
  cbn [fst snd]. cbv zeta.
  rewrite !in_app_iff, !corner_mirror_In, !edge_mirror_In, !Qltb_lt.
  cbn [In]. intuition (subst; auto).
Qed.

Lemma unique_within_tolerance_incl_aux acc l q :
  In q (foldl (fun unique_centers center =>
                 if is_duplicate center unique_centers then unique_centers
                 else unique_centers ++ [center]) acc l) ->
  In q acc \/ In q l.
Proof.
  revert acc. induction l as [|c l IH]; intros acc H; cbn in H; [by left|].
  apply IH in H as [H|H]; [|right; by right].
  destruct (is_duplicate c acc); [by left|].
  apply in_app_iff in H as [H|[<-|[]]]; [by left|right; by left].
Qed.

Lemma unique_within_tolerance_incl l q :
  In q (unique_within_tolerance l) -> In q l.
Proof.
  intros H. by apply unique_within_tolerance_incl_aux in H as [[]|H].
Qed.

(** C9.  For the single center [(0.05, 5.0)] in a domain of width and
    height 10 with radius 0.5 the Mirror Builder returns the center and
    the one mirror [(10.05, 5.0)], whatever [math.sqrt] computes.  In
    general the points appended for a center are exactly the center, the
    edge mirrors of the edges it is within [fiberRadius] of, and a
    diagonal mirror for each corner such that the center is within
    [fiberRadius] of both edges of the corner and [math.sqrt] of its
    squared distance to the corner vertex is below [fiberRadius]; every
    point of the result is one of these points of some center. *)
Theorem mirror_builder_scenario_and_corners :
  (forall depth,
     buildAllFiberCenters3D math_sqrt [(0.05, 5.0)] (mkRve 10 10 depth) 0.5
     = [(0.05, 5.0); (10.05, 5.0)])
  /\ (forall rveSize fiberRadius c q,
        In q (center_images math_sqrt rveSize fiberRadius c) <->
        mirror_provenance math_sqrt rveSize fiberRadius c q)
  /\ (forall fiber_centers rveSize fiberRadius q,
        In q (buildAllFiberCenters3D math_sqrt fiber_centers rveSize
                fiberRadius) ->
        exists c, In c fiber_centers
                  /\ mirror_provenance math_sqrt rveSize fiberRadius c q).
Proof.
  split; [|split].
  - intros depth. vm_compute. reflexivity.
  - apply center_images_In.
  - intros fiber_centers rveSize fiberRadius q H.
    apply unique_within_tolerance_incl in H.
    apply in_flat_map in H as (c & Hc & H). exists c. split; [done|].
    by apply center_images_In.
Qed.

End MirrorBuilder.

Lemma mirror_builder_scenario_and_corners_witness :
  In (10.05, 5.0)
     (buildAllFiberCenters3D sqrt_upper [(0.05, 5.0)] (mkRve 10 10 1) 0.5)
  /\ exists c, In c [(0.05, 5.0)]
               /\ mirror_provenance sqrt_upper (mkRve 10 10 1) 0.5 c
                    (10.05, 5.0).
Proof.
  split; [vm_compute; tauto|].
  apply (proj2 (proj2 (mirror_builder_scenario_and_corners sqrt_upper))
           [(0.05, 5.0)] (mkRve 10 10 1) 0.5 (10.05, 5.0)).
  vm_compute. tauto.
Defined.

(** ** The two mirror builders (C10) *)

Lemma point_eqb_eq p q : point_eqb p q = true <-> point_eq p q.
Proof.
  unfold point_eqb, point_eq. rewrite andb_true_iff, !Qeqb_eq. tauto.
Qed.

Lemma point_eq_refl p : point_eq p p.
Proof. split; reflexivity. Qed.

Lemma point_eq_trans p q r : point_eq p q -> point_eq q r -> point_eq p r.
Proof. intros [H1 H2] [H3 H4]. split; [by rewrite H1 | by rewrite H2]. Qed.

Lemma set_of_points_incl points q : In q (set_of_points points) -> In q points.
Proof.
  revert q. induction points as [|p points IH]; intros q H; cbn in H; [done|].
  destruct H as [<-|H]; [by left|]. right. apply IH.
  by apply filter_In in H as [H _].
Qed.

Lemma set_of_points_covers points q :
  In q points -> exists q', In q' (set_of_points points) /\ point_eq q' q.
Proof.
  induction points as [|p points IH]; intros H; [done|].
  destruct H as [<-|H].
  - exists p. split; [by left|apply point_eq_refl].
  - destruct (IH H) as (q' & Hin & Heq). cbn [set_of_points].
    destruct (point_eqb p q') eqn:E.
    + exists p. split; [by left|]. apply point_eqb_eq in E.
      by eapply point_eq_trans.
    + exists q'. split; [|done]. right. apply filter_In. by rewrite E.
Qed.

Lemma insert_point_In p sorted q :
  In q (insert_point p sorted) <-> q = p \/ In q sorted.
Proof.
  induction sorted as [|r sorted IH]; cbn; [intuition|].
  destruct (point_ltb r p); cbn; rewrite ?IH; intuition.
Qed.

Lemma unique_points_In points q :
  In q (unique_points points) <-> In q (set_of_points points).
Proof.
  unfold unique_points. induction (set_of_points points) as [|p l IH]; cbn;
    [done|]. rewrite insert_point_In, IH. intuition.
Qed.

Lemma within_tolerance_refl p : within_tolerance p p.
Proof.
  split; apply Qabs_case; intros _;
    change dedup_tolerance with (1 # 1000000); lra.
Qed.

Lemma is_duplicate_true center unique_centers :
  is_duplicate center unique_centers = true ->
  exists existing, In existing unique_centers
                   /\ within_tolerance center existing.
Proof.
  unfold is_duplicate. rewrite existsb_exists. intros (e & Hin & H).
  apply andb_true_iff in H as [H1 H2]. exists e. split; [done|].
  split; by apply Qltb_lt.
Qed.

Lemma unique_within_tolerance_covers_aux acc l :
  (forall q, In q acc ->
     In q (foldl (fun unique_centers center =>
                    if is_duplicate center unique_centers then unique_centers
                    else unique_centers ++ [center]) acc l))
  /\ (forall q, In q l ->
        exists q', In q' (foldl (fun unique_centers center =>
                     if is_duplicate center unique_centers then unique_centers
                     else unique_centers ++ [center]) acc l)
                   /\ within_tolerance q q').
Proof.
  revert acc. induction l as [|c l IH]; intros acc; cbn [foldl].
  - split; [done|intros q []].
  - destruct (is_duplicate c acc) eqn:E.
    + destruct (IH acc) as [Hacc Hl]. split; [done|].
      intros q [<-|Hq]; [|by apply Hl].
      apply is_duplicate_true in E as (e & He & Hc). exists e.
      split; [by apply Hacc|done].
    + destruct (IH (acc ++ [c])) as [Hacc Hl]. split.
      * intros q Hq. apply Hacc, in_app_iff. by left.
      * intros q [<-|Hq]; [|by apply Hl]. exists c.
        split; [|apply within_tolerance_refl].
        apply Hacc, in_app_iff. right. by left.
Qed.

Lemma unique_within_tolerance_covers l q :
  In q l ->
  exists q', In q' (unique_within_tolerance l) /\ within_tolerance q q'.
Proof. apply (unique_within_tolerance_covers_aux [] l). Qed.

Section TwoBuilders.

Variable math_sqrt : Q -> Q.

Lemma points_to_add_In rveSize fiberRadius c q :
  In q (points_to_add rveSize fiberRadius c) <->
  let xt := c.1 in
  let yt := c.2 in
  let W := rve_w rveSize in
  let H := rve_h rveSize in
  q = (xt, yt)
  \/ (xt < fiberRadius /\ q = (xt + W, yt))
  \/ (W - fiberRadius < xt /\ q = (xt - W, yt))
  \/ (yt < fiberRadius /\ q = (xt, yt + H))
  \/ (H - fiberRadius < yt /\ q = (xt, yt - H))
  \/ (xt < fiberRadius /\ H - fiberRadius < yt /\ q = (xt + W, yt - H))
  \/ (xt < fiberRadius /\ yt < fiberRadius /\ q = (xt + W, yt + H))
  \/ (W - fiberRadius < xt /\ H - fiberRadius < yt /\ q = (xt - W, yt - H))
  \/ (W - fiberRadius < xt /\ yt < fiberRadius /\ q = (xt - W, yt + H)).
Proof.
  destruct c as [xt yt]. unfold points_to_add. cbn [fst snd]. cbv zeta.
  rewrite !in_app_iff, !edge_mirror_In, !andb_true_iff, !Qltb_lt.
  cbn [In]. intuition (subst; auto).
Qed.

Lemma center_images_incl rveSize fiberRadius c q :
  In q (center_images math_sqrt rveSize fiberRadius c) ->
  In q (points_to_add rveSize fiberRadius c).
Proof.
  rewrite center_images_In, points_to_add_In.
  unfold mirror_provenance. cbv zeta. intuition.
Qed.

Lemma points_to_add_incl rveSize fiberRadius c q :
  corners_within_radius math_sqrt rveSize fiberRadius [c] ->
  In q (points_to_add rveSize fiberRadius c) ->
  In q (center_images math_sqrt rveSize fiberRadius c).
Proof.
  intros Hc. destruct c as [xt yt].
  destruct (Hc xt yt (or_introl eq_refl)) as (H1 & H2 & H3 & H4).
  rewrite center_images_In, points_to_add_In.
  unfold mirror_provenance. cbn [fst snd]. cbv zeta. intuition.
Qed.

(** C10, amended.  Every center that [buildAllFiberCenters3D] returns is
    equal to a coordinate pair of the inline mirror generation of Step 2;
    and when every center within [fiberRadius] of both edges of a corner
    is also within [fiberRadius] of the corner vertex, every coordinate
    pair of Step 2 is, within the tolerance of the de-duplication in both
    axes, a center that [buildAllFiberCenters3D] returns. *)
Theorem mirror_builders_related fiber_centers rveSize fiberRadius :
  (forall q,
     In q (buildAllFiberCenters3D math_sqrt fiber_centers rveSize fiberRadius)
     -> exists q', In q' (create3DRVEModel_step2 fiber_centers rveSize
                            fiberRadius)
                   /\ point_eq q' q)
  /\ (corners_within_radius math_sqrt rveSize fiberRadius fiber_centers ->
      forall q,
        In q (create3DRVEModel_step2 fiber_centers rveSize fiberRadius) ->
        exists q', In q' (buildAllFiberCenters3D math_sqrt fiber_centers
                            rveSize fiberRadius)
                   /\ within_tolerance q q').
Proof.
  unfold buildAllFiberCenters3D, create3DRVEModel_step2. split.
  - intros q H. apply unique_within_tolerance_incl in H.
    apply in_flat_map in H as (c & Hc & H). apply center_images_incl in H.
    apply set_of_points_covers in H as (q' & Hq' & Heq).
    exists q'. split; [|done]. apply in_flat_map. exists c. split; [done|].
    by apply unique_points_In.
  - intros Hcorners q H. apply in_flat_map in H as (c & Hc & H).
    apply unique_points_In, set_of_points_incl in H.
    apply points_to_add_incl in H.
    + apply unique_within_tolerance_covers, in_flat_map. eauto.
    + intros xt yt [->|[]]. by apply Hcorners.
Qed.

End TwoBuilders.

Lemma mirror_builders_related_witness :
  (In (10.05, 5.0)
      (buildAllFiberCenters3D sqrt_upper [(0.05, 5.0)] (mkRve 10 10 1) 0.5)
   /\ exists q', In q' (create3DRVEModel_step2 [(0.05, 5.0)] (mkRve 10 10 1)
                          0.5)
                 /\ point_eq q' (10.05, 5.0))
  /\ (In (10.1, 10.1)
         (create3DRVEModel_step2 [(0.1, 0.1)] (mkRve 10 10 1) 0.5)
      /\ exists q', In q' (buildAllFiberCenters3D sqrt_upper [(0.1, 0.1)]
                             (mkRve 10 10 1) 0.5)
                    /\ within_tolerance (10.1, 10.1) q').
Proof.
  split; (split; [vm_compute; tauto|]).
  - apply (proj1 (mirror_builders_related sqrt_upper [(0.05, 5.0)]
                    (mkRve 10 10 1) 0.5)).
    vm_compute. tauto.
  - apply (proj2 (mirror_builders_related sqrt_upper [(0.1, 0.1)]
                    (mkRve 10 10 1) 0.5)).
    + intros xt yt [[= <- <-]|[]]. cbv zeta.
      repeat split; intros H1 H2;
        first [ vm_compute; reflexivity
              | vm_compute in H1; discriminate
              | vm_compute in H2; discriminate ].
    + vm_compute. tauto.
Defined.

(** C10 as stated fails: the center [(0.4, 0.4)] with radius 0.5 is within
    the radius of the left and of the bottom edge but farther than the
    radius from the corner vertex; Step 2 adds its diagonal image
    [(10.4, 10.4)], [buildAllFiberCenters3D] does not. *)
Lemma mirror_builders_counterexample :
  In (10.4, 10.4) (create3DRVEModel_step2 [(0.4, 0.4)] (mkRve 10 10 1) 0.5)
  /\ forall q,
       In q (buildAllFiberCenters3D sqrt_upper [(0.4, 0.4)] (mkRve 10 10 1)
               0.5) ->
       ~ point_eq q (10.4, 10.4).
Proof.
  split; [vm_compute; tauto|]. intros q H [H1 H2]. vm_compute in H.
  destruct H as [<-|[<-|[<-|[]]]]; vm_compute in H1, H2; discriminate.
Qed.

(** ** The Classifier (C6) *)

Section ClassifierCounts.

Variable math_sqrt : Q -> Q.

Lemma validate_Vf_is_Ok fibers fiber_centers rveSize fiberRadius rveVolume :
  ~ rveVolume == 0 -> ~ rve_w rveSize * rve_h rveSize == 0 ->
  fiber_centers <> [] -> ~ fiberRadius == 0 ->
  is_Ok (validate_Vf fibers fiber_centers rveSize fiberRadius rveVolume).
Proof.
  intros Hv Ha Hc Hr. unfold validate_Vf.
  rewrite !py_div_is_Ok by done. cbn [mbind result_bind].
  rewrite py_div_is_Ok; [by eexists|].
  set (k := inject_Z (Z.of_nat (length fiber_centers))).
  assert (Hk : 0 < k).
  { unfold k. change 0 with (inject_Z 0). rewrite <- Zlt_Qlt.
    destruct fiber_centers; [done|]. cbn [length]. lia. }
  assert (Hpi : 0 < math_pi) by reflexivity.
  assert (Hr2 : 0 < sq fiberRadius).
  { unfold sq. destruct (Q_dec 0 fiberRadius) as [[Hp|Hm]|H0].
    - by apply Qmult_lt_0_compat.
    - assert (Hneg : 0 < - fiberRadius) by lra.
      pose proof (Qmult_lt_0_compat _ _ Hneg Hneg) as Hsq.
      assert (Hring : - fiberRadius * - fiberRadius
                      == fiberRadius * fiberRadius) by ring.
      lra.
    - exfalso. apply Hr. by symmetry. }
  assert (Hn : 0 < k * math_pi * sq fiberRadius).
  { apply Qmult_lt_0_compat; [|done]. by apply Qmult_lt_0_compat. }
  clearbody k.
  set (a := rve_w rveSize * rve_h rveSize) in *. clearbody a.
  set (n := k * math_pi * sq fiberRadius) in *. clearbody n.
  intros H. assert (Hd : n == n / a * a) by (field; done).
  rewrite H in Hd. lra.
Qed.

(** C6.  With [potential_cells] the cells after the largest one: when
    there are fewer of them than fiber centers with mirrors the Classifier
    raises, with the cell-count error unless the list of cells is empty
    (then no cell can be indexed); when there are exactly as many, no cell
    center is queried and every potential cell is put in the fiber list,
    the largest cell alone in the matrix list, and the Classifier returns
    these lists whenever the volume-fraction check that follows has
    non-zero divisors. *)
Theorem classifier_count_check
    all_cells fiber_centers rveSize fiberRadius rveVolume :
  let potential_cells := drop 1 (sorted_by_size all_cells) in
  let all_fiber_centers :=
    buildAllFiberCenters3D math_sqrt fiber_centers rveSize fiberRadius in
  ((length potential_cells < length all_fiber_centers)%nat ->
   exists e,
     classifyCellsImproved math_sqrt all_cells fiber_centers rveSize
       fiberRadius rveVolume = Raise e
     /\ (all_cells <> [] ->
         e = CellCountAnomaly (length potential_cells)
               (length all_fiber_centers)))
  /\ (length potential_cells = length all_fiber_centers ->
      forall largest, sorted_by_size all_cells !! 0%nat = Some largest ->
      classify_step4 math_sqrt all_cells fiber_centers rveSize fiberRadius
      = Ok (potential_cells, [largest], O)
      /\ (forall res,
            classifyCellsImproved math_sqrt all_cells fiber_centers rveSize
              fiberRadius rveVolume = Ok res ->
            fiber_cells_list res = potential_cells
            /\ matrix_cells_list res = [largest]
            /\ center_queries res = O)
      /\ (~ rveVolume == 0 -> ~ rve_w rveSize * rve_h rveSize == 0 ->
          fiber_centers <> [] -> ~ fiberRadius == 0 ->
          is_Ok (classifyCellsImproved math_sqrt all_cells fiber_centers
                   rveSize fiberRadius rveVolume))).
Proof.
  intros potential_cells all_fiber_centers. split.
  - intros Hlt. unfold classifyCellsImproved, classify_step4, get_item.
    destruct (sorted_by_size all_cells !! 0%nat) as [largest|] eqn:E.
    + cbn [mbind result_bind]. fold potential_cells all_fiber_centers.
      apply Nat.ltb_lt in Hlt. rewrite Hlt. cbn [mbind result_bind].
      eexists. split; [reflexivity|done].
    + cbn [mbind result_bind]. eexists. split; [reflexivity|].
      intros Hne. exfalso. destruct all_cells as [|c l]; [done|].
      cbn [sorted_by_size foldr] in E.
      destruct (foldr insert_by_size [] l) as [|d l']; cbn in E; [done|].
      by destruct (Qltb (getSize c) (getSize d)).
  - intros Heq largest Hl.
    assert (Hs : classify_step4 math_sqrt all_cells fiber_centers rveSize
                   fiberRadius = Ok (potential_cells, [largest], O)).
    { unfold classify_step4, get_item. rewrite Hl. cbn [mbind result_bind].
      fold potential_cells all_fiber_centers. rewrite Heq.
      by rewrite Nat.ltb_irrefl, Nat.eqb_refl. }
    split; [done|]. unfold classifyCellsImproved. rewrite Hs.
    cbn [mbind result_bind]. split.
    + intros res H. apply bind_Ok_inv in H as (w & _ & H). ok_inv H.
      by subst res.
    + intros Hv Ha Hc Hr.
      destruct (validate_Vf_is_Ok potential_cells fiber_centers rveSize
                  fiberRadius rveVolume Hv Ha Hc Hr) as [w ->].
      by eexists.
Qed.

End ClassifierCounts.

Lemma classifier_count_check_witness :
  let largest := mkCell 90 None None in
  let fiber := mkCell 3 None None in
  (exists e,
     classifyCellsImproved sqrt_upper [largest] [(5, 5)] (mkRve 10 10 1) 1
       100 = Raise e
     /\ ([largest] <> [] -> e = CellCountAnomaly 0 1))
  /\ is_Ok (classifyCellsImproved sqrt_upper [fiber; largest] [(5, 5)]
              (mkRve 10 10 1) 1 100).
Proof.
  intros largest fiber. split.
  - apply (proj1 (classifier_count_check sqrt_upper [largest] [(5, 5)]
                    (mkRve 10 10 1) 1 100)).
    vm_compute. lia.
  - apply (proj2 (classifier_count_check sqrt_upper [fiber; largest]
                    [(5, 5)] (mkRve 10 10 1) 1 100)
             ltac:(reflexivity) largest ltac:(reflexivity)).
    + intros H. vm_compute in H. discriminate.
    + intros H. vm_compute in H. discriminate.
    + discriminate.
    + intros H. vm_compute in H. discriminate.
Defined.

(** ** The Pairing Engine (C5) *)

Lemma list_remove_first_perm x pool :
  x ∈ pool -> x :: list_remove_first x pool ≡ₚ pool.
Proof.
  induction pool as [|y pool IH]; intros H; [by apply elem_of_nil in H|].
  cbn [list_remove_first]. destruct (decide (y = x)) as [->|Hne]; [done|].
  apply elem_of_cons in H as [->|H]; [done|].
  rewrite Permutation_swap. by rewrite IH.
Qed.

Lemma coord_at_is_Ok coord idx : (idx < 3)%nat -> is_Ok (coord_at coord idx).
Proof.
  intros H. destruct idx as [|[|[|idx]]]; cbn; try (by eexists). lia.
Qed.

Section PairingEngine.

Variable math_sqrt : Q -> Q.

Lemma planar_dist_is_Ok coord_indices s_node m_node :
  (coord_indices.1 < 3)%nat -> (coord_indices.2 < 3)%nat ->
  is_Ok (planar_dist math_sqrt coord_indices s_node m_node).
Proof.
  destruct coord_indices as [idx1 idx2]. cbn [fst snd]. intros H1 H2.
  unfold planar_dist.
  destruct (coord_at_is_Ok (coordinates s_node) idx1 H1) as [? ->].
  destruct (coord_at_is_Ok (coordinates m_node) idx1 H1) as [? ->].
  destruct (coord_at_is_Ok (coordinates s_node) idx2 H2) as [? ->].
  destruct (coord_at_is_Ok (coordinates m_node) idx2 H2) as [? ->].
  by eexists.
Qed.

Lemma best_match_inv tolerance coord_indices s_node master_pool st :
  foldlM (match_candidate math_sqrt tolerance coord_indices s_node)
         (None, None) master_pool = Ok st ->
  best_inv math_sqrt tolerance coord_indices s_node master_pool st.
Proof.
  apply foldlM_ind; [done|].
  intros pre m [b d] st2 Hinv Hstep. unfold match_candidate in Hstep.
  apply bind_Ok_inv in Hstep as (dm & Hdm & Hstep). cbn [snd] in Hstep.
  destruct (Qltb dm tolerance && lt_inf dm d) eqn:E; ok_inv Hstep; subst st2.
  - apply andb_true_iff in E as [E _]. apply Qltb_lt in E. cbn.
    split; [|done]. apply elem_of_app. right. by apply list_elem_of_singleton.
  - destruct b as [b|], d as [d|]; try done. cbn in *.
    destruct Hinv as (Hin & Hd). split; [|done]. apply elem_of_app. by left.
Qed.

Lemma pair_slave_inv tolerance coord_indices master_nodes pre st s_node st' :
  pairing_inv math_sqrt tolerance coord_indices master_nodes pre st ->
  pair_slave math_sqrt tolerance coord_indices st s_node = Ok st' ->
  pairing_inv math_sqrt tolerance coord_indices master_nodes
    (pre ++ [s_node]) st'.
Proof.
  destruct st as [paired pool]. intros (Hperm & Hsub & Hall) H.
  unfold pair_slave in H. apply bind_Ok_inv in H as ([b d] & Hb & H).
  apply best_match_inv in Hb. cbn [fst snd] in *.
  destruct b as [m|]; ok_inv H; subst st'.
  - destruct d as [d|]; [|done]. destruct Hb as (Hin & Hd & Hlt).
    unfold pairing_inv. cbn [fst snd]. rewrite !fmap_app. cbn [fmap list_fmap].
    split; [|split].
    + rewrite <- Hperm, <- app_assoc. apply Permutation_app_head.
      cbn. by apply list_remove_first_perm.
    + cbn. by apply sublist_app.
    + apply Forall_app. split; [done|]. apply Forall_singleton.
      exists d. by split.
  - split; [done|]. split; [|done]. cbn [fst].
    by apply sublist_inserts_r.
Qed.

Lemma pair_slave_is_Ok tolerance coord_indices st s_node :
  (coord_indices.1 < 3)%nat -> (coord_indices.2 < 3)%nat ->
  is_Ok (pair_slave math_sqrt tolerance coord_indices st s_node).
Proof.
  intros H1 H2. destruct st as [paired pool]. unfold pair_slave.
  destruct (foldlM_total (fun _ => True) (fun _ => True)
              (match_candidate math_sqrt tolerance coord_indices s_node)
              (None, None) pool) as (best & -> & _); [done| |..].
  - by apply Forall_true.
  - intros m st _ _. unfold match_candidate.
    destruct (planar_dist_is_Ok coord_indices s_node m H1 H2) as [d ->].
    cbn [mbind result_bind]. destruct (_ && _); eauto.
  - cbn [mbind result_bind]. destruct best.1; by eexists.
Qed.


End PairingEngine.


(** ** Step 1 as a whole *)

Lemma py_round_comp x y : x == y -> py_round x = py_round y.
Proof.
  intros H. unfold py_round.
  assert (Hb : Qltb x 0 = Qltb y 0).
  { destruct (Qltb y 0) eqn:E; Qbool; lra. }
  rewrite Hb. destruct (Qltb y 0).
  - f_equal. apply Qfloor_comp. by rewrite H.
  - apply Qfloor_comp. by rewrite H.
Qed.



Section Step1.

Variable math_sqrt : Q -> Q.
Variable rand : nat -> Q.



Lemma rsa_seeding_length count rveSize minDistance seeded calls :
  (length seeded
   <= length (rsa_seeding rand count rveSize minDistance seeded calls).1
   <= length seeded + count)%nat.
Proof.
  revert seeded calls. induction count as [|count IH]; intros seeded calls;
    cbn [rsa_seeding]; [cbn; lia|].
  destruct (rsa_attempts _ _ _ _ _ _) as [[p|] calls']; [|cbn; lia].
  specialize (IH (seeded ++ [p]) calls'). rewrite length_app in IH.
  cbn [length] in IH. lia.
Qed.

Lemma random_placement_length remaining rveSize coords calls :
  length (random_placement rand remaining rveSize coords calls).1
  = (length coords + remaining)%nat.
Proof.
  revert coords calls. induction remaining as [|remaining IH];
    intros coords calls; cbn [random_placement]; [cbn; lia|].
  cbv zeta beta iota delta [uniform]. rewrite IH, length_app. cbn. lia.
Qed.

(** Step 1 returns for every configuration with a non-zero fiber area,
    provided [math.sqrt] of a positive number is not zero: the Relaxer is
    always called with at least [fiberCount] points and, as the fiber
    count is not zero, with non-zero width and height. *)
Lemma step1_returns rveSize fiberRadius target_Vf minDistanceFactor
    rsa_seeding_ratio calls :
  (forall x, 0 < x -> ~ math_sqrt x == 0) ->
  ~ math_pi * sq fiberRadius == 0 ->
  is_Ok (create3DRVEModel_step1 math_sqrt rand rveSize fiberRadius target_Vf
           minDistanceFactor rsa_seeding_ratio calls).
Proof.
  intros Hsqrt Hfa. unfold create3DRVEModel_step1.
  rewrite fiber_parameters_eq. apply Qeqb_neq in Hfa as Hfa'. rewrite Hfa'.
  cbn [mbind result_bind].
  set (x := target_Vf * (rve_w rveSize * rve_h rveSize)
            / (math_pi * sq fiberRadius)).
  destruct (py_round x =? 0)%Z eqn:E0; [by eexists|].
  destruct (Qleb _ _); [by eexists|].
  assert (Harea : ~ rve_w rveSize * rve_h rveSize == 0).
  { intros Hz. apply Z.eqb_neq in E0. apply E0.
    rewrite (py_round_comp x 0); [reflexivity|].
    unfold x. rewrite Hz. unfold Qdiv. ring. }
  assert (HW : ~ rve_w rveSize == 0).
  { intros Hz. apply Harea. rewrite Hz. ring. }
  assert (HH : ~ rve_h rveSize == 0).
  { intros Hz. apply Harea. rewrite Hz. ring. }
  set (md := minDistanceFactor * fiberRadius).
  pose proof (rsa_seeding_length
                (Z.to_nat (py_int (inject_Z (py_round x) * rsa_seeding_ratio)))
                rveSize md [] calls) as Hs.
  destruct (rsa_seeding _ _ _ _ _ _) as [seeded c1]. cbn [fst] in Hs.
  pose proof (random_placement_length
                (Z.to_nat (py_round x - Z.of_nat (length seeded)))
                rveSize seeded c1) as Hi.
  destruct (random_placement _ _ _ _ _) as [initial c2]. cbn [fst] in Hi.
  destruct (relaxer_returns_without_raising_aux math_sqrt Hsqrt initial
              (Z.of_nat (length seeded)) (py_round x) rveSize fiberRadius md)
    as (out & Hout); [lia|done|done|].
  rewrite Hout. cbn [mbind result_bind].
  destruct (_final_check_and_enforce _ _ _ _ _); by eexists.
Qed.


End Step1.

(** ** The embedding on concrete inputs *)

Example py_round_half_away_from_zero :
  py_round 2.5 = 3%Z /\ py_round (-2.5) = (-3)%Z /\ py_round 9.549 = 10%Z.
Proof. repeat split. Qed.

Example py_int_truncates : py_int 2.7 = 2%Z /\ py_int (-2.7) = (-2)%Z.
Proof. split; reflexivity. Qed.

Example py_mod_sign_of_divisor :
  (exists x, py_mod (-1) 10 = Ok x /\ x == 9)
  /\ (exists x, py_mod 10.5 10 = Ok x /\ x == 0.5)
  /\ py_mod 1 0 = Raise ZeroDivisionError.
Proof.
  split; [|split].
  - eexists. split; [vm_compute; reflexivity|]. vm_compute. reflexivity.
  - eexists. split; [vm_compute; reflexivity|]. vm_compute. reflexivity.
  - reflexivity.
Qed.

Example min_image_wraps :
  min_image 10 6 == -4 /\ min_image 10 (-6) == 4 /\ min_image 10 5 == 5.
Proof. repeat split. Qed.

Example index_pairs_scan_order :
  index_pairs 3 = [(0, 1); (0, 2); (1, 2)]%nat.
Proof. reflexivity. Qed.

Example sorted_by_size_is_stable :
  map getSize
    (sorted_by_size [mkCell 1 None None; mkCell 5 (Some (0, 0, 0)) None;
                     mkCell 5 None None; mkCell 9 None None])
  = [9; 5; 5; 1]
  /\ map getCentroid
       (sorted_by_size [mkCell 1 None None; mkCell 5 (Some (0, 0, 0)) None;
                        mkCell 5 None None; mkCell 9 None None])
     = [None; Some (0, 0, 0); None; None].
Proof. split; reflexivity. Qed.

Example unique_points_sorts_and_merges :
  unique_points [(3, 1); (1, 2); (3, 1); (1, 1)] = [(1, 1); (1, 2); (3, 1)].
Proof. reflexivity. Qed.

Example corner_center_gets_three_mirrors :
  buildAllFiberCenters3D sqrt_upper [(0.1, 0.1)] (mkRve 10 10 1) 0.5
  = [(0.1, 0.1); (10.1, 0.1); (0.1, 10.1); (10.1, 10.1)].
Proof. vm_compute. reflexivity. Qed.

Example corrector_separates_close_pair :
  exists out,
    _final_check_and_enforce sqrt_upper [(1, 1); (2, 1)] 2 (mkRve 10 10 1) 1.5
    = Ok out
    /\ min_distance_satisfied (mkRve 10 10 1) 1.5 2 out.
Proof.
  destruct (_final_check_and_enforce sqrt_upper [(1, 1); (2, 1)] 2
              (mkRve 10 10 1) 1.5) as [out|e] eqn:E.
  - exists out. split; [done|]. apply final_check_Ok_inv in E as [_ E].
    exact E.
  - vm_compute in E. discriminate.
Qed.

Example classifier_separates_fragment :
  let matrix := mkCell 90 (Some (5, 5, 0.5)) None in
  let fiber := mkCell 3 (Some (5.1, 5, 0.5)) None in
  let fragment := mkCell 0.01 None (Some [Some (9, 9, 0); Some (9, 9, 1)]) in
  exists warning,
    classifyCellsImproved sqrt_upper [fragment; fiber; matrix] [(5, 5)]
      (mkRve 10 10 1) 1 100
    = Ok (mkClassification [fiber] [matrix; fragment] 2 warning).
Proof. eexists. vm_compute. reflexivity. Qed.

(** * Part III: further properties of the script *)

(** ** Mirror Builder: the de-duplication and the place of the mirrors *)

Lemma within_tolerance_sym p q : within_tolerance p q -> within_tolerance q p.
Proof.
  intros [H1 H2].
  assert (Hs : forall a b, Qabs (a - b) == Qabs (b - a)).
  { intros a b. rewrite <- Qabs_opp. apply Qabs_wd. ring. }
  split; rewrite Hs; done.
Qed.

Lemma is_duplicate_false center unique_centers existing :
  is_duplicate center unique_centers = false ->
  In existing unique_centers -> ~ within_tolerance center existing.
Proof.
  unfold is_duplicate. intros Hd Hin [H1 H2].
  assert (Ht : existsb (fun existing =>
                  Qltb (Qabs (center.1 - existing.1)) dedup_tolerance
                  && Qltb (Qabs (center.2 - existing.2)) dedup_tolerance)
                 unique_centers = true).
  { apply existsb_exists. exists existing. split; [done|].
    apply andb_true_iff. split; by apply Qltb_lt. }
  congruence.
Qed.

Lemma unique_within_tolerance_separated_aux acc l :
  (forall i j p q, (i < j)%nat -> acc !! i = Some p -> acc !! j = Some q ->
                   ~ within_tolerance q p) ->
  forall i j p q, (i < j)%nat ->
    foldl (fun unique_centers center =>
             if is_duplicate center unique_centers then unique_centers
             else unique_centers ++ [center]) acc l !! i = Some p ->
    foldl (fun unique_centers center =>
             if is_duplicate center unique_centers then unique_centers
             else unique_centers ++ [center]) acc l !! j = Some q ->
    ~ within_tolerance q p.
Proof.
  revert acc. induction l as [|c l IH]; intros acc Hacc; cbn [foldl]; [done|].
  apply IH. destruct (is_duplicate c acc) eqn:E; [done|].
  intros i j p q Hij Hp Hq.
  destruct (decide (j < length acc)%nat) as [Hj|Hj].
  - rewrite lookup_app_l in Hp, Hq by lia. exact (Hacc i j p q Hij Hp Hq).
  - rewrite lookup_app_l in Hp.
    + rewrite lookup_app_r in Hq by lia.
      destruct (j - length acc)%nat; cbn in Hq; [|done]. injection Hq as <-.
      eapply is_duplicate_false; [done|].
      apply list_elem_of_In, list_elem_of_lookup. eauto.
    + apply lookup_lt_Some in Hq. rewrite length_app in Hq. cbn in Hq. lia.
Qed.

(** X1.  No two entries of the list returned by [buildAllFiberCenters3D]
    are within the tolerance [1e-6] of each other in both axes, and every
    fiber center has an entry within that tolerance of it. *)
Theorem mirror_builder_deduplicates math_sqrt fiber_centers rveSize fiberRadius :
  let centers :=
    buildAllFiberCenters3D math_sqrt fiber_centers rveSize fiberRadius in
  (forall i j p q, (i < j)%nat -> centers !! i = Some p ->
                   centers !! j = Some q -> ~ within_tolerance q p)
  /\ (forall c, In c fiber_centers ->
        exists q, In q centers /\ within_tolerance c q).
Proof.
  intros centers. split.
  - apply unique_within_tolerance_separated_aux. intros i j p q _ Hp.
    by rewrite lookup_nil in Hp.
  - intros c Hc. apply unique_within_tolerance_covers, in_flat_map.
    exists c. split; [done|]. destruct c as [x y]. apply center_images_In.
    unfold mirror_provenance. by left.
Qed.

Lemma mirror_builder_deduplicates_witness :
  let centers :=
    buildAllFiberCenters3D sqrt_upper [(0.1, 0.1); (0.1000001, 0.1)]
      (mkRve 10 10 1) 0.5 in
  length centers = 4%nat
  /\ forall p q, centers !! 0%nat = Some p -> centers !! 1%nat = Some q ->
                 ~ within_tolerance q p.
Proof.
  intros centers. split; [vm_compute; reflexivity|]. intros p q.
  apply (proj1 (mirror_builder_deduplicates sqrt_upper
                  [(0.1, 0.1); (0.1000001, 0.1)] (mkRve 10 10 1) 0.5)).
  lia.
Defined.

(** X2.  Every point appended for a center that lies in the domain is the
    center itself or a ghost outside the domain, shifted by a whole
    width and/or height and less than [fiberRadius] away from the domain
    in each axis. *)
Theorem mirrors_are_ghosts_near_the_domain
    math_sqrt rveSize fiberRadius c q :
  in_domain rveSize c ->
  In q (center_images math_sqrt rveSize fiberRadius c) ->
  q = c
  \/ (~ in_domain rveSize q
      /\ (- fiberRadius < q.1 /\ q.1 < rve_w rveSize + fiberRadius)
      /\ (- fiberRadius < q.2 /\ q.2 < rve_h rveSize + fiberRadius)
      /\ (q.1 == c.1 \/ q.1 == c.1 + rve_w rveSize
          \/ q.1 == c.1 - rve_w rveSize)
      /\ (q.2 == c.2 \/ q.2 == c.2 + rve_h rveSize
          \/ q.2 == c.2 - rve_h rveSize)).
Proof.
  destruct c as [xt yt]. intros [[Hx0 Hx1] [Hy0 Hy1]] H. cbn [fst snd] in *.
  apply center_images_In in H. unfold mirror_provenance in H.
  cbn [fst snd] in H. cbv zeta in H.
  destruct H as [->|H]; [by left|]. right.
  unfold in_domain.
  repeat match goal with
  | H : _ \/ _ |- _ => destruct H as [H|H]
  | H : _ /\ _ |- _ => destruct H as [? H]
  end; subst q; cbn [fst snd];
    (split; [intros [[? ?] [? ?]]; lra|]);
    (split; [split; lra|]); (split; [split; lra|]);
    (split; [first [left; reflexivity | right; left; reflexivity
                   | right; right; reflexivity]|]);
    first [left; reflexivity | right; left; reflexivity
          | right; right; reflexivity].
Qed.

Lemma mirrors_are_ghosts_near_the_domain_witness :
  (10.1, 0.1) = (0.1, 0.1)
  \/ (~ in_domain (mkRve 10 10 1) (10.1, 0.1)
      /\ (- 0.5 < 10.1 /\ 10.1 < 10 + 0.5)
      /\ (- 0.5 < 0.1 /\ 0.1 < 10 + 0.5)
      /\ (10.1 == 0.1 \/ 10.1 == 0.1 + 10 \/ 10.1 == 0.1 - 10)
      /\ (0.1 == 0.1 \/ 0.1 == 0.1 + 10 \/ 0.1 == 0.1 - 10)).
Proof.
  apply (mirrors_are_ghosts_near_the_domain sqrt_upper (mkRve 10 10 1) 0.5
           (0.1, 0.1) (10.1, 0.1)).
  - repeat split; vm_compute; congruence.
  - vm_compute. tauto.
Defined.

(** ** Seeder and Filler *)


Section SeederFiller.

Variable rand : nat -> Q.
Variable rveSize : RveSize.

Hypothesis width_pos : 0 < rve_w rveSize.
Hypothesis height_pos : 0 < rve_h rveSize.
Hypothesis rand_range : forall n, 0 <= rand n /\ rand n < 1.





End SeederFiller.


Section Draws.

Variable rand : nat -> Q.





End Draws.

(** ** Relaxer and Corrector: forces, untouched points, fixed points *)




Section Forces.

Variable math_sqrt : Q -> Q.



End Forces.


Lemma modify_item_other {A} (l : list A) i f l' k :
  modify_item l i f = Ok l' -> k <> i -> l' !! k = l !! k.
Proof.
  intros H Hk. apply modify_item_Ok in H as (a & a' & _ & _ & ->).
  by apply list_lookup_insert_ne.
Qed.

Lemma move_fiber_other rveSize seeding_count net_forces coords mx i st k :
  move_fiber rveSize seeding_count net_forces (coords, mx) i = Ok st ->
  k <> i -> st.1 !! k = coords !! k.
Proof.
  unfold move_fiber. intros H Hk.
  apply bind_Ok_inv in H as (f & _ & H).
  apply bind_Ok_inv in H as (c1 & H1 & H).
  apply bind_Ok_inv in H as (c2 & H2 & H).
  apply bind_Ok_inv in H as (c3 & H3 & H).
  apply bind_Ok_inv in H as (c4 & H4 & H). ok_inv H. subst st. cbn [fst].
  rewrite (modify_item_other _ _ _ _ k H4 Hk),
    (modify_item_other _ _ _ _ k H3 Hk), (modify_item_other _ _ _ _ k H2 Hk).
  exact (modify_item_other _ _ _ _ k H1 Hk).
Qed.

Lemma foldlM_same {A S} (f : S -> A -> result S) s l :
  (forall a, a ∈ l -> f s a = Ok s) -> foldlM f s l = Ok s.
Proof.
  induction l as [|a l IH]; intros H; cbn [foldlM]; [done|].
  rewrite (H a) by apply list_elem_of_here. cbn [mbind result_bind].
  apply IH. intros b Hb. apply H. by apply list_elem_of_further.
Qed.

Lemma any_force_replicate_zero n : any_force (replicate n (0, 0)) = false.
Proof. induction n as [|n IH]; [done|]. exact IH. Qed.

Lemma max_correction_iter_succ :
  Z.to_nat max_correction_iter = S (Nat.pred (Z.to_nat max_correction_iter)).
Proof. unfold max_correction_iter. lia. Qed.

Lemma max_iterations_succ : max_iterations = S (Nat.pred max_iterations).
Proof. unfold max_iterations. lia. Qed.

Section UntouchedAndFixed.

Variable math_sqrt : Q -> Q.

Lemma relax_iteration_other seeding_count n rveSize fiberRadius minDistance
    iter_num coords r k :
  relax_iteration math_sqrt seeding_count n rveSize fiberRadius minDistance
    iter_num coords = Ok r ->
  (n <= k)%nat ->
  (match r with inl (c, _) | inr c => c end) !! k = coords !! k.
Proof.
  unfold relax_iteration. intros H Hk.
  apply bind_Ok_inv in H as (net_forces & _ & H).
  destruct (any_force net_forces); cbn [negb] in H; [|ok_inv H; by subst r].
  apply bind_Ok_inv in H as ([c mx] & Hm & H).
  assert (Hc : c !! k = coords !! k).
  { change c with (c, mx).1.
    refine (foldlM_ind
              (fun pre st => Forall (fun i => (i < n)%nat) pre ->
                             st.1 !! k = coords !! k)
              _ _ _ _ _ _ Hm _).
    - done.
    - intros pre i [c1 mx1] st2 IH Hstep Hpre.
      apply Forall_app in Hpre as [Hpre Hi].
      apply Forall_inv in Hi.
      rewrite (move_fiber_other _ _ _ _ _ _ _ k Hstep) by lia. by apply IH.
    - apply Forall_forall. intros i Hi. apply elem_of_seq in Hi. lia. }
  destruct (Qltb mx _); ok_inv H; by subst r.
Qed.

Lemma relax_loop_other fuel seeding_count n rveSize fiberRadius minDistance
    iter_num coords out k :
  relax_loop math_sqrt fuel seeding_count n rveSize fiberRadius minDistance
    iter_num coords = Ok out ->
  (n <= k)%nat -> out.1 !! k = coords !! k.
Proof.
  revert iter_num coords. induction fuel as [|fuel IH];
    intros iter_num coords H Hk; cbn [relax_loop] in H.
  - ok_inv H. by subst out.
  - apply bind_Ok_inv in H as (r & Hr & H).
    pose proof (relax_iteration_other _ _ _ _ _ _ _ _ k Hr Hk) as Ho.
    destruct r as [[c e]|c]; [ok_inv H; by subst out|].
    rewrite (IH _ _ H Hk). exact Ho.
Qed.

Lemma enforce_loop_other fuel rveSize minDistance n coords r k :
  enforce_loop math_sqrt fuel rveSize minDistance n coords = Ok r ->
  (n <= k)%nat ->
  (match r with inl c | inr c => c end) !! k = coords !! k.
Proof.
  revert coords. induction fuel as [|fuel IH]; intros coords H Hk;
    cbn [enforce_loop] in H.
  - ok_inv H. by subst r.
  - apply bind_Ok_inv in H as (r1 & Hr & H). destruct r1 as [c|c].
    + ok_inv H. subst r. by apply enforce_iteration_inl in Hr as [-> _].
    + rewrite (IH _ H Hk). apply enforce_iteration_inr in Hr
        as (i & j & dx & dy & _ & Hij & _ & _ & _ & Hp).
      apply push_apart_Ok in Hp; [|lia]. cbn zeta in Hp.
      destruct Hp as (pi & pj & ux & uy & xi & yi & xj & yj & Hp).
      destruct Hp as (_ & _ & _ & _ & _ & _ & _ & _ & ->).
      rewrite !list_lookup_insert_ne by lia. done.
Qed.

(** X6.  Neither the Relaxer nor the Corrector touches a point whose index
    is [fiberCount] or more: such entries of the returned list are the
    entries of the input. *)
Theorem points_beyond_fiber_count_untouched
    coords seeding_count fiberCount rveSize fiberRadius minDistance k :
  (Z.to_nat fiberCount <= k)%nat ->
  (forall out,
     _relax_coords_anchored math_sqrt coords seeding_count fiberCount rveSize
       fiberRadius minDistance = Ok out ->
     out !! k = coords !! k)
  /\ (forall out,
        _final_check_and_enforce math_sqrt coords fiberCount rveSize
          minDistance = Ok out ->
        out !! k = coords !! k).
Proof.
  intros Hk. split; intros out H.
  - unfold _relax_coords_anchored, _relax_coords_anchored_trace in H.
    apply bind_Ok_inv in H as (tr & Hr & H). ok_inv H. subst out.
    by eapply relax_loop_other.
  - unfold _final_check_and_enforce in H.
    apply bind_Ok_inv in H as (r & Hl & H).
    pose proof (enforce_loop_other _ _ _ _ _ _ k Hl Hk) as Ho.
    destruct r as [c|c].
    + ok_inv H. by subst c.
    + by apply final_verification_Ok in H as [-> _].
Qed.

Lemma find_worst_total rveSize n coords :
  (forall i j, (i < j < n)%nat -> is_Ok (pair_delta rveSize coords i j)) ->
  is_Ok (find_worst rveSize n coords).
Proof.
  intros Hp. unfold find_worst.
  destruct (foldlM_total (fun _ => True)
              (fun ij : nat * nat => (ij.1 < ij.2 < n)%nat)
              (scan_pair rveSize coords) (None, None) (index_pairs n))
    as (st & Hst & _); [done| | |by exists st].
  - apply Forall_forall. intros [i j] Hin. by apply elem_of_index_pairs.
  - intros [i j] st Hij _. cbn [fst snd] in Hij.
    destruct (Hp i j Hij) as [d Hd]. unfold scan_pair. rewrite Hd.
    cbn [mbind result_bind]. destruct (lt_inf _ _); eauto.
Qed.

Lemma enforce_iteration_satisfied rveSize minDistance n coords :
  min_distance_satisfied rveSize minDistance n coords ->
  enforce_iteration math_sqrt rveSize minDistance n coords = Ok (inl coords).
Proof.
  intros Hs. unfold enforce_iteration.
  destruct (find_worst_total rveSize n coords) as [[m w] Hf].
  { intros i j Hij. destruct (Hs i j Hij) as (d & Hd & _). by exists d. }
  rewrite Hf. cbn [mbind result_bind].
  apply find_worst_inv in Hf as [_ Hw].
  destruct m as [m|]; [|done].
  destruct w as [[[[i j] dx] dy]|]; [|done].
  destruct Hw as (Hin & Hd & ->). apply elem_of_index_pairs in Hin.
  destruct (Hs i j Hin) as (d & Hd' & Hle). rewrite Hd in Hd'.
  injection Hd' as <-. cbn [inf_ge]. apply Qleb_le in Hle. by rewrite Hle.
Qed.

Lemma compute_net_forces_satisfied rveSize minDistance n coords :
  min_distance_satisfied rveSize minDistance n coords ->
  compute_net_forces math_sqrt rveSize minDistance n coords
  = Ok (replicate n (0, 0)).
Proof.
  intros Hs. unfold compute_net_forces. apply foldlM_same.
  intros [i j] Hij. apply elem_of_index_pairs in Hij.
  destruct (Hs i j Hij) as (d & Hd & Hle). unfold accumulate_force.
  rewrite Hd. cbn [mbind result_bind]. apply Qltb_ge in Hle. by rewrite Hle.
Qed.

(** X7.  A list whose first [fiberCount] points already keep the minimum
    distance is a fixed point of both stages: the Relaxer returns it at
    once ("System stable") and the Corrector returns it after its first
    scan.  Hence what the Corrector returns, the Corrector and the Relaxer
    return unchanged. *)
Theorem satisfied_list_is_fixed_point
    coords seeding_count fiberCount rveSize fiberRadius minDistance :
  min_distance_satisfied rveSize minDistance (Z.to_nat fiberCount) coords ->
  _relax_coords_anchored_trace math_sqrt coords seeding_count fiberCount
    rveSize fiberRadius minDistance = Ok (coords, SystemStable 0)
  /\ _final_check_and_enforce math_sqrt coords fiberCount rveSize minDistance
     = Ok coords.
Proof.
  intros Hs. split.
  - unfold _relax_coords_anchored_trace. rewrite max_iterations_succ.
    cbn [relax_loop]. unfold relax_iteration.
    rewrite compute_net_forces_satisfied by done. cbn [mbind result_bind].
    by rewrite any_force_replicate_zero.
  - unfold _final_check_and_enforce. rewrite max_correction_iter_succ.
    cbn [enforce_loop]. rewrite enforce_iteration_satisfied by done.
    reflexivity.
Qed.

(** X8.  The Corrector is idempotent: applied to a list it returned, with
    the same arguments, it returns that list; and so does the Relaxer. *)
Theorem corrector_is_idempotent
    coords_in seeding_count fiberCount rveSize fiberRadius minDistance out :
  _final_check_and_enforce math_sqrt coords_in fiberCount rveSize minDistance
  = Ok out ->
  _final_check_and_enforce math_sqrt out fiberCount rveSize minDistance
  = Ok out
  /\ _relax_coords_anchored math_sqrt out seeding_count fiberCount rveSize
       fiberRadius minDistance = Ok out.
Proof.
  intros H. apply final_check_Ok_inv in H as [_ Hs]. split.
  - unfold _final_check_and_enforce. rewrite max_correction_iter_succ.
    cbn [enforce_loop]. rewrite enforce_iteration_satisfied by done.
    reflexivity.
  - unfold _relax_coords_anchored, _relax_coords_anchored_trace.
    rewrite max_iterations_succ. cbn [relax_loop]. unfold relax_iteration.
    rewrite compute_net_forces_satisfied by done. cbn [mbind result_bind].
    by rewrite any_force_replicate_zero.
Qed.

End UntouchedAndFixed.

Lemma points_beyond_fiber_count_untouched_witness :
  (Z.to_nat 2 <= 2)%nat
  /\ exists out1 out2,
       _relax_coords_anchored sqrt_upper [(1, 1); (2, 2); (2, 1)] 0 2
         (mkRve 10 10 1) 1 2.1 = Ok out1
       /\ _final_check_and_enforce sqrt_upper [(1, 1); (2, 2); (2, 1)] 2
            (mkRve 10 10 1) 2.1 = Ok out2
       /\ out1 !! 0%nat <> Some (1, 1)
       /\ out2 !! 0%nat <> Some (1, 1)
       /\ out1 !! 2%nat = [(1, 1); (2, 2); (2, 1)] !! 2%nat
       /\ out2 !! 2%nat = [(1, 1); (2, 2); (2, 1)] !! 2%nat.
Proof.
  split; [vm_compute; lia|].
  eexists _, _.
  split; [vm_compute; reflexivity|]. split; [vm_compute; reflexivity|].
  split; [vm_compute; discriminate|]. split; [vm_compute; discriminate|].
  split.
  - apply (proj1 (points_beyond_fiber_count_untouched sqrt_upper
                    [(1, 1); (2, 2); (2, 1)] 0 2 (mkRve 10 10 1) 1 2.1 2%nat
                    ltac:(vm_compute; lia))).
    vm_compute. reflexivity.
  - apply (proj2 (points_beyond_fiber_count_untouched sqrt_upper
                    [(1, 1); (2, 2); (2, 1)] 0 2 (mkRve 10 10 1) 1 2.1 2%nat
                    ltac:(vm_compute; lia))).
    vm_compute. reflexivity.
Defined.

Lemma satisfied_list_is_fixed_point_witness :
  min_distance_satisfied (mkRve 10 10 1) 2.1 (Z.to_nat 2) [(1, 1); (5, 5)]
  /\ _relax_coords_anchored_trace sqrt_upper [(1, 1); (5, 5)] 0 2
       (mkRve 10 10 1) 1 2.1 = Ok ([(1, 1); (5, 5)], SystemStable 0)
  /\ _final_check_and_enforce sqrt_upper [(1, 1); (5, 5)] 2 (mkRve 10 10 1)
       2.1 = Ok [(1, 1); (5, 5)].
Proof.
  assert (Hs : min_distance_satisfied (mkRve 10 10 1) 2.1 (Z.to_nat 2)
                 [(1, 1); (5, 5)]).
  { intros i j Hij. assert (i = 0%nat /\ j = 1%nat) as [-> ->]
      by (vm_compute in Hij; lia).
    eexists. split; [vm_compute; reflexivity|]. vm_compute. discriminate. }
  split; [exact Hs|].
  exact (satisfied_list_is_fixed_point sqrt_upper [(1, 1); (5, 5)] 0 2
           (mkRve 10 10 1) 1 2.1 Hs).
Defined.

Lemma corrector_is_idempotent_witness :
  exists out,
    _final_check_and_enforce sqrt_upper [(1, 1); (2, 2); (7, 7)] 2
      (mkRve 10 10 1) 2.1 = Ok out
    /\ out !! 0%nat <> Some (1, 1)
    /\ _final_check_and_enforce sqrt_upper out 2 (mkRve 10 10 1) 2.1 = Ok out
    /\ _relax_coords_anchored sqrt_upper out 0 2 (mkRve 10 10 1) 1 2.1
       = Ok out.
Proof.
  eexists. split; [vm_compute; reflexivity|].
  split; [vm_compute; discriminate|].
  apply (corrector_is_idempotent sqrt_upper [(1, 1); (2, 2); (7, 7)] 0 2
           (mkRve 10 10 1) 1 2.1).
  vm_compute. reflexivity.
Defined.

(** ** Verifier *)

Section VerifierScan.

Variable math_sqrt : Q -> Q.

Lemma pair_distance_fun rveSize coords ij d1 d2 :
  pair_distance math_sqrt rveSize coords ij d1 ->
  pair_distance math_sqrt rveSize coords ij d2 -> d1 = d2.
Proof. intros (dl1 & H1 & ->) (dl2 & H2 & ->). congruence. Qed.

Lemma verify_pair_inv coords rveSize minDistance pre st ij st' :
  verifier_scan_inv math_sqrt rveSize minDistance coords pre st ->
  verify_pair math_sqrt coords rveSize minDistance st ij = Ok st' ->
  verifier_scan_inv math_sqrt rveSize minDistance coords (pre ++ [ij]) st'.
Proof.
  intros (Ht & Hd & (vp & Hsub & Hv & Hall) & Hmin & Hmax0 & Hmax & Hmaxin) H.
  destruct ij as [i j]. unfold verify_pair in H.
  apply bind_Ok_inv in H as (dl & Hdl & H).
  change (dl.1 * dl.1 + dl.2 * dl.2) with (dist_sq_of dl) in H.
  set (dist := math_sqrt (dist_sq_of dl)) in *.
  assert (Hpd : pair_distance math_sqrt rveSize coords (i, j) dist)
    by (exists dl; done).
  assert (Hst : exists viols',
    st' = mkVerifierScan
            (if lt_inf dist (min_distance_found st) then Some dist
             else min_distance_found st)
            (if Qltb (max_distance_found st) dist then dist
             else max_distance_found st)
            (S (scan_total_pairs st)) viols' (all_distances st ++ [dist])
    /\ ((dist < minDistance
         /\ exists v, violation_recorded math_sqrt rveSize minDistance coords
                        (i, j) v
                      /\ viols' = violating_pairs st ++ [v])
        \/ (minDistance <= dist /\ viols' = violating_pairs st))).
  { destruct (Qltb dist minDistance) eqn:E.
    - apply bind_Ok_inv in H as (ci & Hci & H).
      apply bind_Ok_inv in H as (cj & Hcj & H). ok_inv H.
      apply get_item_Ok in Hci, Hcj. apply Qltb_lt in E.
      eexists. split; [symmetry; exact H|]. left. split; [done|].
      eexists. split; [|reflexivity]. by repeat split.
    - ok_inv H. apply Qltb_ge in E. eexists. split; [symmetry; exact H|].
      right. by split. }
  clear H. destruct Hst as (viols' & -> & Hviol). clearbody dist.
  unfold verifier_scan_inv. cbn [scan_total_pairs all_distances
    violating_pairs min_distance_found max_distance_found].
  split; [rewrite length_app; cbn; lia|].
  split; [apply Forall2_app; [done|by constructor]|].
  split.
  { destruct Hviol as [(Hlt & v & Hrec & ->)|[Hge ->]].
    - exists (vp ++ [(i, j)]). split; [by apply sublist_app|].
      split; [apply Forall2_app; [done|by constructor]|].
      intros ij d Hin Hp Hl. apply elem_of_app in Hin as [Hin|Hin].
      + apply elem_of_app. left. by eapply Hall.
      + apply elem_of_app. by right.
    - exists vp. split; [by apply sublist_inserts_r|]. split; [done|].
      intros ij d Hin Hp Hl. apply elem_of_app in Hin as [Hin|Hin].
      + by eapply Hall.
      + apply list_elem_of_singleton in Hin as ->.
        rewrite (pair_distance_fun _ _ _ _ _ Hp Hpd) in Hl. lra. }
  split.
  { destruct (min_distance_found st) as [m|]; cbn [lt_inf].
    - destruct Hmin as [Hin Hle]. destruct (Qltb dist m) eqn:E; Qbool.
      + split; [apply elem_of_app; right; by apply list_elem_of_singleton|].
        apply Forall_app. split; [|constructor; [lra|constructor]].
        eapply Forall_impl; [exact Hle|]. cbn. intros x Hx. lra.
      + split; [apply elem_of_app; by left|].
        apply Forall_app. split; [done|]. constructor; [done|constructor].
    - subst pre. inversion Hd; subst. cbn.
      split; [by apply list_elem_of_singleton|].
      constructor; [lra|constructor]. }
  destruct (Qltb (max_distance_found st) dist) eqn:E; Qbool.
  - split; [lra|]. split.
    + apply Forall_app. split; [|constructor; [lra|constructor]].
      eapply Forall_impl; [exact Hmax|]. cbn. intros x Hx. lra.
    + right. apply elem_of_app. right. by apply list_elem_of_singleton.
  - split; [done|]. split.
    + apply Forall_app. split; [done|]. constructor; [done|constructor].
    + destruct Hmaxin as [->|Hin]; [by left|].
      right. apply elem_of_app. by left.
Qed.

Lemma verify_scan_inv coords rveSize minDistance st :
  verify_scan math_sqrt coords rveSize minDistance = Ok st ->
  verifier_scan_inv math_sqrt rveSize minDistance coords
    (index_pairs (length coords)) st.
Proof.
  unfold verify_scan.
  apply (foldlM_ind (verifier_scan_inv math_sqrt rveSize minDistance coords)).
  - unfold verifier_scan_inv. cbn. split; [done|]. split; [constructor|].
    split.
    + exists []. split; [constructor|]. split; [constructor|].
      intros ij d Hin. by apply elem_of_nil in Hin.
    + split; [done|]. split; [lra|]. split; [constructor|by left].
  - intros pre ij s1 s2 Hinv Hstep. by eapply verify_pair_inv.
Qed.

Lemma verify_scan_total coords rveSize minDistance :
  is_Ok (verify_scan math_sqrt coords rveSize minDistance).
Proof.
  unfold verify_scan.
  destruct (foldlM_total (fun _ => True)
              (fun ij : nat * nat => (ij.1 < ij.2 < length coords)%nat)
              (verify_pair math_sqrt coords rveSize minDistance)
              (mkVerifierScan None 0 O [] [])
              (index_pairs (length coords))) as (st & Hst & _);
    [done| | |by exists st].
  - apply Forall_forall. intros [i j] Hin. by apply elem_of_index_pairs.
  - intros [i j] st Hij _. cbn [fst snd] in Hij. unfold verify_pair.
    destruct (get_item_lt coords i) as [ci Hci]; [lia|].
    destruct (get_item_lt coords j) as [cj Hcj]; [lia|].
    unfold pair_delta. rewrite Hcj, Hci. cbn [mbind result_bind mret result_ret].
    destruct (Qltb _ minDistance); eauto.
Qed.

End VerifierScan.

(** The two sorts of the Verifier. *)

Lemma insert_Q_perm x l : insert_Q x l ≡ₚ x :: l.
Proof.
  induction l as [|y l IH]; cbn; [done|].
  destruct (Qltb y x); [|done]. rewrite IH. apply Permutation_swap.
Qed.

Lemma sort_Q_perm l : sort_Q l ≡ₚ l.
Proof.
  induction l as [|x l IH]; cbn; [done|].
  fold (sort_Q l). by rewrite insert_Q_perm, IH.
Qed.

Lemma insert_violation_perm v l : insert_violation v l ≡ₚ v :: l.
Proof.
  induction l as [|w l IH]; cbn; [done|].
  destruct (Qltb _ _); [|done]. rewrite IH. apply Permutation_swap.
Qed.

Lemma sort_violations_perm l : sort_violations l ≡ₚ l.
Proof.
  induction l as [|x l IH]; cbn; [done|].
  fold (sort_violations l). by rewrite insert_violation_perm, IH.
Qed.

Lemma insert_violation_sorted v l :
  StronglySorted (fun a b => violation b <= violation a) l ->
  StronglySorted (fun a b => violation b <= violation a)
    (insert_violation v l).
Proof.
  induction 1 as [|w l Hl IH Hw]; cbn; [repeat constructor|].
  destruct (Qltb (violation v) (violation w)) eqn:E; Qbool.
  - constructor; [done|]. rewrite insert_violation_perm.
    constructor; [lra|done].
  - constructor; [by constructor|]. constructor; [done|].
    eapply Forall_impl; [exact Hw|]. cbn. intros x Hx. lra.
Qed.

Lemma sort_violations_sorted l :
  StronglySorted (fun a b => violation b <= violation a) (sort_violations l).
Proof.
  induction l as [|x l IH]; cbn; [constructor|].
  by apply insert_violation_sorted.
Qed.

(** The scan order. *)

Lemma flat_map_pairs_length n k a :
  (a + k = n)%nat ->
  (2 * length (flat_map (fun i => map (pair i) (seq (S i) (n - S i)))
                 (seq a k)) = k * (k - 1))%nat.
Proof.
  revert a. induction k as [|k IH]; intros a Ha; [done|].
  cbn [seq flat_map]. rewrite length_app, length_map, length_seq.
  specialize (IH (S a) ltac:(lia)).
  replace (n - S a)%nat with k by lia.
  replace (S k - 1)%nat with k by lia.
  destruct k as [|k]; [cbn in *; lia|].
  replace (S k - 1)%nat with k in IH by lia. nia.
Qed.

Lemma index_pairs_length n :
  (2 * length (index_pairs n) = n * (n - 1))%nat.
Proof. unfold index_pairs. by apply flat_map_pairs_length. Qed.

Lemma NoDup_flat_map_pair (f : nat -> list nat) l :
  NoDup l -> (forall i, NoDup (f i)) ->
  NoDup (flat_map (fun i => map (pair i) (f i)) l).
Proof.
  intros Hl Hf. induction Hl as [|a l Ha Hl IH]; cbn [flat_map]; [constructor|].
  apply NoDup_app. split; [|split; [|done]].
  - by apply (NoDup_fmap_2 (pair a)).
  - intros [i j] Hin Hin'.
    apply list_elem_of_fmap in Hin as (j' & [= -> ->] & _).
    apply list_elem_of_In, in_flat_map in Hin' as (i' & Hi' & Hin').
    apply in_map_iff in Hin' as (j'' & [= -> ->] & _).
    by apply list_elem_of_In in Hi'.
Qed.

Lemma NoDup_index_pairs n : NoDup (index_pairs n).
Proof.
  unfold index_pairs.
  apply (NoDup_flat_map_pair (fun i => seq (S i) (n - S i)));
    [apply NoDup_seq | intros i; apply NoDup_seq].
Qed.

(** [sum] between the bounds of the summands. *)


Section VerifierResults.

Variable math_sqrt : Q -> Q.

Lemma verifier_two_or_more cs rveSize fiberRadius minDistanceFactor :
  (2 <= length cs)%nat ->
  verifyMinimumFiberDistance3D math_sqrt cs rveSize fiberRadius
    minDistanceFactor
  = (st ← verify_scan math_sqrt cs rveSize (minDistanceFactor * fiberRadius);
     avg ← py_div (py_sum (all_distances st))
             (inject_Z (Z.of_nat (length (all_distances st))));
     median ← get_item (sort_Q (all_distances st))
                (length (sort_Q (all_distances st)) / 2);
     ratio ← inf_div (min_distance_found st) (minDistanceFactor * fiberRadius);
     mret (match violating_pairs st with [] => true | _ => false end,
           FullStats
             (mkDistanceStats (length cs) (scan_total_pairs st)
                (min_distance_found st) (max_distance_found st) avg median
                (minDistanceFactor * fiberRadius) ratio
                (length (violating_pairs st))
                (sort_violations (violating_pairs st))))).
Proof.
  destruct cs as [|c1 [|c2 rest]]; cbn [length]; intros; [lia..|reflexivity].
Qed.

Lemma index_pairs_nonempty n : (2 <= n)%nat -> index_pairs n <> [].
Proof.
  intros Hn E. pose proof (index_pairs_length n) as H. rewrite E in H.
  cbn [length] in H. nia.
Qed.

(** The scan of two or more centers, and the three values computed from
    [all_distances]. *)
Lemma verifier_scan_facts cs rveSize minDistance :
  (2 <= length cs)%nat ->
  exists st m median,
    verify_scan math_sqrt cs rveSize minDistance = Ok st
    /\ verifier_scan_inv math_sqrt rveSize minDistance cs
         (index_pairs (length cs)) st
    /\ min_distance_found st = Some m
    /\ py_div (py_sum (all_distances st))
         (inject_Z (Z.of_nat (length (all_distances st))))
       = Ok (py_sum (all_distances st)
             / inject_Z (Z.of_nat (length (all_distances st))))
    /\ 0 < inject_Z (Z.of_nat (length (all_distances st)))
    /\ get_item (sort_Q (all_distances st))
         (length (sort_Q (all_distances st)) / 2) = Ok median
    /\ median ∈ all_distances st.
Proof.
  intros Hn. destruct (verify_scan_total math_sqrt cs rveSize minDistance)
    as [st Hst].
  pose proof (verify_scan_inv _ _ _ _ _ Hst) as Hinv.
  pose proof Hinv as (_ & Hd & _ & Hmin & _).
  pose proof (index_pairs_nonempty _ Hn) as Hne.
  destruct (min_distance_found st) as [m|] eqn:Em; [|done].
  apply Forall2_length in Hd.
  assert (Hlen : (0 < length (all_distances st))%nat).
  { rewrite <- Hd. destruct (index_pairs (length cs)); [done|cbn; lia]. }
  assert (Hpos : 0 < inject_Z (Z.of_nat (length (all_distances st)))).
  { change 0 with (inject_Z 0). rewrite <- Zlt_Qlt. lia. }
  assert (Hs : (length (sort_Q (all_distances st)) / 2
                < length (sort_Q (all_distances st)))%nat).
  { rewrite (Permutation_length (sort_Q_perm (all_distances st))).
    apply Nat.div_lt; lia. }
  destruct (get_item_lt _ _ Hs) as [median Hmed].
  exists st, m, median. do 3 (split; [done|]). split; [|split; [done|]].
  - unfold py_div.
    destruct (Qeqb (inject_Z (Z.of_nat (length (all_distances st)))) 0)
      eqn:E; [|done].
    Qbool. lra.
  - split; [done|].
    apply get_item_Ok in Hmed. rewrite <- (sort_Q_perm (all_distances st)).
    by eapply list_elem_of_lookup_2.
Qed.

Lemma verifier_returns_aux cs rveSize fiberRadius minDistanceFactor :
  (2 <= length cs)%nat ->
  ~ minDistanceFactor * fiberRadius == 0 ->
  exists st m median,
    verifier_scan_inv math_sqrt rveSize (minDistanceFactor * fiberRadius) cs
      (index_pairs (length cs)) st
    /\ min_distance_found st = Some m
    /\ median ∈ all_distances st
    /\ 0 < inject_Z (Z.of_nat (length (all_distances st)))
    /\ verifyMinimumFiberDistance3D math_sqrt cs rveSize fiberRadius
         minDistanceFactor
       = Ok (match violating_pairs st with [] => true | _ => false end,
             FullStats
               (mkDistanceStats (length cs) (scan_total_pairs st) (Some m)
                  (max_distance_found st)
                  (py_sum (all_distances st)
                   / inject_Z (Z.of_nat (length (all_distances st))))
                  median (minDistanceFactor * fiberRadius)
                  (Some (m / (minDistanceFactor * fiberRadius)))
                  (length (violating_pairs st))
                  (sort_violations (violating_pairs st)))).
Proof.
  intros Hn Hz.
  destruct (verifier_scan_facts cs rveSize (minDistanceFactor * fiberRadius)
              Hn) as (st & m & median & Hst & Hinv & Hm & Havg & Hpos & Hmed
                      & Hin).
  exists st, m, median. repeat (split; [done|]).
  rewrite verifier_two_or_more by done. rewrite Hst.
  cbn [mbind result_bind]. rewrite Havg. cbn [mbind result_bind].
  rewrite Hmed. cbn [mbind result_bind]. rewrite Hm. unfold inf_div, py_div.
  apply Qeqb_neq in Hz. rewrite Hz. reflexivity.
Qed.

Lemma verifier_Ok_inv cs rveSize fiberRadius minDistanceFactor passed stats :
  (2 <= length cs)%nat ->
  verifyMinimumFiberDistance3D math_sqrt cs rveSize fiberRadius
    minDistanceFactor = Ok (passed, stats) ->
  exists st m median,
    verifier_scan_inv math_sqrt rveSize (minDistanceFactor * fiberRadius) cs
      (index_pairs (length cs)) st
    /\ min_distance_found st = Some m
    /\ median ∈ all_distances st
    /\ 0 < inject_Z (Z.of_nat (length (all_distances st)))
    /\ passed = match violating_pairs st with [] => true | _ => false end
    /\ stats = FullStats
                 (mkDistanceStats (length cs) (scan_total_pairs st) (Some m)
                    (max_distance_found st)
                    (py_sum (all_distances st)
                     / inject_Z (Z.of_nat (length (all_distances st))))
                    median (minDistanceFactor * fiberRadius)
                    (Some (m / (minDistanceFactor * fiberRadius)))
                    (length (violating_pairs st))
                    (sort_violations (violating_pairs st))).
Proof.
  intros Hn H.
  destruct (Qeq_dec (minDistanceFactor * fiberRadius) 0) as [Hz|Hz].
  - exfalso.
    destruct (verifier_scan_facts cs rveSize (minDistanceFactor * fiberRadius)
                Hn) as (st & m & median & Hst & _ & Hm & Havg & _ & Hmed & _).
    rewrite verifier_two_or_more in H by done. rewrite Hst in H.
    cbn [mbind result_bind] in H. rewrite Havg in H.
    cbn [mbind result_bind] in H. rewrite Hmed in H.
    cbn [mbind result_bind] in H. rewrite Hm in H. unfold inf_div, py_div in H.
    apply Qeqb_eq in Hz. rewrite Hz in H. discriminate.
  - destruct (verifier_returns_aux cs rveSize fiberRadius minDistanceFactor
                Hn Hz) as (st & m & median & Hinv & Hm & Hin & Hpos & Heq).
    rewrite Heq in H. exists st, m, median.
    repeat (split; [done|]). split; congruence.
Qed.

Lemma verifier_verdict_aux cs rveSize minDistance st :
  verifier_scan_inv math_sqrt rveSize minDistance cs
    (index_pairs (length cs)) st ->
  match violating_pairs st with [] => true | _ => false end = true
  <-> forall i j d, (i < j < length cs)%nat ->
        pair_distance math_sqrt rveSize cs (i, j) d -> minDistance <= d.
Proof.
  intros (_ & _ & (vp & Hsub & Hv & Hall) & _). split.
  - intros Hp i j d Hij Hd. destruct (Qlt_le_dec d minDistance) as [Hlt|]; [|done].
    exfalso. destruct (violating_pairs st); [|done].
    apply Forall2_nil_inv_r in Hv. subst vp.
    apply elem_of_index_pairs in Hij.
    by apply (Hall _ _ Hij Hd), elem_of_nil in Hlt.
  - intros Hp. destruct Hv as [|[i j] v vp' viols' Hrec _]; [done|]. exfalso.
    destruct Hrec as (_ & _ & _ & _ & Hd & Hlt & _).
    assert (Hin : (i, j) ∈ index_pairs (length cs)).
    { eapply elem_of_sublist; [|exact Hsub]. apply list_elem_of_here. }
    apply elem_of_index_pairs in Hin. specialize (Hp i j _ Hin Hd). lra.
Qed.

(** X9.  When the Verifier returns, its verdict is [True] exactly when
    every pair of the centers it was given is at least
    [minDistanceFactor * fiberRadius] apart, the distance of a pair being
    [math.sqrt] of the squared length of its periodic difference vector. *)
Theorem verifier_passes_iff_all_pairs_apart
    cs rveSize fiberRadius minDistanceFactor passed stats :
  verifyMinimumFiberDistance3D math_sqrt cs rveSize fiberRadius
    minDistanceFactor = Ok (passed, stats) ->
  passed = true
  <-> forall i j d, (i < j < length cs)%nat ->
        pair_distance math_sqrt rveSize cs (i, j) d ->
        minDistanceFactor * fiberRadius <= d.
Proof.
  intros H. destruct (le_lt_dec 2 (length cs)) as [Hn|Hn].
  - apply verifier_Ok_inv in H as (st & m & median & Hinv & _ & _ & _ & -> & _);
      [|done].
    by apply verifier_verdict_aux.
  - assert (passed = true) as ->.
    { destruct cs as [|c1 [|c2 rest]]; cbn in H, Hn;
        unfold mret, result_ret in H; [congruence..|lia]. }
    split; [|done]. intros _ i j d Hij. lia.
Qed.

(** X10.  The Verifier returns [True] for fewer than two centers.  For two
    or more it raises [ZeroDivisionError] when the required distance
    [minDistanceFactor * fiberRadius] is zero, and otherwise returns the
    full statistics. *)
Theorem verifier_raises_only_for_zero_distance
    cs rveSize fiberRadius minDistanceFactor :
  ((length cs < 2)%nat ->
   exists stats,
     verifyMinimumFiberDistance3D math_sqrt cs rveSize fiberRadius
       minDistanceFactor = Ok (true, stats))
  /\ ((2 <= length cs)%nat ->
      (minDistanceFactor * fiberRadius == 0 ->
       verifyMinimumFiberDistance3D math_sqrt cs rveSize fiberRadius
         minDistanceFactor = Raise ZeroDivisionError)
      /\ (~ minDistanceFactor * fiberRadius == 0 ->
          exists passed s,
            verifyMinimumFiberDistance3D math_sqrt cs rveSize fiberRadius
              minDistanceFactor = Ok (passed, FullStats s))).
Proof.
  split; [|split].
  - intros Hn. destruct cs as [|c1 [|c2 rest]]; cbn in Hn; [by eexists..|lia].
  - intros Hz.
    destruct (verifier_scan_facts cs rveSize (minDistanceFactor * fiberRadius)
                H) as (st & m & median & Hst & _ & Hm & Havg & _ & Hmed & _).
    rewrite verifier_two_or_more by done. rewrite Hst.
    cbn [mbind result_bind]. rewrite Havg. cbn [mbind result_bind].
    rewrite Hmed. cbn [mbind result_bind]. rewrite Hm. unfold inf_div, py_div.
    apply Qeqb_eq in Hz. by rewrite Hz.
  - intros Hz.
    destruct (verifier_returns_aux cs rveSize fiberRadius minDistanceFactor
                H Hz) as (st & m & median & _ & _ & _ & _ & Heq).
    rewrite Heq. by eexists _, _.
Qed.

Lemma violation_keys vp viols rveSize minDistance cs :
  Forall2 (violation_recorded math_sqrt rveSize minDistance cs) vp viols ->
  map (fun v => (fiber_i v, fiber_j v)) viols
  = map (fun ij : nat * nat => (S ij.1, S ij.2)) vp.
Proof.
  induction 1 as [|ij v vp viols Hrec _ IH]; [done|].
  destruct Hrec as (Hi & Hj & _). cbn [map]. by rewrite Hi, Hj, IH.
Qed.

(** X11.  The violations the Verifier reports are exactly the pairs that
    are closer than the required distance: every entry records such a pair
    [i < j] (numbered from 1) with its two centers, its distance and its
    shortfall [required - distance]; every such pair has an entry; no pair
    is entered twice; [violations_count] is the number of entries; and the
    entries are ordered by shortfall, largest first. *)
Theorem verifier_reports_every_violation
    cs rveSize fiberRadius minDistanceFactor passed s :
  verifyMinimumFiberDistance3D math_sqrt cs rveSize fiberRadius
    minDistanceFactor = Ok (passed, FullStats s) ->
  violations_count s = length (violations s)
  /\ NoDup (map (fun v => (fiber_i v, fiber_j v)) (violations s))
  /\ (forall v, v ∈ violations s ->
        exists i j, (i < j < length cs)%nat
          /\ violation_recorded math_sqrt rveSize
               (minDistanceFactor * fiberRadius) cs (i, j) v)
  /\ (forall i j d, (i < j < length cs)%nat ->
        pair_distance math_sqrt rveSize cs (i, j) d ->
        d < minDistanceFactor * fiberRadius ->
        exists v, v ∈ violations s /\ fiber_i v = S i /\ fiber_j v = S j)
  /\ StronglySorted (fun a b => violation b <= violation a) (violations s).
Proof.
  intros H. assert (Hn : (2 <= length cs)%nat).
  { destruct cs as [|c1 [|c2 rest]]; cbn in H |- *;
      unfold mret, result_ret in H; [congruence..|lia]. }
  apply verifier_Ok_inv in H as (st & m & median & Hinv & _ & _ & _ & _ & Hs);
    [|done].
  injection Hs as ->. cbn [violations_count violations].
  destruct Hinv as (_ & _ & (vp & Hsub & Hv & Hall) & _).
  pose proof (sort_violations_perm (violating_pairs st)) as Hperm.
  split; [by rewrite Hperm|]. split; [|split; [|split]].
  - change (NoDup ((fun v => (fiber_i v, fiber_j v))
                   <$> sort_violations (violating_pairs st))).
    rewrite Hperm.
    change (NoDup (map (fun v => (fiber_i v, fiber_j v)) (violating_pairs st))).
    rewrite (violation_keys _ _ _ _ _ Hv).
    assert (Hinj : Inj eq eq (fun ij : nat * nat => (S ij.1, S ij.2)))
      by (intros [a b] [c d] [= -> ->]; reflexivity).
    apply (NoDup_fmap_2 (fun ij : nat * nat => (S ij.1, S ij.2))).
    eapply sublist_NoDup; [apply NoDup_index_pairs|exact Hsub].
  - intros v Hin. rewrite Hperm in Hin.
    apply list_elem_of_lookup in Hin as [k Hk].
    destruct (Forall2_lookup_r _ _ _ _ _ Hv Hk) as ([i j] & Hij & Hrec).
    exists i, j. split; [|done]. apply elem_of_index_pairs.
    eapply elem_of_sublist; [|exact Hsub]. by eapply list_elem_of_lookup_2.
  - intros i j d Hij Hd Hlt. apply elem_of_index_pairs in Hij.
    pose proof (Hall _ _ Hij Hd Hlt) as Hin.
    apply list_elem_of_lookup in Hin as [k Hk].
    destruct (Forall2_lookup_l _ _ _ _ _ Hv Hk) as (v & Hvk & Hrec).
    exists v. split; [rewrite Hperm; by eapply list_elem_of_lookup_2|].
    destruct Hrec as (Hi & Hj & _). done.
  - apply sort_violations_sorted.
Qed.


End VerifierResults.

Lemma verifier_passes_iff_all_pairs_apart_witness :
  exists stats,
    verifyMinimumFiberDistance3D sqrt_upper [(1, 1); (5, 5); (1, 6)]
      (mkRve 10 10 1) 1 2.1 = Ok (true, stats)
    /\ (true = true
        <-> forall i j d, (i < j < 3)%nat ->
              pair_distance sqrt_upper (mkRve 10 10 1)
                [(1, 1); (5, 5); (1, 6)] (i, j) d ->
              2.1 * 1 <= d).
Proof.
  eexists. split; [vm_compute; reflexivity|].
  eapply (verifier_passes_iff_all_pairs_apart sqrt_upper
            [(1, 1); (5, 5); (1, 6)] (mkRve 10 10 1) 1 2.1 true).
  vm_compute. reflexivity.
Defined.

Lemma verifier_raises_only_for_zero_distance_witness :
  verifyMinimumFiberDistance3D sqrt_upper [(1, 1); (2, 2)] (mkRve 10 10 1) 0
    2.1 = Raise ZeroDivisionError
  /\ exists passed s,
       verifyMinimumFiberDistance3D sqrt_upper [(1, 1); (2, 2)]
         (mkRve 10 10 1) 1 2.1 = Ok (passed, FullStats s).
Proof.
  split.
  - apply (proj1 (proj2 (verifier_raises_only_for_zero_distance sqrt_upper
                           [(1, 1); (2, 2)] (mkRve 10 10 1) 0 2.1)
                    ltac:(cbn; lia))).
    vm_compute. reflexivity.
  - apply (proj2 (proj2 (verifier_raises_only_for_zero_distance sqrt_upper
                           [(1, 1); (2, 2)] (mkRve 10 10 1) 1 2.1)
                    ltac:(cbn; lia))).
    intros H. vm_compute in H. discriminate.
Defined.

Lemma verifier_reports_every_violation_witness :
  exists s,
    verifyMinimumFiberDistance3D sqrt_upper [(1, 1); (2, 2); (7, 7); (7.5, 7)]
      (mkRve 10 10 1) 1 2.1 = Ok (false, FullStats s)
    /\ violations_count s = 2%nat
    /\ violations_count s = length (violations s)
    /\ NoDup (map (fun v => (fiber_i v, fiber_j v)) (violations s))
    /\ (forall v, v ∈ violations s ->
          exists i j,
            (i < j < 4)%nat
            /\ violation_recorded sqrt_upper (mkRve 10 10 1) (2.1 * 1)
                 [(1, 1); (2, 2); (7, 7); (7.5, 7)] (i, j) v)
    /\ (forall i j d,
          (i < j < 4)%nat ->
          pair_distance sqrt_upper (mkRve 10 10 1)
            [(1, 1); (2, 2); (7, 7); (7.5, 7)] (i, j) d ->
          d < 2.1 * 1 ->
          exists v, v ∈ violations s /\ fiber_i v = S i /\ fiber_j v = S j)
    /\ StronglySorted (fun a b => violation b <= violation a) (violations s).
Proof.
  eexists. split; [vm_compute; reflexivity|]. split; [vm_compute; reflexivity|].
  apply (verifier_reports_every_violation sqrt_upper
           [(1, 1); (2, 2); (7, 7); (7.5, 7)] (mkRve 10 10 1) 1 2.1 false).
  vm_compute. reflexivity.
Defined.


(** ** Generation followed by verification *)


Section GenerationThenVerification.

Variable math_sqrt : Q -> Q.
Variable rand : nat -> Q.



End GenerationThenVerification.


(** ** Pairing of boundary nodes: the greedy choice *)

Lemma elem_of_list_remove_first x y pool :
  y ∈ list_remove_first x pool -> y ∈ pool.
Proof.
  induction pool as [|z pool IH]; cbn [list_remove_first]; [done|].
  destruct (decide (z = x)) as [->|Hne]; intros H.
  - by apply list_elem_of_further.
  - apply elem_of_cons in H as [->|H]; [apply list_elem_of_here|].
    apply list_elem_of_further. by apply IH.
Qed.

Section GreedyPairing.

Variable math_sqrt : Q -> Q.

Lemma nearest_match_inv tolerance coord_indices s_node master_pool st :
  foldlM (match_candidate math_sqrt tolerance coord_indices s_node)
         (None, None) master_pool = Ok st ->
  nearest_inv math_sqrt tolerance coord_indices s_node master_pool st.
Proof.
  apply foldlM_ind.
  { intros m d Hin. by apply elem_of_nil in Hin. }
  intros pre m [b d] st2 Hinv Hstep. unfold match_candidate in Hstep.
  apply bind_Ok_inv in Hstep as (dm & Hdm & Hstep). cbn [snd] in Hstep.
  destruct (Qltb dm tolerance && lt_inf dm d) eqn:E; ok_inv Hstep; subst st2.
  - apply andb_true_iff in E as [E1 E2]. apply Qltb_lt in E1.
    cbn [nearest_inv]. split; [done|]. split; [done|].
    intros m' d1 d' Hin H1 H'. cbn [fst snd] in H1, H'.
    assert (d1 = dm) as -> by congruence.
    apply elem_of_app in Hin as [Hin|Hin].
    + destruct b as [b|], d as [d|]; try done; cbn [nearest_inv lt_inf] in *.
      * destruct Hinv as (Hb & _ & Hn). apply Qltb_lt in E2.
        specialize (Hn m' d d' Hin Hb H'). lra.
      * specialize (Hinv m' d' Hin H'). lra.
    + apply list_elem_of_singleton in Hin as ->.
      assert (d' = dm) as -> by congruence. lra.
  - apply andb_false_iff in E.
    destruct b as [b|], d as [d|]; try done; cbn [nearest_inv lt_inf] in *.
    + destruct Hinv as (Hb & Hlt & Hn). split; [done|]. split; [done|].
      intros m' d1 d' Hin H1 H'. cbn [fst snd] in H1, H'.
      apply elem_of_app in Hin as [Hin|Hin]; [by eapply Hn|].
      apply list_elem_of_singleton in Hin as ->.
      assert (d1 = d) as -> by congruence.
      assert (d' = dm) as -> by congruence.
      destruct E as [E|E]; apply Qltb_ge in E; lra.
    + intros m' d' Hin H'. apply elem_of_app in Hin as [Hin|Hin];
        [by eapply Hinv|].
      apply list_elem_of_singleton in Hin as ->.
      assert (d' = dm) as -> by congruence.
      destruct E as [E|E]; [by apply Qltb_ge in E|done].
Qed.

Lemma pair_slave_greedy tolerance coord_indices pre st s_node st' :
  greedy_inv math_sqrt tolerance coord_indices pre st ->
  pair_slave math_sqrt tolerance coord_indices st s_node = Ok st' ->
  greedy_inv math_sqrt tolerance coord_indices (pre ++ [s_node]) st'.
Proof.
  destruct st as [paired pool]. intros (unmatched & Hperm & Hout & Hnear) H.
  unfold pair_slave in H. apply bind_Ok_inv in H as ([b d] & Hb & H).
  apply nearest_match_inv in Hb. cbn [fst snd] in *.
  destruct b as [m|]; ok_inv H; subst st'.
  - destruct d as [d|]; [|done]. destruct Hb as (Hd & Hlt & Hn).
    exists unmatched. cbn [fst snd]. split; [|split].
    + rewrite fmap_app. cbn [fmap list_fmap]. rewrite Hperm.
      rewrite <- !app_assoc. apply Permutation_app_head, Permutation_app_comm.
    + eapply Forall_impl; [exact Hout|]. intros s Hs m' d' Hin.
      apply Hs. by eapply elem_of_list_remove_first.
    + apply Forall_app. split.
      * eapply Forall_impl; [exact Hnear|]. intros p Hp m' d1 d' Hin.
        apply Hp. by eapply elem_of_list_remove_first.
      * constructor; [|constructor]. intros m' d1 d' Hin.
        apply Hn. by eapply elem_of_list_remove_first.
  - destruct d as [d|]; [done|]. exists (unmatched ++ [s_node]).
    cbn [fst snd]. split; [by rewrite Hperm, app_assoc|]. split; [|done].
    apply Forall_app. split; [done|]. constructor; [done|constructor].
Qed.

Lemma pairing_fold_inv slave_nodes master_nodes tolerance coord_indices st :
  foldlM (pair_slave math_sqrt tolerance coord_indices) ([], master_nodes)
         slave_nodes = Ok st ->
  pairing_inv math_sqrt tolerance coord_indices master_nodes slave_nodes st
  /\ greedy_inv math_sqrt tolerance coord_indices slave_nodes st.
Proof.
  apply (foldlM_ind
           (fun pre st =>
              pairing_inv math_sqrt tolerance coord_indices master_nodes pre st
              /\ greedy_inv math_sqrt tolerance coord_indices pre st)).
  - split.
    + split; [done|]. split; [cbn; constructor | constructor].
    + exists []. cbn. split; [done|]. split; constructor.
  - intros pre s st1 st2 [H1 H2] Hstep. split.
    + by eapply pair_slave_inv.
    + by eapply pair_slave_greedy.
Qed.

(** X14.  The pairing is greedy and leaves nothing that could still be
    paired: the slave list splits (up to order) into the paired slaves and
    the unmatched ones, the master list into the paired masters and the
    masters left over; no master left over is within the tolerance of an
    unmatched slave; and no master left over is nearer to a paired slave
    than the master it was paired with. *)
Theorem pairing_is_greedy_and_maximal
    slave_nodes master_nodes tolerance coord_indices paired_nodes :
  pairBoundaryNodes3D math_sqrt slave_nodes master_nodes tolerance
    coord_indices = Ok paired_nodes ->
  exists unmatched left_over,
    slave_nodes ≡ₚ paired_nodes.*1 ++ unmatched
    /\ master_nodes ≡ₚ paired_nodes.*2 ++ left_over
    /\ (forall s, s ∈ unmatched ->
          out_of_reach math_sqrt tolerance coord_indices s left_over)
    /\ (forall p, p ∈ paired_nodes ->
          nearest_in math_sqrt coord_indices p left_over).
Proof.
  unfold pairBoundaryNodes3D. intros H.
  apply bind_Ok_inv in H as ([paired pool] & Hf & H). ok_inv H.
  cbn [fst] in H. subst paired_nodes.
  apply pairing_fold_inv in Hf
    as [(Hperm & _ & _) (unmatched & Hs & Hout & Hnear)].
  cbn [fst snd] in *. exists unmatched, pool.
  split; [done|]. split; [done|].
  rewrite Forall_forall in Hout. rewrite Forall_forall in Hnear. by split.
Qed.

Lemma pairing_returns slave_nodes master_nodes tolerance coord_indices :
  (coord_indices.1 < 3)%nat -> (coord_indices.2 < 3)%nat ->
  is_Ok (pairBoundaryNodes3D math_sqrt slave_nodes master_nodes tolerance
           coord_indices).
Proof.
  intros H1 H2. unfold pairBoundaryNodes3D.
  destruct (foldlM_total (fun _ => True) (fun _ => True)
              (pair_slave math_sqrt tolerance coord_indices)
              ([], master_nodes) slave_nodes) as (st & -> & _); [done| |..].
  - by apply Forall_true.
  - intros s st _ _.
    destruct (pair_slave_is_Ok math_sqrt tolerance coord_indices st s H1 H2)
      as [st' ->]. eauto.
  - by eexists.
Qed.

Lemma pairing_sides slave_nodes master_nodes tolerance coord_indices paired :
  pairBoundaryNodes3D math_sqrt slave_nodes master_nodes tolerance
    coord_indices = Ok paired ->
  paired.*1 ⊆+ slave_nodes /\ paired.*2 ⊆+ master_nodes
  /\ Forall (pair_within_tolerance math_sqrt tolerance coord_indices) paired.
Proof.
  unfold pairBoundaryNodes3D. intros H.
  apply bind_Ok_inv in H as ([p pool] & Hf & H). ok_inv H.
  cbn [fst] in H. subst p.
  apply pairing_fold_inv in Hf as [(Hperm & Hsub & Hall) _].
  cbn [fst snd] in *. split; [by apply sublist_submseteq|].
  split; [|done]. rewrite <- Hperm. by apply submseteq_inserts_r.
Qed.

(** X15.  Step 10 pairs two opposite faces with the shorter node list as
    the slave list and turns the pairs back when the lists were exchanged:
    in either case the first node of every pair is a node of the first
    face and the second a node of the second face, each node being used at
    most as often as it is listed; the distance that was compared with the
    tolerance is the one from the slave; the two unpaired counts are never
    negative, and their sum is zero (no warning is printed) only when both
    faces have as many nodes as there are pairs.  With coordinate indices
    below 3 the step returns. *)
Theorem face_pairs_keep_their_sides
    nodes_a nodes_b pairing_tolerance coord_indices :
  ((coord_indices.1 < 3)%nat -> (coord_indices.2 < 3)%nat ->
   is_Ok (pair_faces math_sqrt nodes_a nodes_b pairing_tolerance
            coord_indices))
  /\ forall pairs,
       pair_faces math_sqrt nodes_a nodes_b pairing_tolerance coord_indices
       = Ok pairs ->
       pairs.*1 ⊆+ nodes_a /\ pairs.*2 ⊆+ nodes_b
       /\ Forall (fun p =>
                    pair_within_tolerance math_sqrt pairing_tolerance
                      coord_indices
                      (if (length nodes_a <=? length nodes_b)%nat then p
                       else (p.2, p.1)))
            pairs
       /\ (0 <= Z.of_nat (length nodes_a) - Z.of_nat (length pairs))%Z
       /\ (0 <= Z.of_nat (length nodes_b) - Z.of_nat (length pairs))%Z
       /\ (total_unpaired nodes_a nodes_b pairs = 0%Z
           <-> length nodes_a = length pairs /\ length nodes_b = length pairs).
Proof.
  unfold pair_faces. split.
  - intros H1 H2. destruct (length nodes_a <=? length nodes_b)%nat.
    + by apply pairing_returns.
    + destruct (pairing_returns nodes_b nodes_a pairing_tolerance
                  coord_indices H1 H2) as [ps ->]. by eexists.
  - intros pairs H.
    assert (Hs : pairs.*1 ⊆+ nodes_a /\ pairs.*2 ⊆+ nodes_b
                 /\ Forall (fun p =>
                      pair_within_tolerance math_sqrt pairing_tolerance
                        coord_indices
                        (if (length nodes_a <=? length nodes_b)%nat then p
                         else (p.2, p.1))) pairs).
    { destruct (length nodes_a <=? length nodes_b)%nat.
      - by apply pairing_sides in H.
      - apply bind_Ok_inv in H as (ps & Hps & H). ok_inv H. subst pairs.
        apply pairing_sides in Hps as (H1 & H2 & H3).
        change (map (fun p : Node * Node => (p.2, p.1)) ps)
          with ((fun p : Node * Node => (p.2, p.1)) <$> ps).
        rewrite <- !list_fmap_compose.
        split; [exact H2|]. split; [exact H1|].
        apply Forall_fmap. eapply Forall_impl; [exact H3|].
        by intros [s m]. }
    destruct Hs as (H1 & H2 & H3).
    pose proof (submseteq_length _ _ H1) as L1.
    pose proof (submseteq_length _ _ H2) as L2.
    rewrite length_fmap in L1, L2. unfold total_unpaired.
    repeat (split; [done || lia|]). lia.
Qed.

End GreedyPairing.

Lemma pairing_is_greedy_and_maximal_witness :
  let s1 := mkNode 1 (0, 0, 0) in
  let s2 := mkNode 2 (0, 1, 0) in
  let s3 := mkNode 5 (0, 5, 0) in
  let m1 := mkNode 3 (10, 1, 0) in
  let m2 := mkNode 4 (10, 0, 0) in
  let m3 := mkNode 6 (10, 7, 0) in
  pairBoundaryNodes3D sqrt_upper [s1; s2; s3] [m1; m2; m3] 0.5 (1%nat, 2%nat)
  = Ok [(s1, m2); (s2, m1)]
  /\ exists unmatched left_over,
       [s1; s2; s3] ≡ₚ [(s1, m2); (s2, m1)].*1 ++ unmatched
       /\ [m1; m2; m3] ≡ₚ [(s1, m2); (s2, m1)].*2 ++ left_over
       /\ (forall s, s ∈ unmatched ->
             out_of_reach sqrt_upper 0.5 (1%nat, 2%nat) s left_over)
       /\ (forall p, p ∈ [(s1, m2); (s2, m1)] ->
             nearest_in sqrt_upper (1%nat, 2%nat) p left_over).
Proof.
  intros s1 s2 s3 m1 m2 m3. split; [vm_compute; reflexivity|].
  apply (pairing_is_greedy_and_maximal sqrt_upper [s1; s2; s3] [m1; m2; m3]
           0.5 (1%nat, 2%nat)).
  vm_compute. reflexivity.
Defined.

Lemma face_pairs_keep_their_sides_witness :
  let a1 := mkNode 1 (0, 0, 0) in
  let a2 := mkNode 2 (0, 1, 0) in
  let a3 := mkNode 5 (0, 5, 0) in
  let b1 := mkNode 3 (10, 1, 0) in
  let b2 := mkNode 4 (10, 0, 0) in
  let pairs := [(a2, b1); (a1, b2)] in
  pair_faces sqrt_upper [a1; a2; a3] [b1; b2] 0.5 (1%nat, 2%nat) = Ok pairs
  /\ pairs.*1 ⊆+ [a1; a2; a3] /\ pairs.*2 ⊆+ [b1; b2]
  /\ Forall (fun p =>
               pair_within_tolerance sqrt_upper 0.5 (1%nat, 2%nat)
                 (if (3 <=? 2)%nat then p else (p.2, p.1)))
       pairs
  /\ (0 <= 3 - Z.of_nat (length pairs))%Z
  /\ (0 <= 2 - Z.of_nat (length pairs))%Z
  /\ (total_unpaired [a1; a2; a3] [b1; b2] pairs = 0%Z
      <-> 3%nat = length pairs /\ 2%nat = length pairs).
Proof.
  intros a1 a2 a3 b1 b2 pairs. split; [vm_compute; reflexivity|].
  apply (proj2 (face_pairs_keep_their_sides sqrt_upper [a1; a2; a3] [b1; b2]
                  0.5 (1%nat, 2%nat))).
  vm_compute. reflexivity.
Defined.

(** ** Periodic constraints: the names of sets and equations *)

Lemma set_names_app l k : set_names (l ++ k) = set_names l ++ set_names k.
Proof. unfold set_names. apply flat_map_app. Qed.

Lemma equation_names_app l k :
  equation_names (l ++ k) = equation_names l ++ equation_names k.
Proof. unfold equation_names. apply flat_map_app. Qed.

Lemma NoDup_flat_map_index {B} (f : nat -> list B) l :
  NoDup l -> (forall i, NoDup (f i)) ->
  (forall i j x, x ∈ f i -> x ∈ f j -> i = j) ->
  NoDup (flat_map f l).
Proof.
  intros Hl Hf Hx. induction Hl as [|a l Ha Hl IH]; cbn [flat_map]; [constructor|].
  apply NoDup_app. split; [done|]. split; [|done].
  intros x Hin Hin'. apply list_elem_of_In, in_flat_map in Hin' as (j & Hj & Hin').
  apply list_elem_of_In in Hj, Hin'. by rewrite (Hx a j x Hin Hin') in Ha.
Qed.

Lemma constraint_calls_names ref_point_name tag1 tag2 node_pairs a :
  let calls :=
    flat_map (fun ip => constrain_pair ref_point_name tag1 tag2 ip.1 ip.2)
      (zip (seq a (length node_pairs)) node_pairs) in
  set_names calls
  = flat_map (fun i => [set_name tag1 i; set_name tag2 i])
      (seq a (length node_pairs))
  /\ equation_names calls
     = flat_map (fun i => [equation_name tag1 tag2 "X" i;
                           equation_name tag1 tag2 "Y" i;
                           equation_name tag1 tag2 "Z" i])
         (seq a (length node_pairs)).
Proof.
  revert a. induction node_pairs as [|p l IH]; intros a; [done|].
  destruct (IH (S a)) as [H1 H2]. cbn zeta in *.
  cbn [length seq zip zip_with flat_map fst snd].
  rewrite set_names_app, equation_names_app, H1, H2. done.
Qed.

Lemma apply_known node_pairs pair_type ref_point_name tag1 tag2 :
  pair_type_tags pair_type = Some (ref_point_name, tag1, tag2) ->
  applyPeriodicConstraints3D node_pairs pair_type
  = flat_map (fun ip => constrain_pair ref_point_name tag1 tag2 ip.1 ip.2)
      (zip (seq 0 (length node_pairs)) node_pairs).
Proof. unfold applyPeriodicConstraints3D. by intros ->. Qed.

(** Names with different tags or numbers differ. *)
Lemma set_name_inj t t' i i' :
  t ∈ ["L"; "R"; "F"; "B"; "Bo"; "T"] -> t' ∈ ["L"; "R"; "F"; "B"; "Bo"; "T"] ->
  set_name t i = set_name t' i' -> t = t' /\ i = i'.
Proof.
  intros Ht Ht' H. unfold set_name, fmt_d in H.
  rewrite !elem_of_cons, elem_of_nil in Ht, Ht'.
  destruct Ht as [->|[->|[->|[->|[->|[->|[]]]]]]];
    destruct Ht' as [->|[->|[->|[->|[->|[->|[]]]]]]];
    cbn [String.append] in H; simplify_eq; split; (done || lia).
Qed.

Lemma set_name_not_reference t i : set_name t i ∉ reference_point_sets.
Proof.
  unfold set_name, reference_point_sets. cbn [String.append].
  rewrite !elem_of_cons, elem_of_nil. intros [H|[H|[H|[]]]]; discriminate.
Qed.

Lemma equation_name_inj t1 t2 t1' t2' x x' i i' :
  (t1, t2) ∈ [("L", "R"); ("F", "B"); ("Bo", "T")] ->
  (t1', t2') ∈ [("L", "R"); ("F", "B"); ("Bo", "T")] ->
  x ∈ ["X"; "Y"; "Z"] -> x' ∈ ["X"; "Y"; "Z"] ->
  equation_name t1 t2 x i = equation_name t1' t2' x' i' ->
  t1 = t1' /\ x = x' /\ i = i'.
Proof.
  intros Ht Ht' Hx Hx' H. unfold equation_name, fmt_d in H.
  rewrite !elem_of_cons, elem_of_nil in Ht, Ht'.
  rewrite !elem_of_cons, elem_of_nil in Hx, Hx'.
  destruct Ht as [[= -> ->]|[[= -> ->]|[[= -> ->]|[]]]];
    destruct Ht' as [[= -> ->]|[[= -> ->]|[[= -> ->]|[]]]];
    destruct Hx as [->|[->|[->|[]]]]; destruct Hx' as [->|[->|[->|[]]]];
    cbn [String.append] in H; simplify_eq; repeat split; (done || lia).
Qed.

Lemma pair_type_tags_inv pair_type ref_point_name tag1 tag2 :
  pair_type_tags pair_type = Some (ref_point_name, tag1, tag2) ->
  (ref_point_name, tag1, tag2)
  ∈ [("set_RefPoint_X", "L", "R"); ("set_RefPoint_Y", "F", "B");
     ("set_RefPoint_Z", "Bo", "T")].
Proof.
  unfold pair_type_tags. rewrite !elem_of_cons.
  repeat destruct (decide _); intros [= <- <- <-]; auto.
Qed.

Lemma length_flat_map_const {A B} (f : A -> list B) c l :
  (forall a, length (f a) = c) -> length (flat_map f l) = (c * length l)%nat.
Proof.
  intros Hf. induction l as [|a l IH]; cbn [flat_map length]; [lia|].
  rewrite length_app, Hf, IH. lia.
Qed.

Lemma set_names_block_NoDup t1 t2 l :
  t1 ∈ ["L"; "R"; "F"; "B"; "Bo"; "T"] -> t2 ∈ ["L"; "R"; "F"; "B"; "Bo"; "T"] ->
  t1 <> t2 -> NoDup l ->
  NoDup (flat_map (fun i => [set_name t1 i; set_name t2 i]) l).
Proof.
  intros H1 H2 Hne Hl. apply NoDup_flat_map_index; [done| |].
  - intros i. apply NoDup_cons. split; [|apply NoDup_singleton].
    intros Hin. apply list_elem_of_singleton in Hin.
    by apply set_name_inj in Hin as [? _].
  - intros i j x Hi Hj. rewrite !elem_of_cons, elem_of_nil in Hi, Hj.
    destruct Hi as [->|[->|[]]]; destruct Hj as [Hj|[Hj|[]]];
      by apply set_name_inj in Hj as [? ?].
Qed.

Lemma set_names_block_elem t1 t2 l x :
  x ∈ flat_map (fun i => [set_name t1 i; set_name t2 i]) l ->
  exists i, x = set_name t1 i \/ x = set_name t2 i.
Proof.
  intros Hin. apply list_elem_of_In, in_flat_map in Hin as (i & _ & Hin).
  apply list_elem_of_In in Hin. rewrite !elem_of_cons, elem_of_nil in Hin.
  exists i. tauto.
Qed.

Lemma equation_names_block_NoDup t1 t2 l :
  (t1, t2) ∈ [("L", "R"); ("F", "B"); ("Bo", "T")] -> NoDup l ->
  NoDup (flat_map (fun i => [equation_name t1 t2 "X" i;
                             equation_name t1 t2 "Y" i;
                             equation_name t1 t2 "Z" i]) l).
Proof.
  intros Ht Hl.
  assert (Hinj : forall x x' i i', x ∈ ["X"; "Y"; "Z"] -> x' ∈ ["X"; "Y"; "Z"] ->
            equation_name t1 t2 x i = equation_name t1 t2 x' i' ->
            x = x' /\ i = i').
  { intros x x' i i' Hx Hx' H.
    by apply (equation_name_inj _ _ _ _ _ _ _ _ Ht Ht Hx Hx') in H as (_ & ? & ?). }
  assert (HX : "X" ∈ ["X"; "Y"; "Z"]) by (rewrite !elem_of_cons; auto).
  assert (HY : "Y" ∈ ["X"; "Y"; "Z"]) by (rewrite !elem_of_cons; auto).
  assert (HZ : "Z" ∈ ["X"; "Y"; "Z"]) by (rewrite !elem_of_cons; auto).
  apply NoDup_flat_map_index; [done| |].
  - intros i. repeat (apply NoDup_cons; split); [..|apply NoDup_nil_2];
      rewrite ?elem_of_cons, elem_of_nil; intros H;
      repeat (destruct H as [H|H]); try done;
      by apply Hinj in H as [? _].
  - intros i j x Hi Hj. rewrite !elem_of_cons, elem_of_nil in Hi, Hj.
    destruct Hi as [->|[->|[->|[]]]]; destruct Hj as [Hj|[Hj|[Hj|[]]]];
      by apply Hinj in Hj as [? ?].
Qed.

Lemma equation_names_block_elem t1 t2 l name :
  name ∈ flat_map (fun i => [equation_name t1 t2 "X" i;
                             equation_name t1 t2 "Y" i;
                             equation_name t1 t2 "Z" i]) l ->
  exists x i, x ∈ ["X"; "Y"; "Z"] /\ name = equation_name t1 t2 x i.
Proof.
  intros Hin. apply list_elem_of_In, in_flat_map in Hin as (i & _ & Hin).
  apply list_elem_of_In in Hin. rewrite !elem_of_cons, elem_of_nil in Hin.
  destruct Hin as [->|[->|[->|[]]]]; eexists _, i;
    (split; [|reflexivity]); rewrite !elem_of_cons; auto.
Qed.

(** X16.  No name is given twice in Step 10: the names of the node sets
    that the three calls of [applyPeriodicConstraints3D] create differ from
    each other and from the names of the reference point sets, and the
    names of the equations differ from each other, whatever the three lists
    of pairs are.  The calls create two sets and three equations for every
    pair. *)
Theorem constraint_names_are_distinct lr_pairs fb_pairs bt_pairs :
  let calls := step10_constraints lr_pairs fb_pairs bt_pairs in
  let pairs := (length lr_pairs + length fb_pairs + length bt_pairs)%nat in
  NoDup (reference_point_sets ++ set_names calls)
  /\ NoDup (equation_names calls)
  /\ length (set_names calls) = (2 * pairs)%nat
  /\ length (equation_names calls) = (3 * pairs)%nat
  /\ length calls = (5 * pairs)%nat.
Proof.
  intros calls pairs. subst calls pairs. unfold step10_constraints.
  rewrite (apply_known lr_pairs "Left-Right" "set_RefPoint_X" "L" "R" eq_refl),
    (apply_known fb_pairs "Front-Back" "set_RefPoint_Y" "F" "B" eq_refl),
    (apply_known bt_pairs "Bottom-Top" "set_RefPoint_Z" "Bo" "T" eq_refl).
  rewrite !set_names_app, !equation_names_app.
  destruct (constraint_calls_names "set_RefPoint_X" "L" "R" lr_pairs 0)
    as [-> ->].
  destruct (constraint_calls_names "set_RefPoint_Y" "F" "B" fb_pairs 0)
    as [-> ->].
  destruct (constraint_calls_names "set_RefPoint_Z" "Bo" "T" bt_pairs 0)
    as [-> ->].
  assert (Htag : forall t, t ∈ ["L"; "R"; "F"; "B"; "Bo"; "T"]
                 -> t ∈ ["L"; "R"; "F"; "B"; "Bo"; "T"]) by done.
  assert (HL : "L" ∈ ["L"; "R"; "F"; "B"; "Bo"; "T"])
    by (rewrite !elem_of_cons; auto 10).
  assert (HR : "R" ∈ ["L"; "R"; "F"; "B"; "Bo"; "T"])
    by (rewrite !elem_of_cons; auto 10).
  assert (HF : "F" ∈ ["L"; "R"; "F"; "B"; "Bo"; "T"])
    by (rewrite !elem_of_cons; auto 10).
  assert (HB : "B" ∈ ["L"; "R"; "F"; "B"; "Bo"; "T"])
    by (rewrite !elem_of_cons; auto 10).
  assert (HBo : "Bo" ∈ ["L"; "R"; "F"; "B"; "Bo"; "T"])
    by (rewrite !elem_of_cons; auto 10).
  assert (HT : "T" ∈ ["L"; "R"; "F"; "B"; "Bo"; "T"])
    by (rewrite !elem_of_cons; auto 10).
  assert (HLR : ("L", "R") ∈ [("L", "R"); ("F", "B"); ("Bo", "T")])
    by (rewrite !elem_of_cons; auto).
  assert (HFB : ("F", "B") ∈ [("L", "R"); ("F", "B"); ("Bo", "T")])
    by (rewrite !elem_of_cons; auto).
  assert (HBT : ("Bo", "T") ∈ [("L", "R"); ("F", "B"); ("Bo", "T")])
    by (rewrite !elem_of_cons; auto).
  split; [|split; [|split; [|split]]].
  - apply NoDup_app. split; [|split].
    + unfold reference_point_sets.
      repeat (apply NoDup_cons; split); [| | |apply NoDup_nil_2];
        rewrite ?elem_of_cons, elem_of_nil; intros H;
        repeat (destruct H as [H|H]); done.
    + intros x Hx Hin. rewrite !elem_of_app in Hin.
      destruct Hin as [Hin|[Hin|Hin]];
        apply set_names_block_elem in Hin as [i [->| ->]];
        by apply set_name_not_reference in Hx.
    + apply NoDup_app. split; [|split; [|apply NoDup_app; split; [|split]]].
      * apply set_names_block_NoDup; [done..|apply NoDup_seq].
      * intros x Hx Hin. rewrite elem_of_app in Hin.
        apply set_names_block_elem in Hx as [i Hx].
        destruct Hin as [Hin|Hin];
          apply set_names_block_elem in Hin as [j Hin];
          destruct Hx as [-> | ->]; destruct Hin as [Hin|Hin];
          by apply set_name_inj in Hin as [? _].
      * apply set_names_block_NoDup; [done..|apply NoDup_seq].
      * intros x Hx Hin.
        apply set_names_block_elem in Hx as [i Hx].
        apply set_names_block_elem in Hin as [j Hin];
          destruct Hx as [-> | ->]; destruct Hin as [Hin|Hin];
          by apply set_name_inj in Hin as [? _].
      * apply set_names_block_NoDup; [done..|apply NoDup_seq].
  - assert (HX : forall x, x ∈ ["X"; "Y"; "Z"] -> x ∈ ["X"; "Y"; "Z"]) by done.
    apply NoDup_app. split; [|split; [|apply NoDup_app; split; [|split]]].
    + apply equation_names_block_NoDup; [done|apply NoDup_seq].
    + intros x Hx Hin. rewrite elem_of_app in Hin.
      apply equation_names_block_elem in Hx as (a & i & Ha & ->).
      destruct Hin as [Hin|Hin];
        apply equation_names_block_elem in Hin as (b & j & Hb & Hin).
      * by apply (equation_name_inj _ _ _ _ _ _ _ _ HLR HFB Ha Hb) in Hin
          as [? _].
      * by apply (equation_name_inj _ _ _ _ _ _ _ _ HLR HBT Ha Hb) in Hin
          as [? _].
    + apply equation_names_block_NoDup; [done|apply NoDup_seq].
    + intros x Hx Hin.
      apply equation_names_block_elem in Hx as (a & i & Ha & ->).
      apply equation_names_block_elem in Hin as (b & j & Hb & Hin).
      by apply (equation_name_inj _ _ _ _ _ _ _ _ HFB HBT Ha Hb) in Hin
        as [? _].
    + apply equation_names_block_NoDup; [done|apply NoDup_seq].
  - rewrite !length_app, !(length_flat_map_const _ 2) by done.
    rewrite !length_seq. lia.
  - rewrite !length_app, !(length_flat_map_const _ 3) by done.
    rewrite !length_seq. lia.
  - rewrite !length_app, !(length_flat_map_const _ 5) by done.
    rewrite !length_zip, !length_seq. lia.
Qed.

(** The equations of a list of calls. *)

Lemma equations_well_formed_nil : equations_well_formed [].
Proof. intros pre name terms post H. by destruct pre. Qed.

Lemma equations_well_formed_app l k :
  equations_well_formed l -> equations_well_formed k ->
  equations_well_formed (l ++ k).
Proof.
  intros Hl Hk pre name terms post H.
  apply app_eq_app in H as [m [[-> H]|[-> H]]].
  - destruct m as [|x m].
    + cbn [app] in H. symmetry in H.
      destruct (Hk [] name terms post H)
        as (s1 & s2 & ref & dof & _ & Hs & _).
      by apply elem_of_nil in Hs.
    + injection H as <- ->. by eapply Hl.
  - destruct (Hk m name terms post H)
      as (s1 & s2 & ref & dof & -> & H1 & H2 & Hne & Hr & Hd).
    exists s1, s2, ref, dof. rewrite set_names_app, !elem_of_app. auto 10.
Qed.

Lemma equations_well_formed_block ref_point_name tag1 tag2 i pair :
  (ref_point_name, tag1, tag2)
  ∈ [("set_RefPoint_X", "L", "R"); ("set_RefPoint_Y", "F", "B");
     ("set_RefPoint_Z", "Bo", "T")] ->
  equations_well_formed (constrain_pair ref_point_name tag1 tag2 i pair).
Proof.
  intros Ht pre name terms post H.
  assert (Hne : set_name tag1 i <> set_name tag2 i
                /\ ref_point_name ∈ reference_point_sets).
  { rewrite !elem_of_cons, elem_of_nil in Ht. unfold reference_point_sets.
    rewrite !elem_of_cons.
    destruct Ht as [[= -> -> ->]|[[= -> -> ->]|[[= -> -> ->]|[]]]];
      (split; [|by auto]); unfold set_name; intros E;
      cbn [String.append] in E; simplify_eq. }
  destruct Hne as [Hne Href]. unfold constrain_pair in H. cbn zeta in H.
  destruct pre as [|c1 [|c2 [|c3 [|c4 [|c5 pre]]]]]; cbn [app] in H;
    try discriminate; simplify_eq.
  - eexists _, _, _, _. split; [reflexivity|]. cbn.
    rewrite !elem_of_cons. split; [auto|]. split; [auto|]. done.
  - eexists _, _, _, _. split; [reflexivity|]. cbn.
    rewrite !elem_of_cons. split; [auto|]. split; [auto|]. done.
  - eexists _, _, _, _. split; [reflexivity|]. cbn.
    rewrite !elem_of_cons. split; [auto|]. split; [auto|]. done.
  - by destruct pre.
Qed.

Lemma equations_well_formed_flat_map ref_point_name tag1 tag2
    (l : list (nat * (Node * Node))) :
  (ref_point_name, tag1, tag2)
  ∈ [("set_RefPoint_X", "L", "R"); ("set_RefPoint_Y", "F", "B");
     ("set_RefPoint_Z", "Bo", "T")] ->
  equations_well_formed
    (flat_map (fun ip => constrain_pair ref_point_name tag1 tag2 ip.1 ip.2) l).
Proof.
  intros Ht. induction l as [|a l IH]; cbn [flat_map].
  - apply equations_well_formed_nil.
  - apply equations_well_formed_app; [|done].
    by apply equations_well_formed_block.
Qed.

(** X17.  No equation refers to a set that does not exist yet: every
    [Equation] call made by [applyPeriodicConstraints3D], alone or in the
    sequence of Step 10, has three terms with the coefficients 1, -1 and 1
    on one degree of freedom from 1 to 3, the first two on two different
    node sets created by earlier calls of the same sequence and the third
    on the set of a reference point.  For a pair type other than the three
    known ones no call is made. *)
Theorem equations_refer_to_existing_sets :
  (forall node_pairs pair_type,
     equations_well_formed (applyPeriodicConstraints3D node_pairs pair_type)
     /\ (pair_type_tags pair_type = None ->
         applyPeriodicConstraints3D node_pairs pair_type = []))
  /\ forall lr_pairs fb_pairs bt_pairs,
       equations_well_formed (step10_constraints lr_pairs fb_pairs bt_pairs).
Proof.
  assert (H1 : forall node_pairs pair_type,
            equations_well_formed
              (applyPeriodicConstraints3D node_pairs pair_type)).
  { intros node_pairs pair_type. unfold applyPeriodicConstraints3D.
    destruct (pair_type_tags pair_type) as [[[ref t1] t2]|] eqn:E.
    - apply equations_well_formed_flat_map. by eapply pair_type_tags_inv.
    - apply equations_well_formed_nil. }
  split.
  - intros node_pairs pair_type. split; [done|].
    unfold applyPeriodicConstraints3D. by intros ->.
  - intros lr_pairs fb_pairs bt_pairs. unfold step10_constraints.
    repeat apply equations_well_formed_app; apply H1.
Qed.

(** ** Boundary nodes of the mesh *)

Lemma py_min_spec l m :
  py_min l = Some m -> m ∈ l /\ Forall (Qle m) l.
Proof.
  destruct l as [|x l]; [done|]. cbn [py_min]. intros [= <-].
  assert (G : forall a,
    foldl (fun m y => if Qltb y m then y else m) a l ∈ a :: l
    /\ foldl (fun m y => if Qltb y m then y else m) a l <= a
    /\ Forall (Qle (foldl (fun m y => if Qltb y m then y else m) a l)) l).
  { induction l as [|y l IH]; intros a; cbn [foldl].
    - split; [apply list_elem_of_here|]. split; [lra|constructor].
    - destruct (Qltb y a) eqn:E; Qbool.
      + destruct (IH y) as (H1 & H2 & H3). split; [by apply list_elem_of_further|].
        split; [lra|]. by constructor.
      + destruct (IH a) as (H1 & H2 & H3). split.
        * apply elem_of_cons in H1 as [->|H1]; [apply list_elem_of_here|].
          by do 2 apply list_elem_of_further.
        * split; [done|]. constructor; [lra|done]. }
  destruct (G x) as (H1 & H2 & H3). split; [done|]. by constructor.
Qed.

Lemma py_max_spec l m :
  py_max l = Some m -> m ∈ l /\ Forall (fun y => y <= m) l.
Proof.
  destruct l as [|x l]; [done|]. cbn [py_max]. intros [= <-].
  assert (G : forall a,
    foldl (fun m y => if Qltb m y then y else m) a l ∈ a :: l
    /\ a <= foldl (fun m y => if Qltb m y then y else m) a l
    /\ Forall (fun y => y <= foldl (fun m y => if Qltb m y then y else m) a l)
         l).
  { induction l as [|y l IH]; intros a; cbn [foldl].
    - split; [apply list_elem_of_here|]. split; [lra|constructor].
    - destruct (Qltb a y) eqn:E; Qbool.
      + destruct (IH y) as (H1 & H2 & H3). split; [by apply list_elem_of_further|].
        split; [lra|]. by constructor.
      + destruct (IH a) as (H1 & H2 & H3). split.
        * apply elem_of_cons in H1 as [->|H1]; [apply list_elem_of_here|].
          by do 2 apply list_elem_of_further.
        * split; [done|]. constructor; [lra|done]. }
  destruct (G x) as (H1 & H2 & H3). split; [done|]. by constructor.
Qed.

Lemma bound_attained (coord : Node -> Q) nodes m :
  m ∈ map coord nodes -> exists n, n ∈ nodes /\ coord n = m.
Proof.
  intros H. apply list_elem_of_In, in_map_iff in H as (n & <- & H).
  exists n. split; [by apply list_elem_of_In|done].
Qed.

Lemma bounds_hold (coord : Node -> Q) (P : Q -> Prop) nodes n :
  Forall P (map coord nodes) -> n ∈ nodes -> P (coord n).
Proof.
  intros H Hn. rewrite Forall_forall in H. apply H.
  apply list_elem_of_In, in_map. by apply list_elem_of_In.
Qed.

Lemma insert_node_perm k1 k2 n l : insert_node k1 k2 n l ≡ₚ n :: l.
Proof.
  induction l as [|m l IH]; cbn; [done|].
  destruct (key_ltb k1 k2 m n); [|done]. rewrite IH. apply Permutation_swap.
Qed.

Lemma sort_nodes_perm k1 k2 l : sort_nodes k1 k2 l ≡ₚ l.
Proof.
  induction l as [|x l IH]; cbn; [done|].
  fold (sort_nodes k1 k2 l). by rewrite insert_node_perm, IH.
Qed.

Lemma key_ltb_spec k1 k2 a b :
  key_ltb k1 k2 a b = true
  <-> k1 a < k1 b \/ (k1 a == k1 b /\ k2 a < k2 b).
Proof.
  unfold key_ltb. rewrite orb_true_iff, andb_true_iff.
  by rewrite !Qltb_lt, Qeqb_eq.
Qed.

Lemma key_ltb_false k1 k2 a b :
  key_ltb k1 k2 a b = false
  <-> k1 b < k1 a \/ (k1 a == k1 b /\ k2 b <= k2 a).
Proof.
  rewrite <- not_true_iff_false, key_ltb_spec. split.
  - intros H. destruct (Q_dec (k1 a) (k1 b)) as [[Hlt|Hgt]|Heq].
    + exfalso. auto.
    + by left.
    + right. split; [done|]. destruct (Qlt_le_dec (k2 a) (k2 b)); [|done].
      exfalso. auto.
  - intros [H|[H1 H2]] [H'|[H1' H2']]; lra.
Qed.

Lemma insert_node_sorted k1 k2 n l :
  StronglySorted (fun a b => key_ltb k1 k2 b a = false) l ->
  StronglySorted (fun a b => key_ltb k1 k2 b a = false)
    (insert_node k1 k2 n l).
Proof.
  induction 1 as [|m l Hl IH Hm]; cbn; [repeat constructor|].
  destruct (key_ltb k1 k2 m n) eqn:E.
  - constructor; [done|]. rewrite insert_node_perm. constructor; [|done].
    apply key_ltb_spec in E. apply key_ltb_false.
    destruct E as [E|[E1 E2]]; [by left|right; split; lra].
  - constructor; [by constructor|]. constructor; [done|].
    eapply Forall_impl; [exact Hm|]. cbn. intros x Hx.
    apply key_ltb_false in E, Hx. apply key_ltb_false.
    destruct E as [E|[E1 E2]], Hx as [Hx|[Hx1 Hx2]];
      first [left; lra | right; split; lra].
Qed.

Lemma sort_nodes_sorted k1 k2 l :
  StronglySorted (fun a b => key_ltb k1 k2 b a = false) (sort_nodes k1 k2 l).
Proof.
  induction l as [|x l IH]; cbn; [constructor|].
  by apply insert_node_sorted.
Qed.

Lemma elem_of_face_nodes coord bound k1 k2 nodes n :
  n ∈ face_nodes coord bound k1 k2 nodes
  <-> n ∈ nodes /\ Qabs (coord n - bound) < face_tolerance.
Proof.
  unfold face_nodes. rewrite sort_nodes_perm.
  rewrite list_elem_of_In, filter_In, <- list_elem_of_In.
  unfold on_face. by rewrite Qltb_lt.
Qed.

Lemma on_face_exact c : Qabs (c - c) < face_tolerance.
Proof.
  assert (H : c - c == 0) by ring. rewrite H. vm_compute. reflexivity.
Qed.

Lemma face_nodes_nonempty coord bound k1 k2 nodes :
  bound ∈ map coord nodes -> face_nodes coord bound k1 k2 nodes <> [].
Proof.
  intros H E. apply bound_attained in H as (n & Hn & <-).
  assert (Hin : n ∈ face_nodes coord (coord n) k1 k2 nodes).
  { apply elem_of_face_nodes. split; [done|apply on_face_exact]. }
  rewrite E in Hin. by apply elem_of_nil in Hin.
Qed.

(** X18.  [getRVEDimensions3D] fails exactly for an instance without
    nodes.  Otherwise the box it returns contains every node, and each of
    the six lists that [getBoundaryNodes3D] builds for that box holds at
    least one node.  For any box, a node is in the list of a face exactly
    when it is a node of the instance whose coordinate is less than 1e-6
    from the bound of the face, and it is listed as often as it occurs. *)
Theorem faces_of_the_bounding_box nodes :
  (getRVEDimensions3D nodes = None <-> nodes = [])
  /\ (forall d, getRVEDimensions3D nodes = Some d ->
        Forall (in_box d) nodes
        /\ Forall (fun '(face, _, _, _, _) => face <> [])
             (faces_of d (getBoundaryNodes3D nodes d)))
  /\ forall d,
       Forall (fun '(face, coord, bound, _, _) =>
                 (forall n, n ∈ face
                    <-> n ∈ nodes /\ Qabs (coord n - bound) < face_tolerance)
                 /\ face ≡ₚ List.filter (fun n => on_face (coord n) bound)
                              nodes)
         (faces_of d (getBoundaryNodes3D nodes d)).
Proof.
  split; [|split].
  - destruct nodes as [|n nodes]; [done|]. split; [|done].
    unfold getRVEDimensions3D. cbn. discriminate.
  - intros d H. unfold getRVEDimensions3D in H.
    destruct (py_min (map node_x nodes)) as [x0|] eqn:Ex0; [|done].
    destruct (py_max (map node_x nodes)) as [x1|] eqn:Ex1; [|done].
    destruct (py_min (map node_y nodes)) as [y0|] eqn:Ey0; [|done].
    destruct (py_max (map node_y nodes)) as [y1|] eqn:Ey1; [|done].
    destruct (py_min (map node_z nodes)) as [z0|] eqn:Ez0; [|done].
    destruct (py_max (map node_z nodes)) as [z1|] eqn:Ez1; [|done].
    cbn in H. injection H as <-.
    apply py_min_spec in Ex0 as [Ax0 Bx0], Ey0 as [Ay0 By0], Ez0 as [Az0 Bz0].
    apply py_max_spec in Ex1 as [Ax1 Bx1], Ey1 as [Ay1 By1], Ez1 as [Az1 Bz1].
    split.
    + apply Forall_forall. intros n Hn. unfold in_box.
      cbn [xMin xMax yMin yMax zMin zMax].
      repeat split;
        first [ exact (bounds_hold node_x (Qle x0) _ _ Bx0 Hn)
              | exact (bounds_hold node_x (fun y => y <= x1) _ _ Bx1 Hn)
              | exact (bounds_hold node_y (Qle y0) _ _ By0 Hn)
              | exact (bounds_hold node_y (fun y => y <= y1) _ _ By1 Hn)
              | exact (bounds_hold node_z (Qle z0) _ _ Bz0 Hn)
              | exact (bounds_hold node_z (fun y => y <= z1) _ _ Bz1 Hn) ].
    + unfold faces_of, getBoundaryNodes3D.
      cbn [nodes_left nodes_right nodes_front nodes_back nodes_bottom
           nodes_top xMin xMax yMin yMax zMin zMax].
      repeat (apply Forall_cons; split); [..|constructor];
        by apply face_nodes_nonempty.
  - intros d. unfold faces_of, getBoundaryNodes3D.
    cbn [nodes_left nodes_right nodes_front nodes_back nodes_bottom
         nodes_top].
    repeat (apply Forall_cons; split); [..|constructor];
      (split; [intros n; apply elem_of_face_nodes|apply sort_nodes_perm]).
Qed.

Lemma StronglySorted_impl {A} (R R' : A -> A -> Prop) l :
  (forall a b, R a b -> R' a b) -> StronglySorted R l -> StronglySorted R' l.
Proof.
  intros HR. induction 1 as [|a l Hl IH Ha]; constructor; [done|].
  eapply Forall_impl; [exact Ha|]. intros b. apply HR.
Qed.

Lemma face_nodes_sorted coord bound k1 k2 nodes :
  StronglySorted
    (fun a b => k1 a < k1 b \/ (k1 a == k1 b /\ k2 a <= k2 b))
    (face_nodes coord bound k1 k2 nodes).
Proof.
  unfold face_nodes.
  eapply StronglySorted_impl; [|apply sort_nodes_sorted].
  intros a b H. apply key_ltb_false in H.
  destruct H as [H|[H1 H2]]; [by left|right; split; [lra|done]].
Qed.

(** X19.  Each of the six lists of [getBoundaryNodes3D] is in ascending
    order of its two sort coordinates, the first one deciding and the
    second one among nodes with equal first coordinate: y then z on the
    left and right faces, x then z on the front and back faces, x then y
    on the bottom and top faces. *)
Theorem face_nodes_are_sorted nodes d :
  Forall (fun '(face, _, _, k1, k2) =>
            StronglySorted
              (fun a b => k1 a < k1 b \/ (k1 a == k1 b /\ k2 a <= k2 b))
              face)
    (faces_of d (getBoundaryNodes3D nodes d))
  /\ map (fun '(_, _, _, k1, k2) => (k1, k2))
       (faces_of d (getBoundaryNodes3D nodes d))
     = [(node_y, node_z); (node_y, node_z); (node_x, node_z);
        (node_x, node_z); (node_x, node_y); (node_x, node_y)].
Proof.
  split; [|reflexivity]. unfold faces_of, getBoundaryNodes3D.
  cbn [nodes_left nodes_right nodes_front nodes_back nodes_bottom nodes_top].
  repeat (apply Forall_cons; split); [..|constructor];
    apply face_nodes_sorted.
Qed.

Lemma faces_apart coord lo hi k1 k2 k1' k2' nodes n :
  2 * face_tolerance <= hi - lo ->
  n ∈ face_nodes coord lo k1 k2 nodes ->
  n ∉ face_nodes coord hi k1' k2' nodes.
Proof.
  intros Hd H1 H2. apply elem_of_face_nodes in H1 as [_ H1], H2 as [_ H2].
  apply Qabs_Qlt_condition in H1, H2. lra.
Qed.

(** X20.  Opposite faces share no node when the box is at least 2e-6 wide
    in their direction: no node is then listed both as a left and as a
    right node, and likewise for front and back and for bottom and top. *)
Theorem opposite_faces_are_disjoint nodes d n :
  let b := getBoundaryNodes3D nodes d in
  (2 * face_tolerance <= xMax d - xMin d ->
   n ∈ nodes_left b -> n ∉ nodes_right b)
  /\ (2 * face_tolerance <= yMax d - yMin d ->
      n ∈ nodes_front b -> n ∉ nodes_back b)
  /\ (2 * face_tolerance <= zMax d - zMin d ->
      n ∈ nodes_bottom b -> n ∉ nodes_top b).
Proof.
  intros b. subst b. unfold getBoundaryNodes3D.
  cbn [nodes_left nodes_right nodes_front nodes_back nodes_bottom nodes_top].
  repeat split; apply faces_apart.
Qed.

Lemma faces_of_the_bounding_box_witness :
  let n1 := mkNode 1 (0, 0, 0) in
  let n2 := mkNode 2 (10, 0, 0) in
  let n3 := mkNode 3 (10, 5, 2) in
  let n4 := mkNode 4 (0, 5, 1) in
  let d := mkDimensions 0 10 0 5 0 2 in
  getRVEDimensions3D [n1; n2; n3; n4] = Some d
  /\ nodes_left (getBoundaryNodes3D [n1; n2; n3; n4] d) = [n1; n4]
  /\ Forall (in_box d) [n1; n2; n3; n4]
  /\ Forall (fun '(face, _, _, _, _) => face <> [])
       (faces_of d (getBoundaryNodes3D [n1; n2; n3; n4] d)).
Proof.
  intros n1 n2 n3 n4 d. split; [vm_compute; reflexivity|].
  split; [vm_compute; reflexivity|].
  apply (proj1 (proj2 (faces_of_the_bounding_box [n1; n2; n3; n4]))).
  vm_compute. reflexivity.
Defined.

Lemma opposite_faces_are_disjoint_witness :
  let n1 := mkNode 1 (0, 0, 0) in
  let n2 := mkNode 2 (10, 0, 0) in
  let d := mkDimensions 0 10 0 5 0 2 in
  n1 ∈ nodes_left (getBoundaryNodes3D [n1; n2] d)
  /\ n1 ∉ nodes_right (getBoundaryNodes3D [n1; n2] d).
Proof.
  intros n1 n2 d.
  assert (H : n1 ∈ nodes_left (getBoundaryNodes3D [n1; n2] d))
    by (vm_compute; apply list_elem_of_here).
  split; [exact H|].
  apply (proj1 (opposite_faces_are_disjoint [n1; n2] d n1));
    [vm_compute; discriminate|exact H].
Defined.

(** ** Classifier *)

Lemma insert_by_size_perm c l : insert_by_size c l ≡ₚ c :: l.
Proof.
  induction l as [|d l IH]; cbn; [done|].
  destruct (Qltb _ _); [|done]. rewrite IH. apply Permutation_swap.
Qed.

Lemma sorted_by_size_perm l : sorted_by_size l ≡ₚ l.
Proof.
  induction l as [|x l IH]; cbn; [done|].
  fold (sorted_by_size l). by rewrite insert_by_size_perm, IH.
Qed.

Lemma insert_by_size_sorted c l :
  StronglySorted (fun a b => getSize b <= getSize a) l ->
  StronglySorted (fun a b => getSize b <= getSize a) (insert_by_size c l).
Proof.
  induction 1 as [|d l Hl IH Hd]; cbn; [repeat constructor|].
  destruct (Qltb (getSize c) (getSize d)) eqn:E; Qbool.
  - constructor; [done|]. rewrite insert_by_size_perm.
    constructor; [lra|done].
  - constructor; [by constructor|]. constructor; [done|].
    eapply Forall_impl; [exact Hd|]. cbn. intros x Hx. lra.
Qed.

Lemma sorted_by_size_sorted l :
  StronglySorted (fun a b => getSize b <= getSize a) (sorted_by_size l).
Proof.
  induction l as [|x l IH]; cbn; [constructor|].
  by apply insert_by_size_sorted.
Qed.

Lemma StronglySorted_sublist {A} (R : A -> A -> Prop) l1 l2 :
  sublist l1 l2 -> StronglySorted R l2 -> StronglySorted R l1.
Proof.
  induction 1 as [|x l1 l2 Hsub IH|x l1 l2 Hsub IH]; intros Hs.
  - constructor.
  - apply StronglySorted_inv in Hs as [Hs Hx]. constructor; [by apply IH|].
    rewrite Forall_forall in Hx. apply Forall_forall. intros y Hy.
    apply Hx. by eapply elem_of_sublist.
  - apply StronglySorted_inv in Hs as [Hs _]. by apply IH.
Qed.

Section ClassifierResults.

Variable math_sqrt : Q -> Q.

Lemma min_center_dist_lt cell_x cell_y centers fiberRadius :
  inf_lt (min_center_dist math_sqrt cell_x cell_y centers) fiberRadius = true
  <-> exists fc, fc ∈ centers
        /\ math_sqrt (sq (cell_x - fc.1) + sq (cell_y - fc.2)) < fiberRadius.
Proof.
  unfold min_center_dist.
  assert (G : forall acc,
    inf_lt (foldl (fun min_dist fc =>
                     let dist :=
                       math_sqrt (sq (cell_x - fc.1) + sq (cell_y - fc.2)) in
                     if lt_inf dist min_dist then Some dist else min_dist)
              acc centers) fiberRadius = true
    <-> inf_lt acc fiberRadius = true
        \/ exists fc, fc ∈ centers
             /\ math_sqrt (sq (cell_x - fc.1) + sq (cell_y - fc.2))
                < fiberRadius).
  { induction centers as [|fc l IH]; intros acc; cbn [foldl].
    - split; [by left|]. intros [H|(fc & Hin & _)]; [done|].
      by apply elem_of_nil in Hin.
    - rewrite IH. cbn zeta.
      set (dist := math_sqrt (sq (cell_x - fc.1) + sq (cell_y - fc.2))).
      assert (Hstep :
        inf_lt (if lt_inf dist acc then Some dist else acc) fiberRadius = true
        <-> inf_lt acc fiberRadius = true \/ dist < fiberRadius).
      { destruct acc as [a|]; cbn [lt_inf inf_lt].
        - destruct (Qltb dist a) eqn:E; cbn [inf_lt]; rewrite !Qltb_lt;
            Qbool; clearbody dist.
          + split; [by right|]. intros [H|H]; lra.
          + split; [by left|]. intros [H|H]; lra.
        - rewrite Qltb_lt. split; [by right|]. by intros [|]. }
      rewrite Hstep. split.
      + intros [[H|H]|(fc' & Hin & H)]; [by left| |].
        * right. exists fc. split; [apply list_elem_of_here|done].
        * right. exists fc'. split; [by apply list_elem_of_further|done].
      + intros [H|(fc' & Hin & H)]; [by left; left|].
        apply elem_of_cons in Hin as [->|Hin]; [left; by right|].
        right. by exists fc'. }
  rewrite G. cbn [inf_lt]. split; [by intros [|]|by right].
Qed.

Lemma classify_cell_inv centers fiberRadius largest pre st ic st' :
  classify_inv math_sqrt centers fiberRadius largest pre st ->
  classify_cell math_sqrt centers fiberRadius st ic = Ok st' ->
  classify_inv math_sqrt centers fiberRadius largest (pre ++ [ic]) st'.
Proof.
  destruct st as [[fibers matrix] queries], ic as [idx cell].
  intros (fragments & Hm & Hq & Hperm & Hsf & Hsm & Hf & Hg) H.
  cbn [fst snd] in *. subst matrix queries. unfold classify_cell in H.
  change (match getCentroid cell with
            | Some c => Some c
            | None => getCellCenterFromVertices cell
            end) with (cell_center_of cell) in H.
  destruct (cell_center_of cell) as [[[cx cy] cz]|] eqn:Ec; [|done].
  destruct (inf_lt (min_center_dist math_sqrt cx cy centers) fiberRadius)
    eqn:E; ok_inv H; subst st'.
  - apply min_center_dist_lt in E as (fc & Hin & Hlt).
    exists fragments. cbn [fst snd]. rewrite fmap_app, length_app.
    cbn [fmap list_fmap length]. split; [done|]. split; [lia|].
    split; [|split; [|split; [|split]]].
    + rewrite <- Hperm, <- !app_assoc.
      apply Permutation_app_head, Permutation_app_comm.
    + by apply sublist_app.
    + by apply sublist_inserts_r.
    + apply Forall_app. split; [done|]. constructor; [|constructor].
      by exists cx, cy, cz, fc.
    + done.
  - exists (fragments ++ [cell]). cbn [fst snd]. rewrite fmap_app, length_app.
    cbn [fmap list_fmap length]. split; [done|]. split; [lia|].
    split; [|split; [|split; [|split]]].
    + by rewrite <- Hperm, app_assoc.
    + by apply sublist_inserts_r.
    + by apply sublist_app.
    + done.
    + apply Forall_app. split; [done|]. constructor; [|constructor].
      split; [by rewrite Ec|].
      intros (cx' & cy' & cz' & fc & Hc & Hin & Hlt).
      rewrite Ec in Hc. injection Hc as <- <- <-.
      apply not_true_iff_false in E. apply E, min_center_dist_lt. eauto.
Qed.

Lemma snd_zip_seq {A} (l : list A) a : (zip (seq a (length l)) l).*2 = l.
Proof. apply snd_zip. by rewrite length_seq. Qed.

(** What Steps 1 to 4 return. *)
Lemma classify_step4_inv all_cells fiber_centers rveSize fiberRadius st :
  classify_step4 math_sqrt all_cells fiber_centers rveSize fiberRadius
  = Ok st ->
  let potential := drop 1 (sorted_by_size all_cells) in
  let centers :=
    buildAllFiberCenters3D math_sqrt fiber_centers rveSize fiberRadius in
  exists largest,
    sorted_by_size all_cells = largest :: potential
    /\ (length centers <= length potential)%nat
    /\ (length potential = length centers ->
        st = (potential, [largest], O))
    /\ (length centers < length potential ->
        classify_inv math_sqrt centers fiberRadius largest
          (zip (seq 0 (length potential)) potential) st)%nat.
Proof.
  intros H potential centers. unfold classify_step4 in H.
  apply bind_Ok_inv in H as (largest & Hl & H). apply get_item_Ok in Hl.
  fold potential centers in H. exists largest.
  assert (Hs : sorted_by_size all_cells = largest :: potential).
  { subst potential. destruct (sorted_by_size all_cells) as [|c l]; [done|].
    cbn in Hl. injection Hl as ->. reflexivity. }
  split; [done|].
  destruct (length potential <? length centers)%nat eqn:E1; [done|].
  apply Nat.ltb_ge in E1. split; [done|].
  destruct (length potential =? length centers)%nat eqn:E2.
  - apply Nat.eqb_eq in E2. ok_inv H. split; [done|]. lia.
  - apply Nat.eqb_neq in E2. split; [done|]. intros _. revert H.
    apply foldlM_ind.
    + exists []. cbn. repeat split; by constructor.
    + intros pre ic s1 s2 Hinv Hstep. by eapply classify_cell_inv.
Qed.

(** X21.  When the Classifier returns, every cell is in exactly one of
    its two lists: the fiber list followed by the matrix list is a
    rearrangement of the cells it was given.  The matrix list starts with
    a cell of the largest volume, and the fiber cells are in descending
    order of volume. *)
Theorem classifier_partitions_cells
    all_cells fiber_centers rveSize fiberRadius rveVolume res :
  classifyCellsImproved math_sqrt all_cells fiber_centers rveSize fiberRadius
    rveVolume = Ok res ->
  fiber_cells_list res ++ matrix_cells_list res ≡ₚ all_cells
  /\ (exists largest fragments,
        matrix_cells_list res = largest :: fragments
        /\ Forall (fun c => getSize c <= getSize largest) all_cells)
  /\ StronglySorted (fun a b => getSize b <= getSize a) (fiber_cells_list res).
Proof.
  unfold classifyCellsImproved. intros H.
  apply bind_Ok_inv in H as ([[fibers matrix] queries] & Hst & H).
  apply bind_Ok_inv in H as (warning & _ & H). ok_inv H. subst res.
  cbn [fiber_cells_list matrix_cells_list].
  apply classify_step4_inv in Hst as (largest & Hs & Hle & Heq & Hgt).
  set (potential := drop 1 (sorted_by_size all_cells)) in *.
  pose proof (sorted_by_size_perm all_cells) as Hperm.
  pose proof (sorted_by_size_sorted all_cells) as Hsorted.
  rewrite Hs in Hperm, Hsorted.
  apply StronglySorted_inv in Hsorted as [Hsp Hmax].
  assert (Hall : Forall (fun c => getSize c <= getSize largest) all_cells).
  { rewrite <- Hperm. constructor; [lra|done]. }
  destruct (decide (length potential
                    = length (buildAllFiberCenters3D math_sqrt fiber_centers
                                rveSize fiberRadius))) as [E|E].
  - specialize (Heq E). injection Heq as -> -> _.
    split; [|split; [by exists largest, []|done]].
    rewrite <- Hperm. by rewrite <- Permutation_cons_append.
  - destruct Hgt as (fragments & Hm & _ & Hp & Hsf & _); [lia|].
    cbn [fst snd] in *. subst matrix. rewrite snd_zip_seq in Hp, Hsf.
    split; [|split; [by exists largest, fragments|]].
    + rewrite <- Hperm, <- Hp. by rewrite Permutation_middle.
    + by eapply StronglySorted_sublist.
Qed.

(** X22.  When there are more potential cells than fiber centers with
    mirrors and the Classifier returns, it has queried the center of every
    potential cell, and a potential cell is a fiber cell exactly when its
    center is less than [fiberRadius] from one of the centers in the XY
    plane ([math.sqrt] of the sum of the squared differences); the other
    potential cells follow the largest cell in the matrix list.  Both
    lists keep the cells in descending order of volume. *)
Theorem fiber_cells_are_the_cells_near_a_fiber
    all_cells fiber_centers rveSize fiberRadius rveVolume res :
  let potential := drop 1 (sorted_by_size all_cells) in
  let centers :=
    buildAllFiberCenters3D math_sqrt fiber_centers rveSize fiberRadius in
  (length centers < length potential)%nat ->
  classifyCellsImproved math_sqrt all_cells fiber_centers rveSize fiberRadius
    rveVolume = Ok res ->
  center_queries res = length potential
  /\ sublist (fiber_cells_list res) potential
  /\ sublist (drop 1 (matrix_cells_list res)) potential
  /\ forall cell, cell ∈ potential ->
       is_Some (cell_center_of cell)
       /\ (cell ∈ fiber_cells_list res
           <-> near_a_fiber math_sqrt centers fiberRadius cell)
       /\ (cell ∈ drop 1 (matrix_cells_list res)
           <-> ~ near_a_fiber math_sqrt centers fiberRadius cell).
Proof.
  intros potential centers Hlt. unfold classifyCellsImproved. intros H.
  apply bind_Ok_inv in H as ([[fibers matrix] queries] & Hst & H).
  apply bind_Ok_inv in H as (warning & _ & H). ok_inv H. subst res.
  cbn [fiber_cells_list matrix_cells_list center_queries].
  apply classify_step4_inv in Hst as (largest & _ & _ & _ & Hgt).
  fold potential centers in Hgt.
  destruct (Hgt Hlt) as (fragments & Hm & Hq & Hp & Hsf & Hsm & Hf & Hg).
  cbn [fst snd] in *. subst matrix queries.
  rewrite snd_zip_seq in Hp, Hsf, Hsm. rewrite length_zip, length_seq.
  cbn [drop]. split; [lia|]. split; [done|]. split; [done|].
  rewrite Forall_forall in Hf. rewrite Forall_forall in Hg.
  intros cell Hin. rewrite <- Hp in Hin. apply elem_of_app in Hin.
  split; [|split].
  - destruct Hin as [Hin|Hin]; [|by apply Hg].
    destruct (Hf _ Hin) as (cx & cy & cz & _ & -> & _). by eexists.
  - split; [apply Hf|]. intros Hn. destruct Hin as [Hin|Hin]; [done|].
    by destruct (Hg _ Hin) as [_ Hg'].
  - split; [intros Hc; by apply Hg|].
    intros Hn. destruct Hin as [Hin|Hin]; [|done]. by apply Hf in Hin.
Qed.

Lemma classify_cell_with_center centers fiberRadius st idx cell c :
  cell_center_of cell = Some c ->
  is_Ok (classify_cell math_sqrt centers fiberRadius st (idx, cell)).
Proof.
  intros Hc. destruct st as [[f m] q], c as [[cx cy] cz].
  unfold classify_cell. unfold cell_center_of in Hc.
  destruct (getCentroid cell) as [c0|]; cbn beta iota in Hc |- *.
  - injection Hc as ->. destruct (inf_lt _ _); by eexists.
  - rewrite Hc. destruct (inf_lt _ _); by eexists.
Qed.

Lemma classify_cell_without_center centers fiberRadius st idx cell :
  cell_center_of cell = None ->
  classify_cell math_sqrt centers fiberRadius st (idx, cell)
  = Raise (CellCenterUnavailable idx (getSize cell)).
Proof.
  intros Hc. destruct st as [[f m] q].
  unfold classify_cell. unfold cell_center_of in Hc.
  destruct (getCentroid cell); [discriminate Hc|].
  cbn beta iota in Hc |- *. by rewrite Hc.
Qed.

Lemma classify_loop_raises centers fiberRadius l a idx cell st :
  l !! idx = Some cell ->
  cell_center_of cell = None ->
  (forall k c, (k < idx)%nat -> l !! k = Some c ->
               is_Some (cell_center_of c)) ->
  foldlM (classify_cell math_sqrt centers fiberRadius) st
         (zip (seq a (length l)) l)
  = Raise (CellCenterUnavailable (a + idx) (getSize cell)).
Proof.
  revert a idx st. induction l as [|c0 l IH]; intros a idx st Hl Hc Hpre;
    [done|].
  cbn [length seq zip zip_with foldlM]. destruct idx as [|idx].
  - cbn in Hl. injection Hl as ->.
    rewrite (classify_cell_without_center centers fiberRadius st a cell Hc).
    cbn [mbind result_bind]. by rewrite Nat.add_0_r.
  - destruct (Hpre 0%nat c0 ltac:(lia) eq_refl) as [c Hc0].
    destruct (classify_cell_with_center centers fiberRadius st a c0 c Hc0)
      as [st' ->].
    cbn [mbind result_bind]. rewrite (IH (S a) idx st' Hl Hc).
    + f_equal. f_equal. lia.
    + intros k c' Hk Hk'. apply (Hpre (S k) c'); [lia|done].
Qed.

(** X23.  When there are more potential cells than fiber centers with
    mirrors, the Classifier stops at the first potential cell that has
    neither a centroid nor a vertex with coordinates, with the fatal error
    that names the index of that cell among the potential cells and its
    volume; the volume-fraction check is not reached. *)
Theorem classifier_stops_at_first_cell_without_center
    all_cells fiber_centers rveSize fiberRadius rveVolume idx cell :
  let potential := drop 1 (sorted_by_size all_cells) in
  let centers :=
    buildAllFiberCenters3D math_sqrt fiber_centers rveSize fiberRadius in
  (length centers < length potential)%nat ->
  potential !! idx = Some cell ->
  cell_center_of cell = None ->
  (forall k c, (k < idx)%nat -> potential !! k = Some c ->
               is_Some (cell_center_of c)) ->
  classifyCellsImproved math_sqrt all_cells fiber_centers rveSize fiberRadius
    rveVolume
  = Raise (CellCenterUnavailable idx (getSize cell)).
Proof.
  intros potential centers Hlt Hl Hc Hpre.
  unfold classifyCellsImproved, classify_step4.
  fold potential centers.
  destruct (sorted_by_size all_cells) as [|largest l] eqn:Es.
  { subst potential. cbn in Hl. done. }
  cbn [get_item lookup list_lookup mbind result_bind].
  assert (E1 : (length potential <? length centers)%nat = false)
    by (apply Nat.ltb_ge; lia).
  assert (E2 : (length potential =? length centers)%nat = false)
    by (apply Nat.eqb_neq; lia).
  rewrite E1, E2.
  by rewrite (classify_loop_raises centers fiberRadius potential 0 idx cell
                _ Hl Hc Hpre).
Qed.

End ClassifierResults.

Lemma classifier_partitions_cells_witness :
  let largest := mkCell 90 None None in
  let fiber := mkCell 3.14 (Some (5, 5, 0.5)) None in
  let fragment := mkCell 0.01 None (Some [Some (0.1, 0.1, 0); None;
                                          Some (0.3, 0.1, 1)]) in
  let res := mkClassification [fiber] [largest; fragment] 2 false in
  classifyCellsImproved sqrt_upper [fragment; largest; fiber] [(5, 5)]
    (mkRve 10 10 1) 1 100 = Ok res
  /\ fiber_cells_list res ++ matrix_cells_list res
     ≡ₚ [fragment; largest; fiber]
  /\ (exists largest' fragments,
        matrix_cells_list res = largest' :: fragments
        /\ Forall (fun c => getSize c <= getSize largest')
             [fragment; largest; fiber])
  /\ StronglySorted (fun a b => getSize b <= getSize a) (fiber_cells_list res).
Proof.
  intros largest fiber fragment res. split; [vm_compute; reflexivity|].
  apply (classifier_partitions_cells sqrt_upper [fragment; largest; fiber]
           [(5, 5)] (mkRve 10 10 1) 1 100 res).
  vm_compute. reflexivity.
Defined.

Lemma fiber_cells_are_the_cells_near_a_fiber_witness :
  let largest := mkCell 90 None None in
  let fiber := mkCell 3.14 (Some (5, 5, 0.5)) None in
  let fragment := mkCell 0.01 None (Some [Some (0.1, 0.1, 0); None;
                                          Some (0.3, 0.1, 1)]) in
  let res := mkClassification [fiber] [largest; fragment] 2 false in
  let centers :=
    buildAllFiberCenters3D sqrt_upper [(5, 5)] (mkRve 10 10 1) 1 in
  center_queries res = 2%nat
  /\ sublist (fiber_cells_list res) [fiber; fragment]
  /\ sublist (drop 1 (matrix_cells_list res)) [fiber; fragment]
  /\ forall cell, cell ∈ [fiber; fragment] ->
       is_Some (cell_center_of cell)
       /\ (cell ∈ fiber_cells_list res
           <-> near_a_fiber sqrt_upper centers 1 cell)
       /\ (cell ∈ drop 1 (matrix_cells_list res)
           <-> ~ near_a_fiber sqrt_upper centers 1 cell).
Proof.
  intros largest fiber fragment res centers.
  apply (fiber_cells_are_the_cells_near_a_fiber sqrt_upper
           [fragment; largest; fiber] [(5, 5)] (mkRve 10 10 1) 1 100 res).
  - vm_compute. lia.
  - vm_compute. reflexivity.
Defined.

Lemma classifier_stops_at_first_cell_without_center_witness :
  let largest := mkCell 90 None None in
  let fiber := mkCell 3.14 (Some (5, 5, 0.5)) None in
  let fragment := mkCell 0.01 None (Some [None]) in
  classifyCellsImproved sqrt_upper [fragment; largest; fiber] [(5, 5)]
    (mkRve 10 10 1) 1 100
  = Raise (CellCenterUnavailable 1 0.01).
Proof.
  intros largest fiber fragment.
  apply (classifier_stops_at_first_cell_without_center sqrt_upper
           [fragment; largest; fiber] [(5, 5)] (mkRve 10 10 1) 1 100 1
           fragment).
  - vm_compute. lia.
  - vm_compute. reflexivity.
  - vm_compute. reflexivity.
  - intros k c Hk Hc. assert (k = 0%nat) as -> by lia.
    vm_compute in Hc. injection Hc as <-. vm_compute. by eexists.
Defined.

(** ** Step 2: the points of one center *)

Lemma point_ltb_spec p q :
  point_ltb p q = true <-> p.1 < q.1 \/ (p.1 == q.1 /\ p.2 < q.2).
Proof.
  unfold point_ltb. rewrite orb_true_iff, andb_true_iff.
  by rewrite !Qltb_lt, Qeqb_eq.
Qed.

Lemma point_eqb_false p q :
  point_eqb p q = false <-> ~ point_eq p q.
Proof. by rewrite <- not_true_iff_false, point_eqb_eq. Qed.

Lemma point_trichotomy p q :
  point_ltb q p = false -> point_eqb p q = false -> point_ltb p q = true.
Proof.
  rewrite <- not_true_iff_false, point_eqb_false, !point_ltb_spec.
  unfold point_eq. intros H1 H2.
  destruct (Q_dec p.1 q.1) as [[Hlt|Hgt]|Heq]; [by left|exfalso; auto|].
  right. split; [done|].
  destruct (Q_dec p.2 q.2) as [[Hlt|Hgt]|Heq2]; [done| |].
  - exfalso. apply H1. right. split; [by symmetry|done].
  - exfalso. by apply H2.
Qed.

Lemma point_ltb_trans p q r :
  point_ltb p q = true -> point_ltb q r = true -> point_ltb p r = true.
Proof.
  rewrite !point_ltb_spec. intros [H1|[H1 H2]] [H3|[H3 H4]];
    first [left; lra | right; split; lra].
Qed.

Lemma insert_point_strictly_sorted p sorted :
  Forall (fun q => point_eqb p q = false) sorted ->
  StronglySorted (fun a b => point_ltb a b = true) sorted ->
  StronglySorted (fun a b => point_ltb a b = true) (insert_point p sorted).
Proof.
  intros Hd Hs. induction Hs as [|q s Hs IH Hq]; cbn [insert_point];
    [repeat constructor|].
  apply Forall_cons in Hd as [Hpq Hd].
  destruct (point_ltb q p) eqn:E.
  - constructor; [by apply IH|]. apply Forall_forall. intros x Hx.
    apply list_elem_of_In, insert_point_In in Hx as [->|Hx]; [done|].
    rewrite Forall_forall in Hq. by apply Hq, list_elem_of_In.
  - pose proof (point_trichotomy p q E Hpq) as Hlt.
    constructor; [by constructor|]. constructor; [done|].
    eapply Forall_impl; [exact Hq|]. cbn. intros x Hx.
    by eapply point_ltb_trans.
Qed.

Lemma filter_distinct (f : Point -> bool) l :
  StronglySorted (fun a b => point_eqb a b = false) l ->
  StronglySorted (fun a b => point_eqb a b = false) (List.filter f l).
Proof.
  induction 1 as [|a l Hl IH Ha]; cbn [List.filter]; [constructor|].
  destruct (f a); [|done]. constructor; [done|].
  apply Forall_forall. intros x Hx.
  apply list_elem_of_In, filter_In in Hx as [Hx _].
  rewrite Forall_forall in Ha. by apply Ha, list_elem_of_In.
Qed.

Lemma set_of_points_distinct points :
  StronglySorted (fun a b => point_eqb a b = false) (set_of_points points).
Proof.
  induction points as [|p points IH]; cbn [set_of_points]; [constructor|].
  constructor; [by apply filter_distinct|].
  apply Forall_forall. intros x Hx.
  apply list_elem_of_In, filter_In in Hx as [_ Hx].
  by apply negb_true_iff in Hx.
Qed.

Lemma sort_points_strictly_sorted l :
  StronglySorted (fun a b => point_eqb a b = false) l ->
  StronglySorted (fun a b => point_ltb a b = true) (foldr insert_point [] l).
Proof.
  induction 1 as [|p l Hl IH Hp]; cbn [foldr]; [constructor|].
  apply insert_point_strictly_sorted; [|done].
  apply Forall_forall. intros x Hx.
  assert (Hin : In x l).
  { clear -Hx. apply list_elem_of_In in Hx. induction l as [|y l IH]; [done|].
    cbn [foldr] in Hx. apply insert_point_In in Hx as [->|Hx]; [by left|].
    right. by apply IH. }
  rewrite Forall_forall in Hp. by apply Hp, list_elem_of_In.
Qed.

Lemma insert_point_length p l : length (insert_point p l) = S (length l).
Proof.
  induction l as [|q l IH]; cbn [insert_point]; [done|].
  destruct (point_ltb q p); cbn [length]; by rewrite ?IH.
Qed.

Lemma unique_points_length l :
  length (unique_points l) = length (set_of_points l).
Proof.
  unfold unique_points. induction (set_of_points l) as [|p s IH]; [done|].
  cbn [foldr]. by rewrite insert_point_length, IH.
Qed.

Lemma List_filter_length_le {A} (f : A -> bool) l :
  (length (List.filter f l) <= length l)%nat.
Proof.
  induction l as [|a l IH]; cbn [List.filter length]; [lia|].
  destruct (f a); cbn [length]; lia.
Qed.

Lemma set_of_points_length l :
  (length (set_of_points l) <= length l)%nat
  /\ (l <> [] -> 1 <= length (set_of_points l))%nat.
Proof.
  induction l as [|p l [IH _]]; [done|]. cbn [set_of_points length].
  pose proof (List_filter_length_le (fun q => negb (point_eqb p q))
                (set_of_points l)).
  split; [lia|]. intros _. lia.
Qed.

Lemma points_to_add_length rveSize fiberRadius c :
  (1 <= length (points_to_add rveSize fiberRadius c) <= 9)%nat.
Proof.
  destruct c as [xt yt]. unfold points_to_add. cbv zeta.
  destruct (Qltb xt fiberRadius), (Qltb (rve_w rveSize - fiberRadius) xt),
    (Qltb yt fiberRadius), (Qltb (rve_h rveSize - fiberRadius) yt);
    cbn; lia.
Qed.

(** X24.  For every fiber center Step 2 appends between one and nine
    coordinate pairs, in strictly ascending order (x first, then y), so
    that no two of them are equal; one of them equals the center itself.
    The list of Step 2 is the concatenation of these groups in the order
    of the centers, and so has at least as many entries as there are
    centers and at most nine times as many. *)
Theorem step2_groups_are_sorted_and_distinct fiber_centers rveSize fiberRadius :
  let group c := unique_points (points_to_add rveSize fiberRadius c) in
  create3DRVEModel_step2 fiber_centers rveSize fiberRadius
  = flat_map group fiber_centers
  /\ (forall c,
        StronglySorted (fun p q => p.1 < q.1 \/ (p.1 == q.1 /\ p.2 < q.2))
          (group c)
        /\ (exists p, In p (group c) /\ point_eq p c)
        /\ (1 <= length (group c) <= 9)%nat)
  /\ (length fiber_centers
      <= length (create3DRVEModel_step2 fiber_centers rveSize fiberRadius)
      <= 9 * length fiber_centers)%nat.
Proof.
  intros group.
  assert (Hlen : forall c, (1 <= length (group c) <= 9)%nat).
  { intros c. subst group. cbn beta. rewrite unique_points_length.
    pose proof (points_to_add_length rveSize fiberRadius c) as Hp.
    destruct (set_of_points_length (points_to_add rveSize fiberRadius c))
      as [H1 H2].
    split; [|lia]. apply H2. intros E. rewrite E in Hp. cbn in Hp. lia. }
  split; [reflexivity|]. split.
  - intros c. split; [|split; [|done]].
    + eapply StronglySorted_impl;
        [|apply sort_points_strictly_sorted, set_of_points_distinct].
      intros a b H. by apply point_ltb_spec.
    + destruct (set_of_points_covers (points_to_add rveSize fiberRadius c) c)
        as (p & Hin & Heq).
      { apply (points_to_add_In (fun x => x)). cbv zeta. left.
        by destruct c. }
      exists p. split; [|done]. by apply unique_points_In.
  - unfold create3DRVEModel_step2. fold group.
    induction fiber_centers as [|c l IH]; cbn [flat_map length]; [lia|].
    rewrite length_app. specialize (Hlen c). lia.
Qed.

(** ** The exceptions of the Corrector *)

Lemma bind_Raise_inv {A B} (m : result A) (f : A -> result B) e :
  m ≫= f = Raise e -> m = Raise e \/ exists a, m = Ok a /\ f a = Raise e.
Proof. destruct m as [a|e']; cbn; [eauto|]. intros [= ->]. by left. Qed.


Lemma get_item_Raise {A} (l : list A) i e :
  get_item l i = Raise e -> low_level e.
Proof. unfold get_item. destruct (l !! i); [done|]. intros [= <-]. by left. Qed.



Lemma modify_item_Raise {A} (l : list A) i f e :
  (forall a, f a = Raise e -> low_level e) ->
  modify_item l i f = Raise e -> low_level e.
Proof.
  intros Hf. unfold modify_item. intros H.
  apply bind_Raise_inv in H as [H|(a & _ & H)]; [by eapply get_item_Raise|].
  apply bind_Raise_inv in H as [H|(a' & _ & H)]; [by eapply Hf|done].
Qed.

Lemma pair_delta_Raise rveSize coords i j e :
  pair_delta rveSize coords i j = Raise e -> low_level e.
Proof.
  unfold pair_delta. intros H.
  apply bind_Raise_inv in H as [H|(a & _ & H)]; [by eapply get_item_Raise|].
  apply bind_Raise_inv in H as [H|(a' & _ & H)]; [by eapply get_item_Raise|done].
Qed.



Section CorrectorErrors.

Variable math_sqrt : Q -> Q.







End CorrectorErrors.


(** ** The center of a cell from its vertices *)






(** ** Step 10 as a whole *)

Section Step10.

Variable math_sqrt : Q -> Q.

Lemma pair_faces_sides nodes_a nodes_b pairing_tolerance coord_indices pairs :
  pair_faces math_sqrt nodes_a nodes_b pairing_tolerance coord_indices
  = Ok pairs ->
  pairs.*1 ⊆+ nodes_a /\ pairs.*2 ⊆+ nodes_b.
Proof.
  unfold pair_faces. intros H.
  destruct (length nodes_a <=? length nodes_b)%nat.
  - apply pairing_sides in H as (H1 & H2 & _). by split.
  - apply bind_Ok_inv in H as (ps & Hps & H). ok_inv H. subst pairs.
    apply pairing_sides in Hps as (H1 & H2 & _).
    change (map (fun p : Node * Node => (p.2, p.1)) ps)
      with ((fun p : Node * Node => (p.2, p.1)) <$> ps).
    rewrite <- !list_fmap_compose. by split.
Qed.

Lemma pair_faces_returns nodes_a nodes_b pairing_tolerance coord_indices :
  (coord_indices.1 < 3)%nat -> (coord_indices.2 < 3)%nat ->
  is_Ok (pair_faces math_sqrt nodes_a nodes_b pairing_tolerance
           coord_indices).
Proof.
  intros H1 H2. unfold pair_faces.
  destruct (length nodes_a <=? length nodes_b)%nat.
  - by apply pairing_returns.
  - destruct (pairing_returns math_sqrt nodes_b nodes_a pairing_tolerance
                coord_indices H1 H2) as [ps ->]. by eexists.
Qed.

Lemma submseteq_NoDup_1 (l k : list Node) : l ⊆+ k -> NoDup k -> NoDup l.
Proof.
  intros Hs Hk. apply submseteq_Permutation in Hs as [k' Hk'].
  rewrite Hk' in Hk. by apply NoDup_app in Hk as [? _].
Qed.

Lemma face_nodes_NoDup coord bound k1 k2 nodes :
  NoDup nodes -> NoDup (face_nodes coord bound k1 k2 nodes).
Proof.
  intros H. unfold face_nodes. rewrite sort_nodes_perm.
  apply NoDup_ListNoDup, List.NoDup_filter. by apply NoDup_ListNoDup.
Qed.

Lemma face_pairs_join coord lo hi k1 k2 nodes tol coord_indices pairs :
  pair_faces math_sqrt (face_nodes coord lo k1 k2 nodes)
    (face_nodes coord hi k1 k2 nodes) tol coord_indices = Ok pairs ->
  joins_faces nodes coord lo hi pairs.
Proof.
  intros H. apply pair_faces_sides in H as [H1 H2]. split.
  - apply Forall_forall. intros p Hp. split.
    + apply (elem_of_face_nodes coord lo k1 k2).
      eapply elem_of_submseteq; [|exact H1]. by apply list_elem_of_fmap_2.
    + apply (elem_of_face_nodes coord hi k1 k2).
      eapply elem_of_submseteq; [|exact H2]. by apply list_elem_of_fmap_2.
  - intros Hnd. split.
    + eapply submseteq_NoDup_1; [exact H1|by apply face_nodes_NoDup].
    + eapply submseteq_NoDup_1; [exact H2|by apply face_nodes_NoDup].
Qed.

(** X27.  For an instance with at least one node, Step 10 pairs the nodes
    without raising: it finds the box of the instance and returns three
    lists of pairs.  Every pair of the first list joins a node less than
    1e-6 from [xMin] with a node less than 1e-6 from [xMax], likewise the
    second list in y and the third in z; and when the nodes of the
    instance are distinct, no node is the first node of two pairs of a
    list, nor the second node of two. *)
Theorem step10_pairs_join_opposite_faces nodes pairing_tolerance :
  nodes <> [] ->
  exists d lr_pairs fb_pairs bt_pairs,
    getRVEDimensions3D nodes = Some d
    /\ step10_pairing math_sqrt nodes pairing_tolerance
       = Some (Ok (lr_pairs, fb_pairs, bt_pairs))
    /\ joins_faces nodes node_x (xMin d) (xMax d) lr_pairs
    /\ joins_faces nodes node_y (yMin d) (yMax d) fb_pairs
    /\ joins_faces nodes node_z (zMin d) (zMax d) bt_pairs.
Proof.
  intros Hne. unfold step10_pairing.
  destruct (getRVEDimensions3D nodes) as [d|] eqn:Ed.
  2:{ exfalso. destruct nodes as [|n nodes]; [done|].
      unfold getRVEDimensions3D in Ed. cbn in Ed. discriminate. }
  cbn zeta. unfold getBoundaryNodes3D.
  cbn [nodes_left nodes_right nodes_front nodes_back nodes_bottom nodes_top].
  destruct (pair_faces_returns
              (face_nodes node_x (xMin d) node_y node_z nodes)
              (face_nodes node_x (xMax d) node_y node_z nodes)
              pairing_tolerance (1%nat, 2%nat)) as [lr Hlr]; [cbn; lia..|].
  destruct (pair_faces_returns
              (face_nodes node_y (yMin d) node_x node_z nodes)
              (face_nodes node_y (yMax d) node_x node_z nodes)
              pairing_tolerance (0%nat, 2%nat)) as [fb Hfb]; [cbn; lia..|].
  destruct (pair_faces_returns
              (face_nodes node_z (zMin d) node_x node_y nodes)
              (face_nodes node_z (zMax d) node_x node_y nodes)
              pairing_tolerance (0%nat, 1%nat)) as [bt Hbt]; [cbn; lia..|].
  exists d, lr, fb, bt. rewrite Hlr, Hfb, Hbt. split; [done|].
  split; [done|]. split; [|split]; by eapply face_pairs_join.
Qed.

End Step10.

Lemma step10_pairs_join_opposite_faces_witness :
  let corner (k : Z) x y z := mkNode k (x, y, z) in
  let nodes :=
    [corner 1%Z 0 0 0; corner 2%Z 10 0 0; corner 3%Z 10 5 0;
     corner 4%Z 0 5 0; corner 5%Z 0 0 2; corner 6%Z 10 0 2;
     corner 7%Z 10 5 2; corner 8%Z 0 5 2] in
  (exists lr_pairs fb_pairs bt_pairs,
     step10_pairing sqrt_upper nodes 0.5
     = Some (Ok (lr_pairs, fb_pairs, bt_pairs))
     /\ length lr_pairs = 4%nat /\ length fb_pairs = 4%nat
     /\ length bt_pairs = 4%nat)
  /\ exists d lr_pairs fb_pairs bt_pairs,
       getRVEDimensions3D nodes = Some d
       /\ step10_pairing sqrt_upper nodes 0.5
          = Some (Ok (lr_pairs, fb_pairs, bt_pairs))
       /\ joins_faces nodes node_x (xMin d) (xMax d) lr_pairs
       /\ joins_faces nodes node_y (yMin d) (yMax d) fb_pairs
       /\ joins_faces nodes node_z (zMin d) (zMax d) bt_pairs.
Proof.
  intros corner nodes. split.
  - eexists _, _, _. split; [vm_compute; reflexivity|].
    repeat split; reflexivity.
  - apply (step10_pairs_join_opposite_faces sqrt_upper nodes 0.5).
    discriminate.
Defined.
